(** * wVote: the weekly composition store, the vote sanitizer and the
      ranking routine of [compo.py], embedded in Rocq.

    Python dictionaries with a fixed set of string keys are records whose
    fields are options ([None] = the key is absent, a subscript on it raises
    [KeyError]); the values under the keys have the types of the data model
    (an int rating, string identifiers, byte-string payloads).  Exceptions
    and in-place mutation are threaded through a small state-and-exception
    monad whose state survives a raise, as the mutated Python objects do;
    the dictionaries of a week are not shared between its lists.  Python
    floats are IEEE 754 binary64 numbers, taken from the standard library's
    [SpecFloat]. *)

From Stdlib Require Import ZArith List String Bool Lia SpecFloat.
From stdpp Require Import gmap strings list sorting.

Local Open Scope string_scope.
Local Open Scope list_scope.
Local Open Scope Z_scope.

(** ** Exceptions and the effect monad *)

Inductive exn : Type :=
  | TypeError
  | KeyError
  | IndexError
  | ValueError
  | ZeroDivisionError
  | OverflowError
  | StatisticsError.

(** The outcome of running a piece of code: a value, a raised exception, or
    [OutOfFuel] when a loop modelled with a step bound has used it up. *)
Inductive outcome (A : Type) : Type :=
  | Ok (a : A)
  | Raise (e : exn)
  | OutOfFuel.
Arguments Ok {A} a.
Arguments Raise {A} e.
Arguments OutOfFuel {A}.

Definition M (St A : Type) : Type := St -> outcome A * St.

Definition ret {St A} (a : A) : M St A := fun s => (Ok a, s).

Definition bind {St A B} (c : M St A) (k : A -> M St B) : M St B :=
  fun s =>
    match c s with
    | (Ok a, s') => k a s'
    | (Raise e, s') => (Raise e, s')
    | (OutOfFuel, s') => (OutOfFuel, s')
    end.

Definition raise {St A} (e : exn) : M St A := fun s => (Raise e, s).
Definition get {St} : M St St := fun s => (Ok s, s).
Definition put {St} (s : St) : M St unit := fun _ => (Ok tt, s).
Definition modify {St} (f : St -> St) : M St unit := fun s => (Ok tt, f s).

Global Instance M_ret {St} : MRet (M St) := fun A a => ret a.
Global Instance M_bind {St} : MBind (M St) := fun A B k c => bind c k.

(** [d[key]] on a dictionary field. *)
Definition getitem {St A} (field : option A) : M St A :=
  match field with
  | Some a => ret a
  | None => raise KeyError
  end.

(** Runs [c] on the first component of the state. *)
Definition on_fst {A B R} (c : M A R) : M (A * B) R :=
  fun s => let '(r, a) := c (fst s) in (r, (a, snd s)).

(** Runs [c] on the second component of the state. *)
Definition on_snd {A B R} (c : M B R) : M (A * B) R :=
  fun s => let '(r, b) := c (snd s) in (r, (fst s, b)).

(** [for x in l: body(x)] over a list that the body does not change. *)
Fixpoint foreach {St A} (l : list A) (body : A -> M St unit) : M St unit :=
  match l with
  | [] => ret tt
  | x :: l' => body x ;; foreach l' body
  end.

(** [for i, x in enumerate(l): body] where the body mutates the object [x]
    in place: the body runs with [x] as the first component of its state, and
    the list holds the mutated objects afterwards, also when the body raises. *)
Fixpoint foreach_mut {St A} (body : nat -> M (A * St) unit)
    (i : nat) (l : list A) (s : St) : outcome unit * (list A * St) :=
  match l with
  | [] => (Ok tt, ([], s))
  | x :: l' =>
      match body i (x, s) with
      | (Ok _, (x', s')) =>
          let '(r, (l'', s'')) := foreach_mut body (S i) l' s' in
          (r, (x' :: l'', s''))
      | (Raise e, (x', s')) => (Raise e, (x' :: l', s'))
      | (OutOfFuel, (x', s')) => (OutOfFuel, (x' :: l', s'))
      end
  end.

(** [for x in l: body(x)] over a list object that the body may change while
    it is iterated: Python's list iterator keeps an index, reads [l[i]] from
    the list as it is now, and stops when the index is past the end. *)
Fixpoint for_in_mutable {St A} (the_list : St -> list A)
    (body : A -> M St unit) (fuel i : nat) : M St unit :=
  fun s =>
    match the_list s !! i with
    | None => (Ok tt, s)
    | Some x =>
        match fuel with
        | O => (OutOfFuel, s)
        | S fuel' =>
            (body x ;; for_in_mutable the_list body fuel' (S i)) s
        end
    end.

(** [l.remove(x)]: deletes the first element equal to [x]. *)
Fixpoint list_remove {A} `{EqDecision A} (x : A) (l : list A)
    : option (list A) :=
  match l with
  | [] => None
  | y :: l' =>
      if decide (y = x) then Some l'
      else match list_remove x l' with
           | Some l'' => Some (y :: l'')
           | None => None
           end
  end.

(** [l.pop(i)] *)
Definition list_pop {St A} (i : nat) (l : list A) : M St (A * list A) :=
  match l !! i with
  | Some x => ret (x, take i l ++ drop (S i) l)
  | None => raise IndexError
  end.

(** Runs [c] with a local variable, initially [init], as the second
    component of the state; returns the result and the variable's last value. *)
Definition with_local {St L A} (init : L) (c : M (St * L) A) : M St (A * L) :=
  fun s =>
    let '(r, (s', l)) := c (s, init) in
    (match r with
     | Ok a => Ok (a, l)
     | Raise e => Raise e
     | OutOfFuel => OutOfFuel
     end, s').

(** ** Floats: IEEE 754 binary64 *)

Definition prec : Z := 53.
Definition emax : Z := 1024.

Abbreviation float := spec_float.

(** [float(z)] for an int [z]: rounded to nearest even, [OverflowError] when
    the int is too large. *)
Definition float_of_int {St} (z : Z) : M St float :=
  match binary_normalize prec emax z 0 false with
  | S754_infinity _ => raise OverflowError
  | f => ret f
  end.

Definition is_zero (f : float) : bool :=
  match f with S754_zero _ => true | _ => false end.

(** [x / y] on floats *)
Definition float_truediv {St} (x y : float) : M St float :=
  if is_zero y then raise ZeroDivisionError else ret (SFdiv prec emax x y).

Definition float_mul (x y : float) : float := SFmul prec emax x y.
Definition float_add (x y : float) : float := SFadd prec emax x y.
Definition float_lt (x y : float) : bool := SFltb x y.
Definition float_le (x y : float) : bool := SFleb x y.
Definition float_eq (x y : float) : bool := SFeqb x y.

Definition five : float := binary_normalize prec emax 5 0 false.
Definition zero : float := S754_zero false.

Definition is_finite (f : float) : bool :=
  match f with
  | S754_zero _ | S754_finite _ _ _ => true
  | _ => false
  end.

(** The exact value of a finite float, as an integer times a power of two. *)
Definition exact_ratio (f : float) : Z * Z :=
  match f with
  | S754_finite s m e => (if s then Z.neg m else Z.pos m, e)
  | _ => (0, 0)
  end.

(** Exact sum of integers scaled by powers of two. *)
Definition exact_add (x y : Z * Z) : Z * Z :=
  let '(mx, ex) := x in
  let '(my, ey) := y in
  let e := Z.min ex ey in
  (mx * 2 ^ (ex - e) + my * 2 ^ (ey - e), e).

(** [p / q] for ints [p] and [q > 0]: the quotient correctly rounded. *)
Definition int_truediv (p q : Z) : float :=
  match p, q with
  | Z0, _ => zero
  | Z.pos mp, Z.pos mq =>
      SFdiv prec emax (S754_finite false mp 0) (S754_finite false mq 0)
  | Z.neg mp, Z.pos mq =>
      SFdiv prec emax (S754_finite true mp 0) (S754_finite false mq 0)
  | _, _ => S754_nan
  end.

(** [statistics.mean(data)] on floats: the exact rational mean of the data,
    rounded once; [StatisticsError] on empty data.  Non-finite data (which
    the ranking never produces) are added as floats and divided by the
    count. *)
Definition mean {St} (data : list float) : M St float :=
  match data with
  | [] => raise StatisticsError
  | _ :: _ =>
      let n := Z.of_nat (length data) in
      match filter (fun x => is_finite x = false) data with
      | [] =>
          let '(m, e) := foldl exact_add (0, 0) (exact_ratio <$> data) in
          if 0 <=? e then ret (int_truediv (m * 2 ^ e) n)
          else ret (int_truediv m (n * 2 ^ (- e)))
      | x :: xs =>
          d ← float_of_int n;
          ret (SFdiv prec emax (foldl float_add x xs) d)
      end
  end.

(** ** Data model *)

Definition bytes : Type := list Byte.byte.

(** One judgment of a ballot: [{"entryUUID": .., "voteParam": .., "rating": ..}] *)
Record Rating : Type := mkRating {
  entryUUID : option string;
  voteParam : option string;
  rating : option Z
}.

(** One voter's ballot; [minimum] and [maximum] are written by the ranking. *)
Record Vote : Type := mkVote {
  userID : option Z;
  ratings : option (list Rating);
  minimum : option Z;
  maximum : option Z
}.

(** One submission.  The payloads [pdf] and [mp3] may hold Python's [None]
    (the inner option); [voteScore] and [votePlacement] are written by the
    ranking.  The int [0] that the ranking stores as the score of an unrated
    entry is the float [+0.0] here: Python orders and compares the two alike. *)
Record Entry : Type := mkEntry {
  uuid : option string;
  pdf : option (option bytes);
  pdfFilename : option string;
  mp3 : option (option bytes);
  mp3Format : option string;
  mp3Filename : option string;
  entryName : option string;
  entrantName : option string;
  discordID : option (option Z);
  voteScore : option float;
  votePlacement : option Z
}.

Record Week : Type := mkWeek {
  theme : option string;
  date : option string;
  submissionsOpen : option bool;
  votingOpen : option bool;
  entries : option (list Entry);
  votes : option (list Vote)
}.

Global Instance byte_eq_dec : EqDecision Byte.byte := Byte.byte_eq_dec.

Global Instance Rating_eq_dec : EqDecision Rating.
Proof. solve_decision. Defined.

Definition set_ratings (v : Vote) (rs : list Rating) : Vote :=
  mkVote (userID v) (Some rs) (minimum v) (maximum v).
Definition set_minimum (v : Vote) (x : Z) : Vote :=
  mkVote (userID v) (ratings v) (Some x) (maximum v).
Definition set_maximum (v : Vote) (x : Z) : Vote :=
  mkVote (userID v) (ratings v) (minimum v) (Some x).
Definition set_voteScore (e : Entry) (x : float) : Entry :=
  mkEntry (uuid e) (pdf e) (pdfFilename e) (mp3 e) (mp3Format e)
    (mp3Filename e) (entryName e) (entrantName e) (discordID e)
    (Some x) (votePlacement e).
Definition set_votePlacement (e : Entry) (x : Z) : Entry :=
  mkEntry (uuid e) (pdf e) (pdfFilename e) (mp3 e) (mp3Format e)
    (mp3Filename e) (entryName e) (entrantName e) (discordID e)
    (voteScore e) (Some x).
Definition set_entries (w : Week) (es : list Entry) : Week :=
  mkWeek (theme w) (date w) (submissionsOpen w) (votingOpen w)
    (Some es) (votes w).
Definition set_votes (w : Week) (vs : list Vote) : Week :=
  mkWeek (theme w) (date w) (submissionsOpen w) (votingOpen w)
    (entries w) (Some vs).

(** What the logging module receives: [logging.warning(text)], where the
    text of a "Sus rating" record ends with [str(r)]. *)
Inductive log_record : Type :=
  | Warning (text : string) (shown : option Rating).

(** The process-wide state of the module: the two globals (Python's [None]
    is [None]), the two pickle files they are loaded from (absent, or holding
    a week), and the log. *)
Record World : Type := mkWorld {
  current_week : option Week;
  next_week : option Week;
  current_week_pickle : option Week;
  next_week_pickle : option Week;
  log : list log_record
}.

Definition set_log (σ : World) (lg : list log_record) : World :=
  mkWorld (current_week σ) (next_week σ) (current_week_pickle σ)
    (next_week_pickle σ) lg.

(** ** [get_week] *)

Definition blank_week (submissions_open : bool) : Week :=
  mkWeek (Some "Week XYZ: Fill this in by hand!") (Some "Month day'th 20XX")
    (Some submissions_open) (Some true) (Some []) None.

(** Loads the globals that are still [None] (from the pickle, or a blank
    week when the file is not found) and returns the requested one.  The
    returned dictionary is the global object itself: the caller's mutations
    are written back with [store_week]. *)
Definition get_week (get_next_week : bool) (σ : World) : Week * World :=
  let cw :=
    match current_week σ with
    | Some w => w
    | None =>
        match current_week_pickle σ with
        | Some w => w
        | None => blank_week false
        end
    end in
  let nw :=
    match next_week σ with
    | Some w => w
    | None =>
        match next_week_pickle σ with
        | Some w => w
        | None => blank_week true
        end
    end in
  (if get_next_week then nw else cw,
   mkWorld (Some cw) (Some nw) (current_week_pickle σ) (next_week_pickle σ)
     (log σ)).

Definition store_week (get_next_week : bool) (w : Week) (σ : World) : World :=
  if get_next_week
  then mkWorld (current_week σ) (Some w) (current_week_pickle σ)
         (next_week_pickle σ) (log σ)
  else mkWorld (Some w) (next_week σ) (current_week_pickle σ)
         (next_week_pickle σ) (log σ).

(** ** [entry_valid] and [count_valid_entries] *)

(** [key in entry] *)
Definition entry_has (e : Entry) (key : string) : bool :=
  if String.eqb key "uuid" then bool_decide (is_Some (uuid e))
  else if String.eqb key "pdf" then bool_decide (is_Some (pdf e))
  else if String.eqb key "pdfFilename" then bool_decide (is_Some (pdfFilename e))
  else if String.eqb key "mp3" then bool_decide (is_Some (mp3 e))
  else if String.eqb key "mp3Format" then bool_decide (is_Some (mp3Format e))
  else if String.eqb key "mp3Filename" then bool_decide (is_Some (mp3Filename e))
  else if String.eqb key "entryName" then bool_decide (is_Some (entryName e))
  else if String.eqb key "entrantName" then bool_decide (is_Some (entrantName e))
  else if String.eqb key "discordID" then bool_decide (is_Some (discordID e))
  else if String.eqb key "voteScore" then bool_decide (is_Some (voteScore e))
  else if String.eqb key "votePlacement" then bool_decide (is_Some (votePlacement e))
  else false.

(** [entry[param] is None] for the two payload keys; [None] when the key is
    absent (a [KeyError]). *)
Definition payload_is_None (e : Entry) (param : string) : option bool :=
  if String.eqb param "mp3" then (fun b => bool_decide (b = None)) <$> mp3 e
  else if String.eqb param "pdf" then (fun b => bool_decide (b = None)) <$> pdf e
  else None.

Definition requirements : list string :=
  [ "uuid"; "pdf"; "pdfFilename"; "mp3"; "mp3Format"; "mp3Filename";
    "entryName"; "entrantName" ].

Fixpoint all_present (e : Entry) (reqs : list string) : bool :=
  match reqs with
  | [] => true
  | requirement :: reqs' =>
      if negb (entry_has e requirement) then false else all_present e reqs'
  end.

Fixpoint none_is_None {St} (e : Entry) (params : list string) : M St bool :=
  match params with
  | [] => ret true
  | param :: params' =>
      isn ← getitem (payload_is_None e param);
      if (isn : bool) then ret false else none_is_None e params'
  end.

Definition entry_valid {St} (entry : Entry) : M St bool :=
  if all_present entry requirements
  then none_is_None entry ["mp3"; "pdf"]
  else ret false.

Fixpoint count_valid_loop {St} (es : list Entry) (count : Z) : M St Z :=
  match es with
  | [] => ret count
  | e :: es' =>
      ok ← entry_valid e;
      count_valid_loop es' (if (ok : bool) then count + 1 else count)
  end.

Definition count_valid_entries (which_week : bool) : M World Z :=
  fun σ =>
    let '(week, σ1) := get_week which_week σ in
    (es ← getitem (entries week); count_valid_loop es 0) σ1.

(** ** [verify_votes] *)

(** The local dictionary [userVotes], keyed by (voter, entry, parameter). *)
Abbreviation UserVotes := (gmap (Z * string * string) bool).

(** What a caller passes as [week]: the annotation asks for a dict, and one
    call site passes the bool it was given. *)
Inductive pyval : Type :=
  | PyBool (b : bool)
  | PyWeek (w : Week).

Definition warning {St} (text : string) (shown : option Rating)
    : M (St * list log_record) unit :=
  modify (fun s => (fst s, snd s ++ [Warning text shown])).

Definition set_userVotes (k : Z * string * string) (b : bool)
    : M (list Rating * (UserVotes * list log_record)) unit :=
  modify (fun s => (fst s, (<[k:=b]> (fst (snd s)), snd (snd s)))).

(** The body of the inner loop for the rating [r] of a ballot whose
    ["userID"] field is [v_userID].  The state holds the list object
    [v["ratings"]], [userVotes] and the log. *)
Definition check_rating (v_userID : option Z) (r : Rating)
    : M (list Rating * (UserVotes * list log_record)) unit :=
  uid ← getitem v_userID;
  eu ← getitem (entryUUID r);
  vp ← getitem (voteParam r);
  s ← get;
  accepted ←
    (if bool_decide (is_Some (fst (snd s) !! (uid, eu, vp))) then ret false
     else
       x ← getitem (rating r);
       if x <=? 5 then (y ← getitem (rating r); ret (y >=? 0))
       else ret false);
  if (accepted : bool) then
    x ← getitem (rating r);
    if x =? 0 then set_userVotes (uid, eu, vp) false
    else set_userVotes (uid, eu, vp) true
  else
    on_snd (warning "COMPO: FRAUD DETECTED (CHECK VOTES)" None);;
    on_snd (warning "Sus rating: " (Some r));;
    s' ← get;
    match list_remove r (fst s') with
    | Some l' => put (l', snd s')
    | None => raise ValueError
    end.

(** The body of the outer loop: the ballot [v] is the first component of the
    state.  The inner loop iterates the list object while [check_rating]
    removes from it; it makes at most as many steps as the list is long. *)
Definition verify_vote : M (Vote * (UserVotes * list log_record)) unit :=
  fun s =>
    let v := fst s in
    match ratings v with
    | None => (Raise KeyError, s)
    | Some rs =>
        let '(r, (rs', s')) :=
          for_in_mutable fst (check_rating (userID v)) (length rs) 0
            (rs, snd s) in
        (r, (set_ratings v rs', s'))
    end.

(** [for v in week["votes"]: body], the body mutating the ballot [v]. *)
Definition for_votes_mut {St} (body : M (Vote * St) unit)
    : M (Week * St) unit :=
  fun s =>
    match votes (fst s) with
    | None => (Raise KeyError, s)
    | Some vs =>
        let '(r, (vs', s')) := foreach_mut (fun _ => body) 0 vs (snd s) in
        (r, (set_votes (fst s) vs', s'))
    end.

(** [verify_votes(week)] on a dictionary; the state is the dictionary and
    the log, [userVotes] is local. *)
Definition verify_votes_dict : M (Week * list log_record) unit :=
  fun s =>
    let week :=
      if bool_decide (is_Some (votes (fst s))) then fst s
      else set_votes (fst s) [] in
    let '(r, (week', (_, lg))) :=
      for_votes_mut verify_vote (week, ((∅ : UserVotes), snd s)) in
    (r, (week', lg)).

Definition verify_votes : M (pyval * list log_record) unit :=
  fun s =>
    match fst s with
    | PyBool _ => (Raise TypeError, s)
    | PyWeek w =>
        let '(r, (w', lg)) := verify_votes_dict (w, snd s) in
        (r, (PyWeek w', lg))
    end.

(** ** [get_ranked_entrant_list] *)

(** *** Rating extents (the first loop) *)

(** The body of the inner loop; the state is the ballot [v]. *)
Definition scan_rating (r : Rating) : M Vote unit :=
  x ← getitem (rating r);
  if x =? 0 then ret tt
  else
    x ← getitem (rating r);
    v ← get;
    mx ← getitem (maximum v);
    (if x >? mx
     then (x' ← getitem (rating r); modify (fun v => set_maximum v x'))
     else ret tt);;
    x ← getitem (rating r);
    v ← get;
    mn ← getitem (minimum v);
    if x <? mn
    then (x' ← getitem (rating r); modify (fun v => set_minimum v x'))
    else ret tt.

Definition rating_extents : M Vote unit :=
  modify (fun v => set_minimum v 5);;
  modify (fun v => set_maximum v 1);;
  v ← get;
  rs ← getitem (ratings v);
  foreach rs scan_rating.

(** *** Normalized scores (the second loop) *)

Abbreviation Scores := (gmap string (list float)).

(** The three lines that compute [normalized] for the rating [r] of [v]. *)
Definition normalize {St} (v : Vote) (r : Rating) : M St float :=
  x ← getitem (rating r);
  mn ← getitem (minimum v);
  normalized ← float_of_int (x - (mn - 1));
  mx ← getitem (maximum v);
  mn' ← getitem (minimum v);
  d ← float_of_int (mx - (mn' - 1));
  normalized ← float_truediv normalized d;
  ret (float_mul normalized five).

(** The body of the inner loop; the state is the dictionary [scores]. *)
Definition score_rating (v : Vote) (r : Rating) : M Scores unit :=
  eu ← getitem (entryUUID r);
  scores ← get;
  (if bool_decide (is_Some (scores !! eu)) then ret tt
   else (eu' ← getitem (entryUUID r); modify (fun sc : Scores => <[eu':=[]]> sc)));;
  x ← getitem (rating r);
  if x =? 0 then ret tt
  else
    normalized ← normalize v r;
    eu' ← getitem (entryUUID r);
    scores ← get;
    l ← getitem ((scores : Scores) !! eu');
    put (<[eu':=l ++ [normalized]]> scores).

Definition evaluate_scores (vs : list Vote) : M Scores unit :=
  foreach vs (fun v => rs ← getitem (ratings v); foreach rs (score_rating v)).

(** *** Final scores and the entry pool (the third loop) *)

(** A reference to an entry dictionary of [week["entries"]]: its position
    there, with the dictionary's content. *)
Definition EntryRef : Type := nat * Entry.

(** The body of the loop for the entry at position [i]; the state is the
    entry and [entry_pool]. *)
Definition write_score (scores : Scores) (i : nat)
    : M (Entry * list EntryRef) unit :=
  e ← on_fst get;
  ok ← entry_valid e;
  if (ok : bool) then
    u ← getitem (uuid e);
    (if bool_decide (is_Some (scores !! u))
     then
       u' ← getitem (uuid e);
       l ← getitem (scores !! u');
       m ← mean l;
       on_fst (modify (fun e => set_voteScore e m))
     else on_fst (modify (fun e => set_voteScore e zero)));;
    e' ← on_fst get;
    on_snd (modify (fun pool => pool ++ [(i, e')]))
  else ret tt.

(** [for e in week["entries"]: ...], the state is the week and [entry_pool]. *)
Definition write_scores (scores : Scores) : M (Week * list EntryRef) unit :=
  fun s =>
    match entries (fst s) with
    | None => (Raise KeyError, s)
    | Some es =>
        let '(r, (es', pool)) := foreach_mut (write_score scores) 0 es (snd s) in
        (r, (set_entries (fst s) es', pool))
    end.

(** *** The elimination loop *)

(** [sorted(l, key=...)]: the keys are compared with [<] only, and equal
    keys keep their order.  [insert_by_key k x l] puts [x], which came before
    the elements of [l], in front of the first element that is not smaller. *)
Fixpoint insert_by_key {A} (k : float) (x : A) (l : list (float * A))
    : list (float * A) :=
  match l with
  | [] => [(k, x)]
  | (k', y) :: l' =>
      if float_lt k' k then (k', y) :: insert_by_key k x l'
      else (k, x) :: (k', y) :: l'
  end.

Fixpoint sort_by_key {A} (l : list (float * A)) : list (float * A) :=
  match l with
  | [] => []
  | (k, x) :: l' => insert_by_key k x (sort_by_key l')
  end.

(** The keys [e["voteScore"]] of the pool, computed before sorting. *)
Fixpoint with_keys {St} (pool : list EntryRef)
    : M St (list (float * EntryRef)) :=
  match pool with
  | [] => ret []
  | e :: pool' =>
      k ← getitem (voteScore (snd e));
      rest ← with_keys pool';
      ret ((k, e) :: rest)
  end.

Definition sorted_by_voteScore {St} (pool : list EntryRef)
    : M St (list EntryRef) :=
  keyed ← with_keys pool;
  ret (snd <$> sort_by_key keyed).

(** [l[i]] *)
Definition list_item {St A} (l : list A) (i : nat) : M St A :=
  match l !! i with
  | Some x => ret x
  | None => raise IndexError
  end.

(** The body of the loop over a ballot's ratings; the state is
    [(scoreA, scoreB)]. *)
Definition tally_rating (entryA entryB : Entry) (r : Rating)
    : M (Z * Z) unit :=
  eu ← getitem (entryUUID r);
  ua ← getitem (uuid entryA);
  if String.eqb eu ua then
    x ← getitem (rating r);
    modify (fun s => (fst s + x, snd s))
  else
    eu' ← getitem (entryUUID r);
    ub ← getitem (uuid entryB);
    if String.eqb eu' ub then
      x ← getitem (rating r);
      modify (fun s => (fst s, snd s + x))
    else ret tt.

(** The body of the loop over the ballots; the state is
    [(preferEntryA, preferEntryB)]. *)
Definition tally_vote (entryA entryB : Entry) (v : Vote) : M (Z * Z) unit :=
  rs ← getitem (ratings v);
  sums ← with_local (0, 0) (on_snd (foreach rs (tally_rating entryA entryB)));
  let '(scoreA, scoreB) := snd sums in
  if scoreA >? scoreB then modify (fun s => (fst s + 1, snd s))
  else if scoreB >? scoreA then modify (fun s => (fst s, snd s + 1))
  else ret tt.

(** [(preferEntryA, preferEntryB)] after the loop over [week["votes"]]. *)
Definition head_to_head {St} (week : Week) (entryA entryB : Entry)
    : M St (Z * Z) :=
  vs ← getitem (votes week);
  p ← with_local (0, 0) (on_snd (foreach vs (tally_vote entryA entryB)));
  ret (snd p).

(** [ranked_entries.append(entry_pool.pop(i))]; the state is
    [(entry_pool, ranked_entries)]. *)
Definition move_to_ranked (i : nat) : M (list EntryRef * list EntryRef) unit :=
  s ← get;
  x ← list_pop i (fst s);
  put (snd x, snd s ++ [fst x]).

(** One pass through the body of the [while] loop. *)
Definition elimination_round (week : Week)
    : M (list EntryRef * list EntryRef) unit :=
  s ← get;
  entry_pool ← sorted_by_voteScore (fst s);
  put (entry_pool, snd s);;
  entryA ← list_item entry_pool 0;
  entryB ← list_item entry_pool 1;
  p ← head_to_head week (snd entryA) (snd entryB);
  let '(preferEntryA, preferEntryB) := p in
  if preferEntryA >=? preferEntryB then move_to_ranked 0
  else move_to_ranked 1.

(** [while len(entry_pool) > 1: ...] *)
Fixpoint elimination_loop (week : Week) (fuel : nat)
    : M (list EntryRef * list EntryRef) unit :=
  fun s =>
    if (1 <? length (fst s))%nat then
      match fuel with
      | O => (OutOfFuel, s)
      | S fuel' => (elimination_round week;; elimination_loop week fuel') s
      end
    else (Ok tt, s).

(** *** Placements and the returned list *)

Definition place_entry (i : nat) (place : Z) (w : Week) : Week :=
  match entries w with
  | Some es =>
      set_entries w (alter (fun e => set_votePlacement e (place + 1)) i es)
  | None => w
  end.

(** [for place, e in enumerate(l): e["votePlacement"] = place + 1], giving
    the content of the objects of [l] after the loop. *)
Fixpoint assign_placements (place : Z) (l : list EntryRef)
    : M Week (list Entry) :=
  match l with
  | [] => ret []
  | (i, e) :: l' =>
      modify (place_entry i place);;
      rest ← assign_placements (place + 1) l';
      ret (set_votePlacement e (place + 1) :: rest)
  end.

(** *** The function *)

(** The three scoring loops; the state is [week], the result is
    [entry_pool]. *)
Definition score_entries : M Week (list EntryRef) :=
  with_local tt (for_votes_mut (on_fst rating_extents));;
  week ← get;
  vs ← getitem (votes week);
  sc ← with_local (∅ : Scores) (on_snd (evaluate_scores vs));
  p ← with_local [] (write_scores (snd sc));
  ret (snd p).

(** The elimination loop, the last entry and the placements; the state is
    [week]. *)
Definition rank_pool (entry_pool : list EntryRef) : M Week (list Entry) :=
  week ← get;
  lp ← with_local (entry_pool, [])
         (on_snd (elimination_loop week (length entry_pool)));
  let '(entry_pool, ranked_entries) := snd lp in
  x ← list_pop 0 entry_pool;
  assign_placements 0 (rev (fst x :: ranked_entries)).

(** The code after the call of [verify_votes]; the state is [week]. *)
Definition score_and_rank : M Week (list Entry) :=
  entry_pool ← score_entries;
  rank_pool entry_pool.

Definition get_ranked_entrant_list (which_week : bool)
    : M World (list Entry) :=
  fun σ =>
    let '(week, σ1) := get_week which_week σ in
    match verify_votes (PyBool which_week, log σ1) with
    | (Ok _, (_, lg)) =>
        let '(r, week') := score_and_rank week in
        (r, store_week which_week week' (set_log σ1 lg))
    | (Raise e, (_, lg)) => (Raise e, set_log σ1 lg)
    | (OutOfFuel, (_, lg)) => (OutOfFuel, set_log σ1 lg)
    end.

(** * Notions used in the statements *)

(** ** Entry validity *)

(** The validity condition as the code decides it: the eight required keys
    are present and neither payload is Python's [None]. *)
Definition valid (e : Entry) : Prop :=
  is_Some (uuid e) /\ is_Some (pdf e) /\ is_Some (pdfFilename e) /\
  is_Some (mp3 e) /\ is_Some (mp3Format e) /\ is_Some (mp3Filename e) /\
  is_Some (entryName e) /\ is_Some (entrantName e) /\
  pdf e <> Some None /\ mp3 e <> Some None.

Global Instance valid_dec (e : Entry) : Decision (valid e).
Proof. unfold valid. apply _. Defined.

(** The validity condition in the words of the specification: the eight
    fields are present and both payload blobs are non-empty. *)
Definition nonempty_blob (field : option (option bytes)) : Prop :=
  exists b, field = Some (Some b) /\ b <> [].

Definition spec_valid (e : Entry) : Prop :=
  is_Some (uuid e) /\ is_Some (pdf e) /\ is_Some (pdfFilename e) /\
  is_Some (mp3 e) /\ is_Some (mp3Format e) /\ is_Some (mp3Filename e) /\
  is_Some (entryName e) /\ is_Some (entrantName e) /\
  nonempty_blob (pdf e) /\ nonempty_blob (mp3 e).

(** ** Well-formed ballots *)

(** The structural keys the sanitizer subscripts. *)
Definition rating_has_keys (r : Rating) : Prop :=
  is_Some (entryUUID r) /\ is_Some (voteParam r) /\ is_Some (rating r).

Definition vote_has_keys (v : Vote) : Prop :=
  is_Some (userID v) /\
  exists rs, ratings v = Some rs /\ Forall rating_has_keys rs.

Definition week_has_keys (w : Week) : Prop :=
  forall vs, votes w = Some vs -> Forall vote_has_keys vs.

(** The week as the ranking loops read it: ["votes"] is present and the
    ballots carry their keys. *)
Definition week_ready (w : Week) : Prop :=
  exists vs, votes w = Some vs /\ Forall vote_has_keys vs.

Definition ballot_ratings (v : Vote) : list Rating := default [] (ratings v).
Definition week_votes (w : Week) : list Vote := default [] (votes w).
Definition all_ratings (w : Week) : list Rating :=
  week_votes w ≫= ballot_ratings.

(** The two log records written for each rejected rating. *)
Definition fraud : log_record :=
  Warning "COMPO: FRAUD DETECTED (CHECK VOTES)" None.
Definition sus (r : Rating) : log_record := Warning "Sus rating: " (Some r).

Definition rejection_records (removed : list Rating) : list log_record :=
  removed ≫= (fun r => [fraud; sus r]).

(** ** Normalization in the words of the specification *)

(** [float(z)] without the overflow check. *)
Definition Z2F (z : Z) : float := binary_normalize prec emax z 0 false.

Definition one : float := Z2F 1.

(** [((rating - (minimum - 1)) / (maximum - (minimum - 1))) * 5], each
    operation rounded to binary64 as Python evaluates it. *)
Definition formula_binary64 (x mn mx : Z) : float :=
  float_mul (SFdiv prec emax (Z2F (x - (mn - 1))) (Z2F (mx - (mn - 1)))) five.

(** The values of the non-zero ratings of a ballot. *)
Definition active_ratings (rs : list Rating) : list Z :=
  filter (fun x => x <> 0) (omap rating rs).

(** ** The order of floats *)

(** A key that orders the floats other than NaN as [<] does: sign class,
    then exponent, then mantissa. *)
Definition float_rank (f : float) : Z * Z * Z :=
  match f with
  | S754_nan => (0, 0, 0)
  | S754_zero _ => (0, 0, 0)
  | S754_infinity true => (-2, 0, 0)
  | S754_infinity false => (2, 0, 0)
  | S754_finite false m e => (1, e, Z.pos m)
  | S754_finite true m e => (-1, - e, Z.neg m)
  end.

Definition rank_lt (a b : Z * Z * Z) : Prop :=
  a.1.1 < b.1.1
  \/ (a.1.1 = b.1.1 /\ (a.1.2 < b.1.2 \/ (a.1.2 = b.1.2 /\ a.2 < b.2))).

(** [a <= b] as [sorted] sees it: not [b < a]. *)
Definition float_not_after (a b : float) : Prop := float_lt b a = false.

(** Keyed items in ascending order of key. *)
Definition key_sorted {A} (l : list (float * A)) : Prop :=
  StronglySorted (fun p q => float_not_after p.1 q.1) l.

(** ** Pools and head-to-head counts *)

(** The score of a pooled entry ([+0.0] stands in when the key is absent). *)
Definition score_of (e : EntryRef) : float := default zero (voteScore (snd e)).

(** A pooled entry as the third loop leaves it: it has its ["uuid"] and a
    ["voteScore"] that is a number. *)
Definition pooled (e : EntryRef) : Prop :=
  is_Some (uuid (snd e)) /\
  exists k, voteScore (snd e) = Some k /\ k <> S754_nan.

(** The pool in ascending order of score. *)
Definition ascending (pool : list EntryRef) : Prop :=
  StronglySorted (fun a b => float_not_after (score_of a) (score_of b)) pool.

(** What [sorted(entry_pool, key=lambda e: e["voteScore"])] returns for a
    pool whose entries all have a score. *)
Definition sorted_pool (pool : list EntryRef) : list EntryRef :=
  snd <$> sort_by_key ((fun e => (score_of e, e)) <$> pool).

(** The sum of the raw ratings a ballot gives to the entry [u]. *)
Definition raw_sum (u : string) (rs : list Rating) : Z :=
  foldr Z.add 0
    (omap rating (filter (fun r => entryUUID r = Some u) rs)).

(** The number of ballots whose raw sum for [u1] is strictly above the one
    for [u2]. *)
Definition ballots_preferring (u1 u2 : string) (vs : list Vote) : Z :=
  Z.of_nat
    (length
       (filter (fun v => raw_sum u2 (ballot_ratings v)
                         < raw_sum u1 (ballot_ratings v)) vs)).

(** A computation that never uses up a step bound. *)
Definition terminates {St A} (c : M St A) : Prop :=
  forall s, fst (c s) <> OutOfFuel.

(** * Sample data *)

Definition rt (e p : string) (x : Z) : Rating :=
  mkRating (Some e) (Some p) (Some x).

Definition ballot (u : Z) (rs : list Rating) : Vote :=
  mkVote (Some u) (Some rs) None None.

Definition week_of (es : list Entry) (vs : list Vote) : Week :=
  mkWeek (Some "Week 1") (Some "January 1st 2021") (Some false) (Some true)
    (Some es) (Some vs).

(** An entry with every required key and the given payloads. *)
Definition entry_with (u : string) (payload : option bytes) : Entry :=
  mkEntry (Some u) (Some payload) (Some "score.pdf") (Some payload)
    (Some "mp3") (Some "take.mp3") (Some u) (Some "entrant") (Some None)
    None None.

Definition complete_entry (u : string) : Entry :=
  entry_with u (Some [Byte.x25; Byte.x50]).

(** An uploaded entry whose two files are empty byte strings. *)
Definition empty_files_entry : Entry := entry_with "e1" (Some []).

(** The module state with [w] as the current week and both globals loaded. *)
Definition loaded (w : Week) : World :=
  mkWorld (Some w) (Some (blank_week true)) None None [].

(** A pooled reference to the complete entry [u] with the score [k]. *)
Definition scored (i : nat) (u : string) (k : float) : EntryRef :=
  (i, set_voteScore (complete_entry u) k).

(** A ballot with two out-of-range ratings, and one with a rejected rating
    followed by two ratings for one (entry, parameter) pair. *)
Definition out_of_range_week : Week :=
  week_of [] [ballot 7 [rt "e1" "melody" 6; rt "e1" "harmony" 7]].

Definition repeated_week : Week :=
  week_of []
    [ballot 7 [rt "e1" "melody" 6; rt "e1" "melody" 3; rt "e1" "melody" 4]].

(** A week with one valid entry whose only rating is the abstention [0]. *)
Definition abstained_week : Week :=
  week_of [complete_entry "e1"] [ballot 7 [rt "e1" "melody" 0]].

(** A ballot that uses the band 1..3 only. *)
Definition narrow_ballot : Vote :=
  ballot 7 [rt "e1" "melody" 1; rt "e2" "melody" 3].

(** Two valid entries and no ballot; two valid entries and one ballot that
    rates the first 1 and the second 5. *)
Definition unrated_week : Week :=
  week_of [complete_entry "e1"; complete_entry "e2"] [].

Definition rated_week : Week :=
  week_of [complete_entry "e1"; complete_entry "e2"]
    [ballot 7 [rt "e1" "melody" 1; rt "e2" "melody" 5]].

(** Two valid entries and two ballots: the first gives "e1" the higher raw
    sum (2 against 1), the second gives both the raw sum 5. *)
Definition majority_week : Week :=
  week_of [complete_entry "e1"; complete_entry "e2"]
    [ballot 7 [rt "e1" "melody" 2; rt "e2" "melody" 1; rt "e3" "melody" 5];
     ballot 8 [rt "e1" "melody" 2; rt "e1" "harmony" 3; rt "e2" "melody" 5]].

(** * The rest of the module *)

(** ** [save_weeks] and [move_to_next_week] *)

(** The module state together with what the two functions below reach
    beyond it: the files under [weeks/archive/], by name, each holding the
    pickled value of a global (Python's [None] is [None]), and the texts
    passed to [logging.info].  The directories are taken to exist, so that
    opening a file for writing does not fail. *)
Record Host : Type := mkHost {
  world : World;
  archive : gmap string (option Week);
  info_log : list string
}.

Definition save_weeks (h : Host) : Host :=
  match current_week (world h), next_week (world h) with
  | Some cw, Some nw =>
      mkHost
        (mkWorld (Some cw) (Some nw) (Some cw) (Some nw) (log (world h)))
        (archive h)
        (info_log h
           ++ ["COMPO: current-week.pickle and next-week.pickle overwritten"])
  | _, _ => h
  end.

(** [today] is what [datetime.datetime.now().strftime("%m-%d-%y")] gives. *)
Definition archive_filename (today : string) : string :=
  "weeks/archive/" ++ today ++ ".pickle".

Definition move_to_next_week (today : string) (h : Host) : Host :=
  let σ := world h in
  save_weeks
    (mkHost
       (mkWorld (next_week σ) (Some (blank_week true))
          (current_week_pickle σ) (next_week_pickle σ) (log σ))
       (<[archive_filename today := current_week σ]> (archive h))
       (info_log h)).

(** A new process: the globals are [None] again, the files stay. *)
Definition restart (σ : World) : World :=
  mkWorld None None (current_week_pickle σ) (next_week_pickle σ) (log σ).

(** ** [create_blank_entry] *)

(** [fresh_uuid] is what [str(uuid.uuid4())] gives. *)
Definition blank_entry (fresh_uuid entrant_name : string)
    (discord_id : option Z) : Entry :=
  mkEntry (Some fresh_uuid) None None None None None (Some "")
    (Some entrant_name) (Some discord_id) None None.

Definition create_blank_entry (fresh_uuid entrant_name : string)
    (discord_id : option Z) (get_next_week : bool) : M World string :=
  fun σ =>
    let entry := blank_entry fresh_uuid entrant_name discord_id in
    let '(week, σ1) := get_week get_next_week σ in
    match entries week with
    | Some es =>
        (Ok fresh_uuid,
         store_week get_next_week (set_entries week (es ++ [entry])) σ1)
    | None => (Raise KeyError, σ1)
    end.

(** ** [find_entry_by_uuid] *)

(** The inner loop: the first entry of the list, from position [i] on,
    whose ["uuid"] is [wanted]. *)
Fixpoint find_in_entries {St} (wanted : string) (i : nat) (es : list Entry)
    : M St (option EntryRef) :=
  match es with
  | [] => ret None
  | entry :: es' =>
      u ← getitem (uuid entry);
      if String.eqb u wanted then ret (Some (i, entry))
      else find_in_entries wanted (S i) es'
  end.

(** One pass of the outer loop, for one value of [which_week]. *)
Definition find_in_week (wanted : string) (which_week : bool)
    : M World (option (bool * EntryRef)) :=
  fun σ =>
    let '(week, σ1) := get_week which_week σ in
    (es ← getitem (entries week);
     found ← find_in_entries wanted 0 es;
     ret ((fun e => (which_week, e)) <$> found)) σ1.

(** The result names the week and the position of the entry dictionary it
    returns, with the dictionary's content. *)
Definition find_entry_by_uuid (wanted : string)
    : M World (option (bool * EntryRef)) :=
  found ← find_in_week wanted true;
  match found with
  | Some e => ret (Some e)
  | None => find_in_week wanted false
  end.

(** ** [get_entry_file] *)

(** [key in entry and entry[key] == filename] for a filename key. *)
Definition names_file (field : option string) (filename : string) : bool :=
  match field with
  | Some f => String.eqb f filename
  | None => false
  end.

Definition get_entry_file (wanted filename : string)
    : M World (option bytes * option string) :=
  found ← find_entry_by_uuid wanted;
  match found with
  | None => ret (None, None)
  | Some (_, (_, entry)) =>
      if names_file (mp3Filename entry) filename then
        payload ← getitem (mp3 entry);
        ret (payload, Some "audio/mpeg")
      else if names_file (pdfFilename entry) filename then
        payload ← getitem (pdf entry);
        ret (payload, Some "application/pdf")
      else ret (None, None)
  end.

(** ** Notions for the store functions *)

(** The list under ["entries"] of the week that [get_week] returns. *)
Definition entries_of (which_week : bool) (σ : World)
    : option (list Entry) :=
  entries (fst (get_week which_week σ)).

(** The host with its module state replaced. *)
Definition with_world (h : Host) (σ : World) : Host :=
  mkHost σ (archive h) (info_log h).

(** An entry that has a ["uuid"], and not the wanted one. *)
Definition other_uuid (wanted : string) (e : Entry) : Prop :=
  exists u, uuid e = Some u /\ u <> wanted.

(** ** Notions for the sanitizer *)

(** The key under which the sanitizer records the rating [r] of a ballot of
    the voter [uid]. *)
Definition triple_of (uid : Z) (r : Rating) : option (Z * string * string) :=
  eu ← entryUUID r; vp ← voteParam r; Some (uid, eu, vp).

Definition ballot_triples (v : Vote) : list (Z * string * string) :=
  match userID v with
  | Some uid => omap (triple_of uid) (ballot_ratings v)
  | None => []
  end.

Definition week_triples (w : Week) : list (Z * string * string) :=
  week_votes w ≫= ballot_triples.

Definition in_range (r : Rating) : Prop :=
  exists x, rating r = Some x /\ 0 <= x <= 5.

(** A week the sanitizer has nothing to object to: ["votes"] is present,
    the ballots carry their keys, every rating is within 0..5 and no two
    ratings of the week share voter, entry and parameter. *)
Definition clean (w : Week) : Prop :=
  is_Some (votes w)
  /\ Forall vote_has_keys (week_votes w)
  /\ Forall in_range (all_ratings w)
  /\ NoDup (week_triples w).

(** ** Notions for the scoring loops *)

(** The ballot as the extent scan leaves it. *)
Definition scanned (v : Vote) : Vote :=
  mkVote (userID v) (ratings v)
    (Some (foldl Z.min 5 (active_ratings (ballot_ratings v))))
    (Some (foldl Z.max 1 (active_ratings (ballot_ratings v)))).

(** The ratings that name the entry [u]. *)
Definition ratings_for (u : string) (rs : list Rating) : list Rating :=
  filter (fun r => entryUUID r = Some u) rs.

(** The normalized values that the ballot [v] contributes to the scores of
    [u]: one for each non-zero rating that names [u], in order. *)
Definition ballot_scores (u : string) (v : Vote) : list float :=
  match minimum v, maximum v with
  | Some mn, Some mx =>
      (fun x => formula_binary64 x mn mx)
        <$> active_ratings (ratings_for u (ballot_ratings v))
  | _, _ => []
  end.

(** Some rating of the week names [u]; the non-zero ratings that name it. *)
Definition rated (u : string) (vs : list Vote) : Prop :=
  ratings_for u (vs ≫= ballot_ratings) <> [].

Definition votes_above_zero (u : string) (vs : list Vote) : list Z :=
  active_ratings (ratings_for u (vs ≫= ballot_ratings)).

(** A ballot ready for the second loop: it has its extents, its ratings
    carry ["entryUUID"] and ["rating"], and the non-zero ratings lie between
    the extents, within 1..5. *)
Definition normalizable (v : Vote) : Prop :=
  exists (rs : list Rating) (mn mx : Z),
    ratings v = Some rs /\ minimum v = Some mn /\ maximum v = Some mx
    /\ Forall (fun r => is_Some (entryUUID r)
                 /\ exists x, rating r = Some x
                    /\ (x <> 0 -> 1 <= mn /\ mn <= x /\ x <= mx /\ mx <= 5))
         rs.

(** What the third loop stores under ["voteScore"] of an entry whose uuid
    is [u]. *)
Definition score_written (scores : Scores) (u : string) (m : float) : Prop :=
  match scores !! u with
  | Some l => forall St (s : St), mean l s = (Ok m, s)
  | None => m = zero
  end.

(** An entry whose scores, if it has any, are non-empty and finite. *)
Definition scorable (scores : Scores) (e : Entry) : Prop :=
  forall u l, uuid e = Some u -> scores !! u = Some l ->
    l <> [] /\ Forall (fun x => is_finite x = true) l.

(** A valid entry that is named by ratings, all of them 0. *)
Definition only_abstained (vs : list Vote) (e : Entry) : Prop :=
  valid e
  /\ match uuid e with
     | Some u => rated u vs /\ votes_above_zero u vs = []
     | None => False
     end.

Global Instance only_abstained_dec (vs : list Vote) (e : Entry)
  : Decision (only_abstained vs e).
Proof. unfold only_abstained, rated. destruct (uuid e); apply _. Defined.

(** * Properties *)

(** ** The ranking entry point *)

(** C2: whatever the globals and the files hold, [get_ranked_entrant_list]
    raises [TypeError]: it hands the bool [which_week] to [verify_votes],
    whose first step is a membership test on it.  The state left behind is
    the one [get_week] produced (the two globals loaded): the log is as it
    was, the week fetched again is the week that was fetched, so no score
    was computed and no entry or ballot was touched; when both globals were
    already loaded nothing changed at all. *)
Theorem get_ranked_entrant_list_raises_TypeError
    (which_week : bool) (σ : World) :
  get_ranked_entrant_list which_week σ
    = (Raise TypeError, snd (get_week which_week σ))
  /\ log (snd (get_week which_week σ)) = log σ
  /\ fst (get_week which_week (snd (get_week which_week σ)))
     = fst (get_week which_week σ)
  /\ (is_Some (current_week σ) -> is_Some (next_week σ) ->
      snd (get_week which_week σ) = σ).
Proof.
  split; [|split; [|split]].
  - unfold get_ranked_entrant_list.
    destruct (get_week which_week σ) as [week σ1] eqn:Hw. simpl.
    destruct σ1; reflexivity.
  - reflexivity.
  - unfold get_week; simpl.
    destruct which_week; reflexivity.
  - intros [cw Hcw] [nw Hnw]. destruct σ as [c n cp np lg].
    simpl in *. subst. reflexivity.
Qed.

(** C1 (the code at a week with one valid entry and one ballot): the call
    raises [TypeError] and returns no list. *)
Theorem get_ranked_entrant_list_one_entry :
  get_ranked_entrant_list false
    (loaded (week_of [complete_entry "e1"] [ballot 7 [rt "e1" "melody" 5]]))
  = (Raise TypeError,
     loaded (week_of [complete_entry "e1"] [ballot 7 [rt "e1" "melody" 5]])).
Proof. reflexivity. Qed.

(** ** Entry validity *)

Lemma entry_valid_decides {St} (e : Entry) (s : St) :
  entry_valid e s = (Ok (bool_decide (valid e)), s).
Proof.
  destruct e as [u p pf m mf mn en et d vs vp].
  destruct u, p as [[?|]|], pf, m as [[?|]|], mf, mn, en, et; reflexivity.
Qed.

Lemma count_valid_loop_counts {St} (es : list Entry) (count : Z) (s : St) :
  count_valid_loop es count s
    = (Ok (count + Z.of_nat (length (filter valid es))), s).
Proof.
  revert count. induction es as [|e es IH]; intros count.
  - rewrite filter_nil. simpl. unfold ret. f_equal. f_equal. lia.
  - simpl. unfold mbind, M_bind, bind. rewrite entry_valid_decides.
    rewrite IH. rewrite filter_cons.
    destruct (decide (valid e)) as [Hv|Hv].
    + rewrite bool_decide_eq_true_2 by done. simpl length.
      f_equal. f_equal. lia.
    + rewrite bool_decide_eq_false_2 by done. reflexivity.
Qed.

(** C7 (counterexample): an entry that carries all eight keys and whose two
    payloads are empty byte strings is valid for the code, although its
    blobs are empty. *)
Lemma entry_valid_accepts_empty_blobs :
  entry_valid empty_files_entry tt = (Ok true, tt)
  /\ ~ spec_valid empty_files_entry.
Proof.
  split; [reflexivity|].
  intros (_ & _ & _ & _ & _ & _ & _ & _ & (b & Hb & Hne) & _).
  simpl in Hb. injection Hb as <-. contradiction.
Qed.

(** C7 (amended): [entry_valid] never raises and returns [True] exactly when
    the eight required keys are present and neither the document nor the
    audio payload is [None]; [count_valid_entries] returns the number of
    entries of the requested week that satisfy this condition (and raises
    [KeyError] when the week has no ["entries"] key). *)
Theorem entry_valid_iff_valid :
  (forall (St : Type) (s : St) (e : Entry), exists b : bool,
      entry_valid e s = (Ok b, s) /\ (b = true <-> valid e))
  /\ (forall (which_week : bool) (σ : World),
        count_valid_entries which_week σ
        = (match entries (fst (get_week which_week σ)) with
           | Some es => Ok (Z.of_nat (length (filter valid es)))
           | None => Raise KeyError
           end, snd (get_week which_week σ))).
Proof.
  split.
  - intros St s e. exists (bool_decide (valid e)). split.
    + apply entry_valid_decides.
    + apply bool_decide_eq_true.
  - intros which_week σ. unfold count_valid_entries.
    destruct (get_week which_week σ) as [week σ1]. simpl.
    unfold mbind, M_bind, bind.
    destruct (entries week) as [es|]; simpl; [|reflexivity].
    rewrite count_valid_loop_counts. reflexivity.
Qed.

(** ** The sanitizer on concrete ballots *)

(** C4 (the code at two ballots): removing a rejected rating makes the
    iteration skip its right neighbour.  In the first week the rating 7
    survives although it is above 5; in the second the ratings 3 and 4 both
    survive although they share voter, entry and parameter. *)
Theorem verify_votes_skips_neighbour :
  verify_votes (PyWeek out_of_range_week, [])
    = (Ok tt,
       (PyWeek (week_of [] [ballot 7 [rt "e1" "harmony" 7]]),
        [fraud; sus (rt "e1" "melody" 6)]))
  /\ verify_votes (PyWeek repeated_week, [])
    = (Ok tt,
       (PyWeek (week_of []
                  [ballot 7 [rt "e1" "melody" 3; rt "e1" "melody" 4]]),
        [fraud; sus (rt "e1" "melody" 6)])).
Proof. split; vm_compute; reflexivity. Qed.

(** C5 (the code at a ballot): a second run right after the first removes
    the rating that the first run skipped and logs two more records. *)
Theorem verify_votes_second_run_removes :
  verify_votes (PyWeek out_of_range_week, [])
    = (Ok tt,
       (PyWeek (week_of [] [ballot 7 [rt "e1" "harmony" 7]]),
        [fraud; sus (rt "e1" "melody" 6)]))
  /\ verify_votes
       (PyWeek (week_of [] [ballot 7 [rt "e1" "harmony" 7]]),
        [fraud; sus (rt "e1" "melody" 6)])
    = (Ok tt,
       (PyWeek (week_of [] [ballot 7 []]),
        [fraud; sus (rt "e1" "melody" 6); fraud; sus (rt "e1" "harmony" 7)])).
Proof. split; vm_compute; reflexivity. Qed.

(** ** Scores on a concrete week *)

(** C8 (the code at a week whose valid entry was only abstained on): the
    ranking raises [TypeError] before any score is written, and the code
    after the sanitizer call, run on the week itself, raises
    [StatisticsError] at [statistics.mean([])]; no [voteScore] is stored. *)
Theorem voteScore_not_written_for_abstained_entry :
  get_ranked_entrant_list false (loaded abstained_week)
    = (Raise TypeError, loaded abstained_week)
  /\ fst (score_and_rank abstained_week) = Raise StatisticsError
  /\ (es ← entries (snd (score_and_rank abstained_week));
      e ← (es : list Entry) !! 0%nat;
      voteScore e) = None.
Proof. repeat split; vm_compute; reflexivity. Qed.

(** ** The sanitizer never raises on well-formed ballots *)

Lemma list_remove_elem {A} `{EqDecision A} (x : A) (l : list A) :
  x ∈ l ->
  exists l', list_remove x l = Some l'
             /\ length l = S (length l') /\ sublist l' l.
Proof.
  induction l as [|y l IH]; intros Hin.
  - inversion Hin.
  - simpl. destruct (decide (y = x)) as [->|Hne].
    + exists l. split; [done|]. split; [done|]. by apply sublist_cons.
    + apply elem_of_cons in Hin as [->|Hin]; [done|].
      destruct (IH Hin) as (l' & -> & Hlen & Hsub).
      exists (y :: l'). split; [done|]. split; [simpl; lia|].
      by apply sublist_skip.
Qed.

Lemma Forall_of_sublist {A} (P : A -> Prop) (l1 l2 : list A) :
  sublist l1 l2 -> Forall P l2 -> Forall P l1.
Proof.
  intros Hsub Hall. apply Forall_forall. intros x Hx.
  eapply Forall_forall in Hall; [exact Hall|].
  eapply elem_of_sublist; eauto.
Qed.

Lemma rejection_records_cons (r : Rating) (removed : list Rating) :
  rejection_records (r :: removed)
  = [fraud; sus r] ++ rejection_records removed.
Proof. reflexivity. Qed.

Lemma rejection_records_app (xs ys : list Rating) :
  rejection_records (xs ++ ys) = rejection_records xs ++ rejection_records ys.
Proof. unfold rejection_records. apply bind_app. Qed.

(** One pass through the inner body either records the triple and leaves
    the list alone, or logs twice and removes one element. *)
Lemma check_rating_outcome (uid : Z) (r : Rating) (l : list Rating)
    (uv : UserVotes) (lg : list log_record) :
  rating_has_keys r -> r ∈ l ->
  (exists uv', check_rating (Some uid) r (l, (uv, lg)) = (Ok tt, (l, (uv', lg))))
  \/ (exists l', list_remove r l = Some l'
        /\ check_rating (Some uid) r (l, (uv, lg))
           = (Ok tt, (l', (uv, lg ++ [fraud; sus r])))).
Proof.
  intros (Heu & Hvp & Hrt) Hin.
  destruct r as [eu vp x]. simpl in *.
  destruct Heu as [eu' ->], Hvp as [vp' ->], Hrt as [x' ->].
  destruct (list_remove_elem (mkRating (Some eu') (Some vp') (Some x')) l Hin)
    as (l' & Hrem & _ & _).
  unfold check_rating, mbind, M_bind, bind, getitem, ret, get; simpl.
  destruct (bool_decide (is_Some (uv !! (uid, eu', vp')))); simpl.
  - right. exists l'. split; [done|].
    unfold raise, put. rewrite Hrem. rewrite <- app_assoc. reflexivity.
  - destruct (x' <=? 5); simpl.
    + destruct (x' >=? 0); simpl.
      * left. destruct (x' =? 0); simpl; eauto.
      * right. exists l'. split; [done|].
        unfold raise, put. rewrite Hrem. rewrite <- app_assoc. reflexivity.
    + right. exists l'. split; [done|].
      unfold raise, put. rewrite Hrem. rewrite <- app_assoc. reflexivity.
Qed.

Lemma ratings_loop_outcome (uid : Z) (fuel : nat) :
  forall (i : nat) (l : list Rating) (uv : UserVotes) (lg : list log_record),
    Forall rating_has_keys l ->
    (length l - i <= fuel)%nat ->
    exists l' uv' removed,
      for_in_mutable fst (check_rating (Some uid)) fuel i (l, (uv, lg))
      = (Ok tt, (l', (uv', lg ++ rejection_records removed)))
      /\ sublist l' l
      /\ length l = (length l' + length removed)%nat.
Proof.
  induction fuel as [|fuel IH]; intros i l uv lg Hkeys Hfuel.
  - simpl. destruct (l !! i) as [r|] eqn:Hi.
    + apply lookup_lt_Some in Hi. lia.
    + exists l, uv, []. rewrite app_nil_r. split; [done|]. split; [done|].
      simpl. lia.
  - simpl. destruct (l !! i) as [r|] eqn:Hi.
    + assert (Hin : r ∈ l) by (eapply list_elem_of_lookup_2; eauto).
      assert (Hr : rating_has_keys r)
        by (eapply Forall_forall in Hkeys; eauto).
      pose proof (lookup_lt_Some _ _ _ Hi) as Hlt.
      unfold mbind, M_bind, bind.
      destruct (check_rating_outcome uid r l uv lg Hr Hin)
        as [[uv' ->]|(l1 & Hrem & ->)].
      * destruct (IH (S i) l uv' lg Hkeys) as (l' & uv'' & removed & -> & ? & ?);
          [lia|].
        exists l', uv'', removed. done.
      * destruct (list_remove_elem r l Hin) as (l1' & Hrem' & Hlen & Hsub).
        rewrite Hrem in Hrem'. injection Hrem' as <-.
        assert (Hkeys1 : Forall rating_has_keys l1)
          by (eapply Forall_of_sublist; eauto).
        destruct (IH (S i) l1 uv (lg ++ [fraud; sus r]) Hkeys1)
          as (l' & uv'' & removed & -> & Hsub' & Hlen'); [lia|].
        exists l', uv'', (r :: removed).
        rewrite rejection_records_cons, app_assoc.
        split; [done|]. split; [by etrans|]. simpl. lia.
    + exists l, uv, []. rewrite app_nil_r. split; [done|]. split; [done|].
      simpl. lia.
Qed.

Lemma verify_vote_outcome (v : Vote) (uv : UserVotes) (lg : list log_record) :
  vote_has_keys v ->
  exists v' uv' removed,
    verify_vote (v, (uv, lg))
    = (Ok tt, (v', (uv', lg ++ rejection_records removed)))
    /\ userID v' = userID v
    /\ sublist (ballot_ratings v') (ballot_ratings v)
    /\ length (ballot_ratings v)
       = (length (ballot_ratings v') + length removed)%nat.
Proof.
  intros ([uid Huid] & rs & Hrs & Hkeys).
  unfold verify_vote. simpl. rewrite Hrs, Huid.
  destruct (ratings_loop_outcome uid (length rs) 0 rs uv lg Hkeys)
    as (l' & uv' & removed & Hloop & Hsub & Hlen); [lia|].
  simpl in Hloop. rewrite Hloop.
  exists (set_ratings v l'), uv', removed.
  unfold ballot_ratings. rewrite Hrs. simpl. done.
Qed.

Lemma verify_votes_loop_outcome (vs : list Vote) :
  forall (i : nat) (uv : UserVotes) (lg : list log_record),
    Forall vote_has_keys vs ->
    exists vs' uv' removed,
      foreach_mut (fun _ => verify_vote) i vs (uv, lg)
      = (Ok tt, (vs', (uv', lg ++ rejection_records removed)))
      /\ Forall2 (fun v v' => userID v' = userID v
                    /\ sublist (ballot_ratings v') (ballot_ratings v)) vs vs'
      /\ length (vs ≫= ballot_ratings)
         = (length (vs' ≫= ballot_ratings) + length removed)%nat.
Proof.
  induction vs as [|v vs IH]; intros i uv lg Hkeys.
  - exists [], uv, []. simpl. rewrite app_nil_r. repeat split; constructor.
  - apply Forall_cons in Hkeys as [Hv Hvs].
    destruct (verify_vote_outcome v uv lg Hv)
      as (v' & uv1 & rem1 & Hbody & Hid & Hsub & Hlen).
    destruct (IH (S i) uv1 (lg ++ rejection_records rem1) Hvs)
      as (vs' & uv2 & rem2 & Hrest & Hall & Hlen').
    exists (v' :: vs'), uv2, (rem1 ++ rem2).
    split; [|split].
    + simpl. rewrite Hbody, Hrest.
      rewrite rejection_records_app, app_assoc. done.
    + by constructor.
    + rewrite !bind_cons, !length_app. lia.
Qed.

(** C9: on a week whose ballots and ratings carry the keys the sanitizer
    subscripts, [verify_votes] returns normally.  It creates
    [week["votes"]] as an empty list when the key is absent; every ballot
    keeps its voter and a sublist of its ratings; and the log grows by exactly
    the two warning records of each removed rating, one removal per pair. *)
Theorem verify_votes_never_raises (w : Week) (lg : list log_record) :
  week_has_keys w ->
  exists (w' : Week) (removed : list Rating),
    verify_votes (PyWeek w, lg)
    = (Ok tt, (PyWeek w', lg ++ rejection_records removed))
    /\ (votes w = None -> votes w' = Some [])
    /\ is_Some (votes w')
    /\ Forall2 (fun v v' => userID v' = userID v
                  /\ sublist (ballot_ratings v') (ballot_ratings v))
         (week_votes w) (week_votes w')
    /\ length (all_ratings w)
       = (length (all_ratings w') + length removed)%nat.
Proof.
  intros Hkeys.
  unfold verify_votes, verify_votes_dict, for_votes_mut. simpl.
  destruct (votes w) as [vs|] eqn:Hvotes; simpl.
  - rewrite Hvotes.
    destruct (verify_votes_loop_outcome vs 0 ∅ lg (Hkeys vs Hvotes))
      as (vs' & uv' & removed & -> & Hall & Hlen).
    exists (set_votes w vs'), removed.
    unfold all_ratings, week_votes. rewrite Hvotes. simpl.
    repeat split; eauto; done.
  - exists (set_votes w []), []. unfold rejection_records, all_ratings, week_votes.
    rewrite Hvotes. simpl. rewrite app_nil_r.
    repeat split; eauto; constructor.
Qed.

Lemma rt_has_keys (e p : string) (x : Z) : rating_has_keys (rt e p x).
Proof. split; [by eexists|]. split; by eexists. Qed.

Lemma ballot_has_keys (u : Z) (rs : list Rating) :
  Forall rating_has_keys rs -> vote_has_keys (ballot u rs).
Proof. intros Hrs. split; [by eexists|]. by exists rs. Qed.

Lemma verify_votes_never_raises_witness :
  exists (w' : Week) (removed : list Rating),
    verify_votes (PyWeek out_of_range_week, [])
    = (Ok tt, (PyWeek w', [] ++ rejection_records removed))
    /\ (votes out_of_range_week = None -> votes w' = Some [])
    /\ is_Some (votes w')
    /\ Forall2 (fun v v' => userID v' = userID v
                  /\ sublist (ballot_ratings v') (ballot_ratings v))
         (week_votes out_of_range_week) (week_votes w')
    /\ length (all_ratings out_of_range_week)
       = (length (all_ratings w') + length removed)%nat.
Proof.
  apply (verify_votes_never_raises out_of_range_week []).
  intros vs Hvs. injection Hvs as <-.
  apply Forall_cons_2; [|constructor]. apply ballot_has_keys.
  apply Forall_cons_2; [apply rt_has_keys|].
  apply Forall_cons_2; [apply rt_has_keys|constructor].
Defined.

(** ** Rating extents and normalization *)

Lemma foldl_min_le (xs : list Z) : forall a,
  foldl Z.min a xs <= a /\ Forall (fun x => foldl Z.min a xs <= x) xs.
Proof.
  induction xs as [|x xs IH]; intros a; simpl.
  - split; [lia|constructor].
  - destruct (IH (Z.min a x)) as [H1 H2].
    split; [lia|]. constructor; [lia|done].
Qed.

Lemma foldl_max_ge (xs : list Z) : forall a,
  a <= foldl Z.max a xs /\ Forall (fun x => x <= foldl Z.max a xs) xs.
Proof.
  induction xs as [|x xs IH]; intros a; simpl.
  - split; [lia|constructor].
  - destruct (IH (Z.max a x)) as [H1 H2].
    split; [lia|]. constructor; [lia|done].
Qed.

Lemma foldl_min_elem (xs : list Z) : forall a,
  foldl Z.min a xs = a \/ foldl Z.min a xs ∈ xs.
Proof.
  induction xs as [|x xs IH]; intros a; simpl; [by left|].
  destruct (IH (Z.min a x)) as [->|Hin].
  - destruct (Z.min_spec a x) as [[_ ->]|[_ ->]]; [by left|].
    right. apply elem_of_cons. by left.
  - right. apply elem_of_cons. by right.
Qed.

Lemma foldl_max_elem (xs : list Z) : forall a,
  foldl Z.max a xs = a \/ foldl Z.max a xs ∈ xs.
Proof.
  induction xs as [|x xs IH]; intros a; simpl; [by left|].
  destruct (IH (Z.max a x)) as [->|Hin].
  - destruct (Z.max_spec a x) as [[_ ->]|[_ ->]]; [|by left].
    right. apply elem_of_cons. by left.
  - right. apply elem_of_cons. by right.
Qed.

Lemma mbind_Ok {St A B} (c : M St A) (k : A -> M St B) (s s' : St) (a : A) :
  c s = (Ok a, s') -> (c ≫= k) s = k a s'.
Proof. intros H. unfold mbind, M_bind, bind. rewrite H. reflexivity. Qed.

Lemma scan_rating_step (r : Rating) (v : Vote) (x mn mx : Z) :
  rating r = Some x -> minimum v = Some mn -> maximum v = Some mx ->
  scan_rating r v
  = (Ok tt, if decide (x = 0) then v
            else mkVote (userID v) (ratings v)
                   (Some (Z.min mn x)) (Some (Z.max mx x))).
Proof.
  intros Hx Hmn Hmx. destruct v as [u rs mn' mx']. simpl in *. subst.
  unfold scan_rating, mbind, M_bind, bind, getitem, ret, get, modify.
  rewrite Hx. simpl.
  destruct (Z.eqb_spec x 0) as [->|Hx0].
  - rewrite decide_True by done. reflexivity.
  - rewrite decide_False by done. simpl. rewrite Z.gtb_ltb.
    destruct (Z.ltb_spec mx x) as [Hgt|Hle]; simpl;
      destruct (Z.ltb_spec x mn) as [Hlt|Hge]; simpl;
      unfold set_minimum, set_maximum; simpl; repeat f_equal; lia.
Qed.

(** The inner loop of the extent scan folds [min] and [max] over the
    non-zero ratings. *)
Lemma scan_ratings_folds (rs : list Rating) :
  forall (v : Vote) (mn mx : Z),
    Forall (fun r => is_Some (rating r)) rs ->
    minimum v = Some mn -> maximum v = Some mx ->
    foreach rs scan_rating v
    = (Ok tt, mkVote (userID v) (ratings v)
                (Some (foldl Z.min mn (active_ratings rs)))
                (Some (foldl Z.max mx (active_ratings rs)))).
Proof.
  induction rs as [|r rs IH]; intros v mn mx Hkeys Hmn Hmx.
  - destruct v; simpl in *. subst. reflexivity.
  - apply Forall_cons in Hkeys as [[x Hx] Hkeys].
    unfold active_ratings. simpl omap. rewrite Hx. simpl omap.
    rewrite filter_cons. simpl foreach.
    erewrite mbind_Ok by (eapply scan_rating_step; eauto).
    destruct (decide (x = 0)) as [->|Hx0].
    + rewrite decide_False by (intros H; by apply H).
      apply (IH v mn mx); done.
    + rewrite decide_True by done. simpl foldl.
      erewrite IH; [|done|reflexivity|reflexivity]. reflexivity.
Qed.

Lemma rating_extents_folds (v : Vote) (rs : list Rating) :
  ratings v = Some rs ->
  Forall (fun r => is_Some (rating r)) rs ->
  rating_extents v
  = (Ok tt, mkVote (userID v) (Some rs)
              (Some (foldl Z.min 5 (active_ratings rs)))
              (Some (foldl Z.max 1 (active_ratings rs)))).
Proof.
  intros Hrs Hkeys. unfold rating_extents.
  unfold mbind, M_bind, bind, modify, get, getitem, ret. simpl.
  rewrite Hrs.
  erewrite scan_ratings_folds; [|done|reflexivity|reflexivity].
  simpl. rewrite Hrs. reflexivity.
Qed.
Lemma small_cases (x : Z) :
  1 <= x <= 5 -> x = 1 \/ x = 2 \/ x = 3 \/ x = 4 \/ x = 5.
Proof. lia. Qed.

(** The formula on every band a ballot with ratings in 1..5 can use. *)
Lemma formula_binary64_facts (x mn mx : Z) :
  1 <= mn -> mn <= x -> x <= mx -> mx <= 5 ->
  float_le zero (formula_binary64 x mn mx) = true
  /\ float_le (formula_binary64 x mn mx) five = true
  /\ (x = mx -> formula_binary64 x mn mx = five)
  /\ (x = mn ->
      formula_binary64 x mn mx
      = float_mul (SFdiv prec emax (Z2F 1) (Z2F (mx - mn + 1))) five)
  /\ (x = mn -> mx - mn + 1 <> 3 ->
      formula_binary64 x mn mx = int_truediv 5 (mx - mn + 1))
  /\ (x = mn -> mx - mn + 1 = 3 ->
      formula_binary64 x mn mx = S754_finite false 7505999378950826 (-52)
      /\ int_truediv 5 (mx - mn + 1)
         = S754_finite false 7505999378950827 (-52)).
Proof.
  intros H1 H2 H3 H4.
  destruct (small_cases mn) as [->|[->|[->|[->| ->]]]]; [lia|..];
    destruct (small_cases mx) as [->|[->|[->|[->| ->]]]]; try lia;
    destruct (small_cases x) as [->|[->|[->|[->| ->]]]]; try lia;
    (repeat split; intros; try lia; vm_compute; reflexivity).
Qed.

Lemma normalize_formula {St} (v : Vote) (r : Rating) (x mn mx : Z) (s : St) :
  rating r = Some x -> minimum v = Some mn -> maximum v = Some mx ->
  1 <= mn -> mn <= x -> x <= mx -> mx <= 5 ->
  normalize v r s = (Ok (formula_binary64 x mn mx), s).
Proof.
  intros Hx Hmn Hmx H1 H2 H3 H4.
  unfold normalize, mbind, M_bind, bind, getitem. rewrite Hx, Hmn, Hmx.
  destruct (small_cases mn) as [->|[->|[->|[->| ->]]]]; [lia|..];
    destruct (small_cases mx) as [->|[->|[->|[->| ->]]]]; try lia;
    destruct (small_cases x) as [->|[->|[->|[->| ->]]]]; try lia;
    reflexivity.
Qed.

(** C6 (counterexample): on a ballot with the ratings 1 and 3 the scan gives
    minimum 1 and maximum 3, and the normalized value of the rating 1 is
    7505999378950826 * 2^-52 (Python prints 1.6666666666666665).  It is
    neither the float [5/3] (one unit in the last place above) nor the
    rational 5/3. *)
Lemma normalized_minimum_differs_from_quotient :
  exists (v' : Vote) (f : float),
    rating_extents narrow_ballot = (Ok tt, v')
    /\ minimum v' = Some 1 /\ maximum v' = Some 3
    /\ normalize v' (rt "e1" "melody" 1) tt = (Ok f, tt)
    /\ f <> int_truediv 5 (3 - 1 + 1)
    /\ float_eq f (int_truediv 5 (3 - 1 + 1)) = false
    /\ exact_ratio f = (7505999378950826, -52)
    /\ 7505999378950826 * 3 <> 5 * 2 ^ 52.
Proof.
  eexists _, _. split; [vm_compute; reflexivity|].
  split; [reflexivity|]. split; [reflexivity|].
  split; [vm_compute; reflexivity|].
  split; [vm_compute; discriminate|].
  split; [vm_compute; reflexivity|].
  split; [reflexivity|]. vm_compute. discriminate.
Qed.

(** C6 (amended): for a ballot whose ratings lie in [0,5] and are not all
    zero, the extent scan stores the lowest and the highest non-zero rating,
    1 <= minimum <= maximum <= 5, the denominator maximum - (minimum - 1) is
    not zero, and every non-zero rating normalizes, without an exception, to
    the binary64 value of ((rating - (minimum - 1)) / (maximum - (minimum -
    1))) * 5.  That value lies in [0,5]; it is 5 for a maximum-rated rating;
    for a minimum-rated rating it is (1 / (maximum - minimum + 1)) * 5, which
    is the float 5 / (maximum - minimum + 1) unless maximum - minimum + 1 = 3,
    where it is one unit in the last place below it. *)
Theorem normalized_scores_of_ballot (v : Vote) (rs : list Rating) :
  ratings v = Some rs ->
  Forall (fun r => exists x, rating r = Some x /\ 0 <= x <= 5) rs ->
  Exists (fun r => rating r <> Some 0) rs ->
  exists (v' : Vote) (mn mx : Z),
    rating_extents v = (Ok tt, v')
    /\ ratings v' = Some rs /\ minimum v' = Some mn /\ maximum v' = Some mx
    /\ mn ∈ active_ratings rs /\ mx ∈ active_ratings rs
    /\ Forall (fun x => mn <= x <= mx) (active_ratings rs)
    /\ 1 <= mn /\ mn <= mx /\ mx <= 5
    /\ mx - (mn - 1) <> 0
    /\ forall (r : Rating) (x : Z),
         r ∈ rs -> rating r = Some x -> x <> 0 ->
         normalize v' r tt = (Ok (formula_binary64 x mn mx), tt)
         /\ float_le zero (formula_binary64 x mn mx) = true
         /\ float_le (formula_binary64 x mn mx) five = true
         /\ (x = mx -> formula_binary64 x mn mx = five)
         /\ (x = mn ->
             formula_binary64 x mn mx
             = float_mul (SFdiv prec emax (Z2F 1) (Z2F (mx - mn + 1))) five)
         /\ (x = mn -> mx - mn + 1 <> 3 ->
             formula_binary64 x mn mx = int_truediv 5 (mx - mn + 1))
         /\ (x = mn -> mx - mn + 1 = 3 ->
             formula_binary64 x mn mx
             = S754_finite false 7505999378950826 (-52)
             /\ int_truediv 5 (mx - mn + 1)
                = S754_finite false 7505999378950827 (-52)).
Proof.
  intros Hrs Hrange Hsome.
  assert (Hkeys : Forall (fun r => is_Some (rating r)) rs).
  { eapply Forall_impl; [exact Hrange|]. intros r (x & -> & _). by eexists. }
  assert (Hact : Forall (fun x => 1 <= x <= 5) (active_ratings rs)).
  { apply Forall_forall. intros x Hx. unfold active_ratings in Hx.
    apply list_elem_of_filter in Hx as [Hx0 Hx].
    apply list_elem_of_omap in Hx as (r & Hr & Hrx).
    eapply Forall_forall in Hrange; [|exact Hr].
    destruct Hrange as (x' & Hx' & ?). rewrite Hx' in Hrx.
    injection Hrx as ->. lia. }
  assert (Hne : exists x0, x0 ∈ active_ratings rs).
  { apply Exists_exists in Hsome as (r & Hr & Hr0).
    eapply Forall_forall in Hrange as Hrr; [|exact Hr].
    destruct Hrr as (x & Hx & _). exists x.
    unfold active_ratings. apply list_elem_of_filter. split.
    - intros ->. by apply Hr0.
    - apply list_elem_of_omap. by exists r. }
  destruct Hne as (x0 & Hx0).
  set (mn := foldl Z.min 5 (active_ratings rs)).
  set (mx := foldl Z.max 1 (active_ratings rs)).
  destruct (foldl_min_le (active_ratings rs) 5) as [Hmn5 Hmnle].
  destruct (foldl_max_ge (active_ratings rs) 1) as [Hmx1 Hmxge].
  fold mn in Hmn5, Hmnle. fold mx in Hmx1, Hmxge.
  assert (Hx0r : 1 <= x0 <= 5) by (eapply Forall_forall in Hact; eauto).
  assert (Hmnx0 : mn <= x0) by (eapply Forall_forall in Hmnle; eauto).
  assert (Hmxx0 : x0 <= mx) by (eapply Forall_forall in Hmxge; eauto).
  assert (Hmn_in : mn ∈ active_ratings rs).
  { destruct (foldl_min_elem (active_ratings rs) 5) as [Heq|Hin]; [|done].
    fold mn in Heq. assert (x0 = mn) as <- by lia. done. }
  assert (Hmx_in : mx ∈ active_ratings rs).
  { destruct (foldl_max_elem (active_ratings rs) 1) as [Heq|Hin]; [|done].
    fold mx in Heq. assert (x0 = mx) as <- by lia. done. }
  assert (Hmnr : 1 <= mn <= 5) by (eapply Forall_forall in Hact; eauto).
  assert (Hmxr : 1 <= mx <= 5) by (eapply Forall_forall in Hact; eauto).
  exists (mkVote (userID v) (Some rs) (Some mn) (Some mx)), mn, mx.
  split; [by apply rating_extents_folds|].
  do 3 (split; [reflexivity|]).
  split; [done|]. split; [done|].
  split.
  { apply Forall_forall. intros x Hx.
    eapply Forall_forall in Hmnle; [|exact Hx].
    eapply Forall_forall in Hmxge; [|exact Hx]. lia. }
  do 3 (split; [lia|]). split; [lia|].
  intros r x Hr Hx Hxne.
  assert (Hx_in : x ∈ active_ratings rs).
  { unfold active_ratings. apply list_elem_of_filter. split; [done|].
    apply list_elem_of_omap. by exists r. }
  assert (mn <= x) by (eapply Forall_forall in Hmnle; eauto).
  assert (x <= mx) by (eapply Forall_forall in Hmxge; eauto).
  split; [apply normalize_formula; simpl; auto; lia|].
  apply formula_binary64_facts; lia.
Qed.

Lemma normalized_scores_of_ballot_witness :
  exists (v' : Vote) (mn mx : Z),
    rating_extents narrow_ballot = (Ok tt, v')
    /\ ratings v' = Some [rt "e1" "melody" 1; rt "e2" "melody" 3]
    /\ minimum v' = Some mn /\ maximum v' = Some mx.
Proof.
  destruct (normalized_scores_of_ballot narrow_ballot
              [rt "e1" "melody" 1; rt "e2" "melody" 3])
    as (v' & mn & mx & H1 & H2 & H3 & H4 & _).
  - reflexivity.
  - repeat (apply Forall_cons_2); [| |apply Forall_nil];
      eexists; (split; [reflexivity|lia]).
  - apply Exists_cons_hd. discriminate.
  - exists v', mn, mx. auto.
Defined.

(** ** Sorting by score *)

Lemma float_lt_rank (a b : float) :
  a <> S754_nan -> b <> S754_nan ->
  (float_lt a b = true <-> rank_lt (float_rank a) (float_rank b)).
Proof.
  intros Ha Hb. unfold float_lt, SFltb, rank_lt.
  destruct a as [sa|sa| |sa ma ea], b as [sb|sb| |sb mb eb];
    try contradiction; try destruct sa; try destruct sb; simpl;
    try (split; intros; try discriminate; try reflexivity; lia).
  all: change (Pos.compare_cont Eq ?m1 ?m2) with (Pos.compare m1 m2).
  all: destruct (Z.compare_spec ea eb); destruct (Pos.compare_spec ma mb);
    simpl; split; intros; try discriminate; try reflexivity; lia.
Qed.

Lemma float_not_after_rank (a b : float) :
  a <> S754_nan -> b <> S754_nan ->
  (float_not_after a b <-> ~ rank_lt (float_rank b) (float_rank a)).
Proof.
  intros Ha Hb. unfold float_not_after.
  rewrite <- (float_lt_rank b a) by done.
  destruct (float_lt b a).
  - split; [discriminate|]. intros H. exfalso. by apply H.
  - split; [intros _; discriminate|reflexivity].
Qed.

Lemma float_not_after_trans (a b c : float) :
  a <> S754_nan -> b <> S754_nan -> c <> S754_nan ->
  float_not_after a b -> float_not_after b c -> float_not_after a c.
Proof.
  intros Ha Hb Hc.
  rewrite !float_not_after_rank by done. unfold rank_lt.
  destruct (float_rank a) as [[a1 a2] a3], (float_rank b) as [[b1 b2] b3],
    (float_rank c) as [[c1 c2] c3]. simpl. lia.
Qed.

Lemma float_lt_not_after (a b : float) :
  a <> S754_nan -> b <> S754_nan ->
  float_lt a b = true -> float_not_after a b.
Proof.
  intros Ha Hb. rewrite float_lt_rank, float_not_after_rank by done.
  unfold rank_lt.
  destruct (float_rank a) as [[a1 a2] a3], (float_rank b) as [[b1 b2] b3].
  simpl. lia.
Qed.
Lemma insert_by_key_perm {A} (k : float) (x : A) (l : list (float * A)) :
  insert_by_key k x l ≡ₚ (k, x) :: l.
Proof.
  induction l as [|[k' y] l IH]; simpl; [done|].
  destruct (float_lt k' k); [|done].
  rewrite IH. apply Permutation_swap.
Qed.

Lemma sort_by_key_perm {A} (l : list (float * A)) : sort_by_key l ≡ₚ l.
Proof.
  induction l as [|[k x] l IH]; simpl; [done|].
  rewrite insert_by_key_perm. by rewrite IH.
Qed.

Lemma insert_by_key_sorted {A} (k : float) (x : A) (l : list (float * A)) :
  k <> S754_nan -> Forall (fun p => p.1 <> S754_nan) l ->
  key_sorted l -> key_sorted (insert_by_key k x l).
Proof.
  intros Hk. induction l as [|[k' y] l IH]; intros Hnan Hsorted; simpl.
  - repeat constructor.
  - apply Forall_cons in Hnan as [Hk' Hnan]. simpl in Hk'.
    apply StronglySorted_inv in Hsorted as [Hsorted Hall].
    destruct (float_lt k' k) eqn:Hlt.
    + apply SSorted_cons; [by apply IH|].
      rewrite insert_by_key_perm. constructor; [|done]. simpl.
      by apply float_lt_not_after.
    + apply SSorted_cons; [by apply SSorted_cons|].
      constructor; [exact Hlt|].
      apply Forall_forall. intros p Hp.
      eapply Forall_forall in Hall as Hkp; [|exact Hp].
      eapply Forall_forall in Hnan as Hpn; [|exact Hp].
      simpl in *. eapply (float_not_after_trans k k' p.1); done.
Qed.

Lemma sort_by_key_sorted {A} (l : list (float * A)) :
  Forall (fun p => p.1 <> S754_nan) l -> key_sorted (sort_by_key l).
Proof.
  induction l as [|[k x] l IH]; intros Hnan; simpl; [constructor|].
  apply Forall_cons in Hnan as [Hk Hnan].
  apply insert_by_key_sorted; [done| |by apply IH].
  by rewrite sort_by_key_perm.
Qed.

Lemma with_keys_scores {St} (pool : list EntryRef) (s : St) :
  Forall pooled pool ->
  with_keys pool s = (Ok ((fun e => (score_of e, e)) <$> pool), s).
Proof.
  induction pool as [|e pool IH]; intros Hall; [reflexivity|].
  apply Forall_cons in Hall as [(_ & k & Hk & _) Hall].
  simpl. unfold mbind, M_bind, bind, getitem. rewrite Hk. simpl.
  rewrite IH by done. unfold score_of. rewrite Hk. reflexivity.
Qed.

Lemma sorted_by_voteScore_pool {St} (pool : list EntryRef) (s : St) :
  Forall pooled pool ->
  sorted_by_voteScore pool s = (Ok (sorted_pool pool), s).
Proof.
  intros Hall. unfold sorted_by_voteScore.
  erewrite mbind_Ok by (by apply with_keys_scores). reflexivity.
Qed.

Lemma sorted_pool_perm (pool : list EntryRef) : sorted_pool pool ≡ₚ pool.
Proof.
  unfold sorted_pool. rewrite sort_by_key_perm.
  rewrite <- list_fmap_compose. simpl.
  induction pool as [|e pool IH]; simpl; [done|]. by rewrite IH.
Qed.

Lemma key_sorted_ascending (l : list (float * EntryRef)) :
  Forall (fun p => p.1 = score_of p.2) l ->
  key_sorted l -> ascending (snd <$> l).
Proof.
  induction l as [|[k e] l IH]; intros Hkeys Hsorted; simpl; [constructor|].
  apply Forall_cons in Hkeys as [Hk Hkeys]. simpl in Hk. subst k.
  apply StronglySorted_inv in Hsorted as [Hsorted Hall].
  apply SSorted_cons; [by apply IH|].
  apply Forall_fmap. apply Forall_forall. intros [k' e'] Hp. simpl.
  eapply Forall_forall in Hall as Hr; [|exact Hp].
  eapply Forall_forall in Hkeys as Hk'; [|exact Hp].
  simpl in *. by subst k'.
Qed.

Lemma sorted_pool_ascending (pool : list EntryRef) :
  Forall pooled pool -> ascending (sorted_pool pool).
Proof.
  intros Hall. unfold sorted_pool. apply key_sorted_ascending.
  - rewrite sort_by_key_perm. apply Forall_fmap.
    apply Forall_forall. by intros e _.
  - apply sort_by_key_sorted. apply Forall_fmap.
    eapply Forall_impl; [exact Hall|].
    intros e (_ & k & Hk & Hnan). unfold score_of. simpl. by rewrite Hk.
Qed.

(** ** Head-to-head counts *)

Lemma raw_sum_cons (u : string) (r : Rating) (rs : list Rating) (eu : string)
    (x : Z) :
  entryUUID r = Some eu -> rating r = Some x ->
  raw_sum u (r :: rs) = (if decide (eu = u) then x else 0) + raw_sum u rs.
Proof.
  intros Heu Hx. unfold raw_sum. rewrite filter_cons. rewrite Heu.
  destruct (decide (eu = u)) as [->|Hne].
  - rewrite decide_True by done. simpl. rewrite Hx. reflexivity.
  - rewrite decide_False by congruence. reflexivity.
Qed.

Lemma tally_ratings_outcome (entryA entryB : Entry) (ua ub : string)
    (rs : list Rating) :
  uuid entryA = Some ua -> uuid entryB = Some ub ->
  Forall rating_has_keys rs ->
  forall acc : Z * Z,
    exists acc' : Z * Z,
      foreach rs (tally_rating entryA entryB) acc = (Ok tt, acc')
      /\ (ua <> ub ->
          acc' = (acc.1 + raw_sum ua rs, acc.2 + raw_sum ub rs)).
Proof.
  intros Ha Hb. induction rs as [|r rs IH]; intros Hkeys acc.
  - exists acc. split; [reflexivity|]. intros _. unfold raw_sum. simpl.
    destruct acc. simpl. f_equal; lia.
  - apply Forall_cons in Hkeys as [([eu Heu] & _ & [x Hx]) Hkeys].
    simpl foreach.
    assert (Hstep : tally_rating entryA entryB r acc
                    = (Ok tt, if String.eqb eu ua then (acc.1 + x, acc.2)
                              else if String.eqb eu ub then (acc.1, acc.2 + x)
                              else acc)).
    { unfold tally_rating, mbind, M_bind, bind, getitem, modify, ret.
      rewrite Heu, Ha, Hb, Hx. simpl.
      destruct (String.eqb eu ua); [reflexivity|].
      destruct (String.eqb eu ub); reflexivity. }
    erewrite mbind_Ok by exact Hstep.
    destruct (IH Hkeys (if String.eqb eu ua then (acc.1 + x, acc.2)
                        else if String.eqb eu ub then (acc.1, acc.2 + x)
                        else acc)) as (acc' & Hrest & Hsum).
    exists acc'. split; [exact Hrest|]. intros Hne.
    rewrite (Hsum Hne).
    rewrite (raw_sum_cons ua r rs eu x), (raw_sum_cons ub r rs eu x) by done.
    destruct (String.eqb_spec eu ua) as [->|Hna].
    + rewrite decide_True by done. rewrite decide_False by done.
      simpl. f_equal; lia.
    + rewrite (decide_False (P := eu = ua)) by done.
      destruct (String.eqb_spec eu ub) as [->|Hnb].
      * rewrite decide_True by done. simpl. f_equal; lia.
      * rewrite decide_False by done. destruct acc. simpl. f_equal; lia.
Qed.

Lemma tally_vote_outcome (entryA entryB : Entry) (ua ub : string) (v : Vote) :
  uuid entryA = Some ua -> uuid entryB = Some ub ->
  vote_has_keys v ->
  forall p : Z * Z,
    exists p' : Z * Z,
      tally_vote entryA entryB v p = (Ok tt, p')
      /\ (ua <> ub ->
          p' = (p.1 + (if decide (raw_sum ub (ballot_ratings v)
                                  < raw_sum ua (ballot_ratings v))
                       then 1 else 0),
                p.2 + (if decide (raw_sum ua (ballot_ratings v)
                                  < raw_sum ub (ballot_ratings v))
                       then 1 else 0))).
Proof.
  intros Ha Hb (_ & rs & Hrs & Hkeys) p.
  destruct (tally_ratings_outcome entryA entryB ua ub rs Ha Hb Hkeys (0, 0))
    as ([sa sb] & Hloop & Hsum).
  unfold tally_vote, mbind, M_bind, bind, getitem, with_local, on_snd.
  rewrite Hrs. simpl. rewrite Hloop. simpl.
  exists (if sa >? sb then (p.1 + 1, p.2)
          else if sb >? sa then (p.1, p.2 + 1) else p).
  split.
  { destruct (sa >? sb); [reflexivity|]. destruct (sb >? sa); reflexivity. }
  intros Hne. specialize (Hsum Hne). simpl in Hsum. injection Hsum as -> ->.
  unfold ballot_ratings. rewrite Hrs. simpl.
  rewrite !Z.gtb_ltb, !Z.add_0_l.
  destruct (Z.ltb_spec (raw_sum ub rs) (raw_sum ua rs)) as [H1|H1].
  - rewrite decide_True by done. rewrite decide_False by lia.
    f_equal; lia.
  - rewrite (decide_False (P := raw_sum ub rs < raw_sum ua rs)) by lia.
    destruct (Z.ltb_spec (raw_sum ua rs) (raw_sum ub rs)) as [H2|H2].
    + rewrite decide_True by done. f_equal; lia.
    + rewrite decide_False by lia. destruct p. simpl. f_equal; lia.
Qed.

Lemma tally_votes_outcome (entryA entryB : Entry) (ua ub : string)
    (vs : list Vote) :
  uuid entryA = Some ua -> uuid entryB = Some ub ->
  Forall vote_has_keys vs ->
  forall p : Z * Z,
    exists p' : Z * Z,
      foreach vs (tally_vote entryA entryB) p = (Ok tt, p')
      /\ (ua <> ub ->
          p' = (p.1 + ballots_preferring ua ub vs,
                p.2 + ballots_preferring ub ua vs)).
Proof.
  intros Ha Hb. induction vs as [|v vs IH]; intros Hkeys p.
  - exists p. split; [reflexivity|]. intros _. unfold ballots_preferring.
    simpl. destruct p. simpl. f_equal; lia.
  - apply Forall_cons in Hkeys as [Hv Hkeys].
    destruct (tally_vote_outcome entryA entryB ua ub v Ha Hb Hv p)
      as (p1 & Hstep & Hp1).
    destruct (IH Hkeys p1) as (p' & Hrest & Hp').
    exists p'. simpl foreach. erewrite mbind_Ok by exact Hstep.
    split; [exact Hrest|]. intros Hne.
    rewrite (Hp' Hne), (Hp1 Hne). unfold ballots_preferring.
    rewrite !filter_cons. simpl.
    destruct (decide (raw_sum ub (ballot_ratings v)
                      < raw_sum ua (ballot_ratings v)));
      destruct (decide (raw_sum ua (ballot_ratings v)
                        < raw_sum ub (ballot_ratings v)));
      simpl length; f_equal; lia.
Qed.

Lemma head_to_head_outcome (week : Week) (entryA entryB : Entry)
    (ua ub : string) (vs : list Vote) :
  uuid entryA = Some ua -> uuid entryB = Some ub ->
  votes week = Some vs -> Forall vote_has_keys vs ->
  exists preferA preferB : Z,
    (forall St (s : St),
        head_to_head week entryA entryB s = (Ok (preferA, preferB), s))
    /\ (ua <> ub ->
        preferA = ballots_preferring ua ub vs
        /\ preferB = ballots_preferring ub ua vs).
Proof.
  intros Ha Hb Hvs Hkeys.
  destruct (tally_votes_outcome entryA entryB ua ub vs Ha Hb Hkeys (0, 0))
    as ([pa pb] & Hloop & Hp).
  exists pa, pb. split.
  - intros St s.
    unfold head_to_head, mbind, M_bind, bind, getitem, with_local, on_snd.
    rewrite Hvs. simpl. rewrite Hloop. reflexivity.
  - intros Hne. specialize (Hp Hne). simpl in Hp. by injection Hp as -> ->.
Qed.

(** ** One round of the elimination loop *)

Lemma move_to_ranked_first (a : EntryRef) (pool ranked : list EntryRef) :
  move_to_ranked 0 (a :: pool, ranked) = (Ok tt, (pool, ranked ++ [a])).
Proof. reflexivity. Qed.

Lemma move_to_ranked_second (a b : EntryRef) (pool ranked : list EntryRef) :
  move_to_ranked 1 (a :: b :: pool, ranked)
  = (Ok tt, (a :: pool, ranked ++ [b])).
Proof. reflexivity. Qed.

Lemma elimination_round_outcome (week : Week) (pool ranked : list EntryRef) :
  week_ready week -> Forall pooled pool -> (2 <= length pool)%nat ->
  exists (entryA entryB : EntryRef) (rest : list EntryRef)
         (preferA preferB : Z) (ua ub : string) (vs : list Vote),
    sorted_pool pool = entryA :: entryB :: rest
    /\ uuid (snd entryA) = Some ua /\ uuid (snd entryB) = Some ub
    /\ votes week = Some vs
    /\ head_to_head week (snd entryA) (snd entryB) tt
       = (Ok (preferA, preferB), tt)
    /\ (ua <> ub ->
        preferA = ballots_preferring ua ub vs
        /\ preferB = ballots_preferring ub ua vs)
    /\ elimination_round week (pool, ranked)
       = (Ok tt, if preferA >=? preferB
                 then (entryB :: rest, ranked ++ [entryA])
                 else (entryA :: rest, ranked ++ [entryB])).
Proof.
  intros (vs & Hvs & Hvkeys) Hpool Hlen.
  pose proof (sorted_pool_perm pool) as Hperm.
  destruct (sorted_pool pool) as [|entryA [|entryB rest]] eqn:Hsorted.
  - apply Permutation_length in Hperm. simpl in Hperm. lia.
  - apply Permutation_length in Hperm. simpl in Hperm. lia.
  - assert (Hall : Forall pooled (entryA :: entryB :: rest))
      by (by rewrite Hperm).
    apply Forall_cons in Hall as [([ua Hua] & _) Hall].
    apply Forall_cons in Hall as [([ub Hub] & _) _].
    destruct (head_to_head_outcome week (snd entryA) (snd entryB) ua ub vs
                Hua Hub Hvs Hvkeys) as (pa & pb & Hh2h & Hcount).
    exists entryA, entryB, rest, pa, pb, ua, ub, vs.
    do 4 (split; [done|]). split; [apply Hh2h|]. split; [exact Hcount|].
    unfold elimination_round.
    erewrite mbind_Ok by reflexivity. simpl fst.
    erewrite mbind_Ok by (by apply sorted_by_voteScore_pool).
    rewrite Hsorted.
    erewrite mbind_Ok by reflexivity.
    erewrite mbind_Ok by reflexivity.
    erewrite mbind_Ok by reflexivity.
    erewrite mbind_Ok by apply Hh2h.
    cbv beta iota. simpl snd. destruct (pa >=? pb) eqn:Hcmp.
    + apply move_to_ranked_first.
    + apply move_to_ranked_second.
Qed.

(** On a head-to-head tie the round moves A, the entry with the lower or
    equal score, to the accumulator (the comment in the source gives as the
    reason for [>=] that entryA is the entry with the higher score). *)
Lemma elimination_round_on_a_tie :
  score_entries unrated_week
    = (Ok [scored 0 "e1" zero; scored 1 "e2" zero],
       snd (score_entries unrated_week))
  /\ head_to_head unrated_week (complete_entry "e1") (complete_entry "e2") tt
     = (Ok (0, 0), tt)
  /\ elimination_round (snd (score_entries unrated_week))
       ([scored 0 "e1" zero; scored 1 "e2" zero], [])
     = (Ok tt, ([scored 1 "e2" zero], [scored 0 "e1" zero])).
Proof. repeat split; vm_compute; reflexivity. Qed.

(** C3 (counterexample): in both weeks "e1" has the lower score, so A is
    "e1" and B is "e2".  In the first week the ballots prefer B 1 : 0 and
    the round moves B to the accumulator, where the claim has A moved; in
    the second they prefer A 1 : 0 and the round moves A, where the claim
    has B moved. *)
Lemma elimination_round_moves_the_preferred :
  (score_entries rated_week
     = (Ok [scored 0 "e1" one; scored 1 "e2" five],
        snd (score_entries rated_week))
   /\ float_lt one five = true
   /\ head_to_head rated_week (complete_entry "e1") (complete_entry "e2") tt
      = (Ok (0, 1), tt)
   /\ elimination_round (snd (score_entries rated_week))
        ([scored 0 "e1" one; scored 1 "e2" five], [])
      = (Ok tt, ([scored 0 "e1" one], [scored 1 "e2" five])))
  /\ (exists k : float,
        score_entries majority_week
        = (Ok [scored 0 "e1" k; scored 1 "e2" (Z2F 3)],
           snd (score_entries majority_week))
        /\ float_lt k (Z2F 3) = true
        /\ head_to_head majority_week (complete_entry "e1")
             (complete_entry "e2") tt
           = (Ok (1, 0), tt)
        /\ elimination_round (snd (score_entries majority_week))
             ([scored 0 "e1" k; scored 1 "e2" (Z2F 3)], [])
           = (Ok tt, ([scored 1 "e2" (Z2F 3)], [scored 0 "e1" k]))).
Proof.
  split; [repeat split; vm_compute; reflexivity|].
  eexists. split; [vm_compute; reflexivity|].
  repeat split; vm_compute; reflexivity.
Qed.

(** C3 (amended): in every iteration of the elimination loop, on a pool of
    at least two scored entries and ballots that carry their keys, let A and
    B be the first two entries of the pool sorted ascending by voteScore (so
    no entry scores below A, and none but A scores below B).  The round
    counts the ballots whose raw rating sum is strictly higher for A, and
    those for which it is strictly higher for B.  If more ballots strictly
    prefer A than B, A is removed from the pool and appended to the
    accumulator; if more strictly prefer B than A, B is removed and
    appended. *)
Theorem elimination_round_removes_the_preferred
    (week : Week) (pool ranked : list EntryRef) :
  week_ready week -> Forall pooled pool -> (2 <= length pool)%nat ->
  exists (entryA entryB : EntryRef) (rest : list EntryRef)
         (preferA preferB : Z) (ua ub : string) (vs : list Vote),
    sorted_pool pool = entryA :: entryB :: rest
    /\ pool ≡ₚ entryA :: entryB :: rest
    /\ Forall (fun e => float_lt (score_of e) (score_of entryA) = false)
         (entryB :: rest)
    /\ Forall (fun e => float_lt (score_of e) (score_of entryB) = false) rest
    /\ uuid (snd entryA) = Some ua /\ uuid (snd entryB) = Some ub
    /\ votes week = Some vs
    /\ head_to_head week (snd entryA) (snd entryB) tt
       = (Ok (preferA, preferB), tt)
    /\ (ua <> ub ->
        preferA = ballots_preferring ua ub vs
        /\ preferB = ballots_preferring ub ua vs)
    /\ (preferB < preferA ->
        elimination_round week (pool, ranked)
        = (Ok tt, (entryB :: rest, ranked ++ [entryA])))
    /\ (preferA < preferB ->
        elimination_round week (pool, ranked)
        = (Ok tt, (entryA :: rest, ranked ++ [entryB]))).
Proof.
  intros Hweek Hpool Hlen.
  destruct (elimination_round_outcome week pool ranked Hweek Hpool Hlen)
    as (entryA & entryB & rest & pa & pb & ua & ub & vs
        & Hsorted & Hua & Hub & Hvs & Hh2h & Hcount & Hround).
  exists entryA, entryB, rest, pa, pb, ua, ub, vs.
  pose proof (sorted_pool_ascending pool Hpool) as Hasc.
  rewrite Hsorted in Hasc.
  apply StronglySorted_inv in Hasc as [Hasc HA].
  apply StronglySorted_inv in Hasc as [_ HB].
  split; [done|]. split; [by rewrite <- Hsorted, sorted_pool_perm|].
  split; [exact HA|]. split; [exact HB|].
  do 5 (split; [done|]).
  split; intros Hcmp; rewrite Hround.
  - destruct (Z.geb_spec pa pb); [reflexivity|lia].
  - destruct (Z.geb_spec pa pb); [lia|reflexivity].
Qed.

Lemma scored_pooled (i : nat) (u : string) (k : float) :
  k <> S754_nan -> pooled (scored i u k).
Proof. intros Hk. split; [by eexists|]. by exists k. Qed.

Lemma rated_week_ready : week_ready rated_week.
Proof.
  eexists. split; [reflexivity|].
  apply Forall_cons_2; [|constructor]. apply ballot_has_keys.
  apply Forall_cons_2; [apply rt_has_keys|].
  apply Forall_cons_2; [apply rt_has_keys|constructor].
Defined.

Lemma elimination_round_removes_the_preferred_witness :
  exists (entryA entryB : EntryRef) (rest : list EntryRef),
    sorted_pool [scored 0 "e1" one; scored 1 "e2" five]
    = entryA :: entryB :: rest
    /\ [scored 0 "e1" one; scored 1 "e2" five] ≡ₚ entryA :: entryB :: rest.
Proof.
  destruct (elimination_round_removes_the_preferred rated_week
              [scored 0 "e1" one; scored 1 "e2" five] [])
    as (entryA & entryB & rest & _ & _ & _ & _ & _ & H1 & H2 & _).
  - apply rated_week_ready.
  - apply Forall_cons_2; [apply scored_pooled; discriminate|].
    apply Forall_cons_2; [apply scored_pooled; discriminate|constructor].
  - simpl. lia.
  - exists entryA, entryB, rest. split; assumption.
Defined.

(** ** Termination of the elimination loop *)

Lemma terminates_bind {St A B} (c : M St A) (k : A -> M St B) :
  terminates c -> (forall a, terminates (k a)) -> terminates (c ≫= k).
Proof.
  intros Hc Hk s. unfold mbind, M_bind, bind.
  specialize (Hc s). destruct (c s) as [[a|e|] s']; simpl in *;
    [apply Hk|discriminate|done].
Qed.

Lemma terminates_ret {St A} (a : A) : terminates (ret a : M St A).
Proof. intros s. discriminate. Qed.

Lemma terminates_mret {St A} (a : A) : terminates (mret a : M St A).
Proof. intros s. discriminate. Qed.

Lemma terminates_raise {St A} (e : exn) : terminates (raise e : M St A).
Proof. intros s. discriminate. Qed.

Lemma terminates_get {St} : terminates (get : M St St).
Proof. intros s. discriminate. Qed.

Lemma terminates_put {St} (s0 : St) : terminates (put s0).
Proof. intros s. discriminate. Qed.

Lemma terminates_modify {St} (f : St -> St) : terminates (modify f).
Proof. intros s. discriminate. Qed.

Lemma terminates_getitem {St A} (field : option A) :
  terminates (getitem field : M St A).
Proof. destruct field; intros s; discriminate. Qed.

Lemma terminates_foreach {St A} (l : list A) (body : A -> M St unit) :
  (forall x, terminates (body x)) -> terminates (foreach l body).
Proof.
  intros Hbody. induction l as [|x l IH]; simpl.
  - apply terminates_mret.
  - apply terminates_bind; [apply Hbody|]. intros _. exact IH.
Qed.

Lemma terminates_with_local_on_snd {St L A} (init : L) (c : M L A) :
  terminates c -> terminates (with_local (St := St) init (on_snd c)).
Proof.
  intros Hc s. unfold with_local, on_snd. simpl.
  specialize (Hc init). destruct (c init) as [[a|e|] l]; simpl in *;
    try discriminate; done.
Qed.

Lemma terminates_list_item {St A} (l : list A) (i : nat) :
  terminates (list_item l i : M St A).
Proof. unfold list_item. destruct (l !! i); intros s; discriminate. Qed.

Lemma terminates_list_pop {St A} (l : list A) (i : nat) :
  terminates (list_pop i l : M St (A * list A)).
Proof. unfold list_pop. destruct (l !! i); intros s; discriminate. Qed.

Create HintDb terminates.
#[local] Hint Resolve terminates_ret terminates_mret terminates_raise
  terminates_get terminates_put terminates_modify terminates_getitem
  terminates_list_item terminates_list_pop : terminates.

Ltac terminates_step :=
  first
    [ apply terminates_bind; [|intros ?]
    | apply terminates_foreach; intros ?
    | apply terminates_with_local_on_snd
    | solve [auto with terminates]
    | match goal with
      | |- terminates (if ?b then _ else _) => destruct b
      | |- terminates (let '(_, _) := ?p in _) => destruct p
      | |- terminates (match ?p with (_, _) => _ end) => destruct p
      end ].

Lemma terminates_tally_rating (entryA entryB : Entry) (r : Rating) :
  terminates (tally_rating entryA entryB r).
Proof. unfold tally_rating. repeat terminates_step. Qed.

Lemma terminates_tally_vote (entryA entryB : Entry) (v : Vote) :
  terminates (tally_vote entryA entryB v).
Proof.
  unfold tally_vote. repeat terminates_step.
  all: try apply terminates_tally_rating.
Qed.

Lemma terminates_head_to_head {St} (week : Week) (entryA entryB : Entry) :
  terminates (head_to_head (St := St) week entryA entryB).
Proof.
  unfold head_to_head. repeat terminates_step.
  all: try apply terminates_tally_vote.
Qed.

Lemma terminates_with_keys {St} (pool : list EntryRef) :
  terminates (with_keys (St := St) pool).
Proof.
  induction pool as [|e pool IH]; simpl.
  - apply terminates_mret.
  - repeat terminates_step; try exact IH.
Qed.

(** The read-only steps leave the state alone. *)
Lemma with_keys_state {St} (pool : list EntryRef) (s : St) :
  snd (with_keys pool s) = s
  /\ forall keyed, fst (with_keys pool s) = Ok keyed -> snd <$> keyed = pool.
Proof.
  induction pool as [|e pool [IH1 IH2]]; simpl.
  - split; [done|]. intros keyed [= <-]. done.
  - unfold mbind, M_bind, bind, getitem.
    destruct (voteScore e.2) as [k|]; simpl; [|split; [done|discriminate]].
    destruct (with_keys pool s) as [[kl|ex|] s'] eqn:Hw; simpl in *.
    + split; [done|]. intros keyed [= <-]. simpl. f_equal. by apply IH2.
    + split; [done|discriminate].
    + split; [done|discriminate].
Qed.

Lemma head_to_head_state {St} (week : Week) (entryA entryB : Entry) (s : St) :
  snd (head_to_head week entryA entryB s) = s.
Proof.
  unfold head_to_head, mbind, M_bind, bind, getitem, with_local, on_snd.
  destruct (votes week) as [vs|]; simpl; [|done].
  destruct (foreach vs (tally_vote entryA entryB) (0, 0)) as [[[]|e|] p];
    reflexivity.
Qed.

Lemma mbind_run {St A B} (c : M St A) (k : A -> M St B) (s : St) :
  (c ≫= k) s
  = match c s with
    | (Ok a, s') => k a s'
    | (Raise e, s') => (Raise e, s')
    | (OutOfFuel, s') => (OutOfFuel, s')
    end.
Proof. reflexivity. Qed.

Lemma sorted_by_voteScore_cases {St} (pool : list EntryRef) (s : St) :
  exists r,
    sorted_by_voteScore pool s = (r, s)
    /\ r <> OutOfFuel /\ forall l, r = Ok l -> l ≡ₚ pool.
Proof.
  unfold sorted_by_voteScore, mbind, M_bind, bind.
  pose proof (terminates_with_keys pool s) as Hterm.
  destruct (with_keys_state pool s) as [Hstate Hkeyed].
  destruct (with_keys pool s) as [[keyed|e|] s1]; simpl in *; subst s1.
  - eexists. split; [reflexivity|]. split; [done|].
    intros l [= <-]. rewrite sort_by_key_perm. by rewrite Hkeyed.
  - eexists. split; [reflexivity|]. split; done.
  - done.
Qed.

(** A round never uses up a step bound, and when it returns normally it
    has moved exactly one entry from the pool to the accumulator. *)
Lemma elimination_round_cases (week : Week) (pool ranked : list EntryRef)
    (r : outcome unit) (s' : list EntryRef * list EntryRef) :
  elimination_round week (pool, ranked) = (r, s') ->
  r <> OutOfFuel
  /\ (r = Ok tt -> exists x, pool ≡ₚ x :: fst s' /\ snd s' = ranked ++ [x]).
Proof.
  unfold elimination_round.
  erewrite mbind_Ok by reflexivity. simpl fst.
  destruct (sorted_by_voteScore_cases pool (pool, ranked))
    as (rs & Hsorted & Hterm & Hperm).
  rewrite mbind_run, Hsorted.
  destruct rs as [l|e|]; [|intros [= <- <-]; split; done|done].
  specialize (Hperm l eq_refl).
  erewrite mbind_Ok by reflexivity.
  destruct l as [|entryA [|entryB rest]].
  - simpl. intros [= <- <-]; split; done.
  - simpl. intros [= <- <-]; split; done.
  - erewrite mbind_Ok by reflexivity. erewrite mbind_Ok by reflexivity.
    rewrite mbind_run.
    match goal with
    | |- context [@head_to_head ?T ?w ?a ?b ?s] =>
        pose proof (@terminates_head_to_head T w a b s) as Hterm';
        pose proof (@head_to_head_state T w a b s) as Hstate';
        destruct (@head_to_head T w a b s) as [[[pa pb]|e|] s2]
    end; simpl in Hterm', Hstate'; subst s2; cbv beta iota;
      [|intros [= <- <-]; split; done|done].
    destruct (pa >=? pb).
    + rewrite move_to_ranked_first. intros [= <- <-]. split; [done|].
      intros _. exists entryA. split; [by symmetry|done].
    + rewrite move_to_ranked_second. intros [= <- <-]. split; [done|].
      intros _. exists entryB. split; [|done].
      rewrite <- Hperm. apply Permutation_swap.
Qed.

Lemma elimination_round_moves_one (week : Week)
    (s : list EntryRef * list EntryRef) :
  fst (elimination_round week s) <> OutOfFuel
  /\ (fst (elimination_round week s) = Ok tt ->
      exists x,
        fst s ≡ₚ x :: fst (snd (elimination_round week s))
        /\ snd (snd (elimination_round week s)) = snd s ++ [x]).
Proof.
  destruct s as [pool ranked].
  destruct (elimination_round week (pool, ranked)) as [r s'] eqn:Hround.
  apply elimination_round_cases in Hround. exact Hround.
Qed.

Lemma elimination_loop_0 (week : Week) (s : list EntryRef * list EntryRef) :
  elimination_loop week 0 s
  = if (1 <? length (fst s))%nat then (OutOfFuel, s) else (Ok tt, s).
Proof. reflexivity. Qed.

Lemma elimination_loop_S (week : Week) (fuel : nat)
    (s : list EntryRef * list EntryRef) :
  elimination_loop week (S fuel) s
  = if (1 <? length (fst s))%nat
    then (elimination_round week ≫= fun _ => elimination_loop week fuel) s
    else (Ok tt, s).
Proof. reflexivity. Qed.

Lemma elimination_loop_within_bound (week : Week) (fuel : nat) :
  forall s : list EntryRef * list EntryRef,
    (length (fst s) - 1 <= fuel)%nat ->
    fst (elimination_loop week fuel s) <> OutOfFuel.
Proof.
  induction fuel as [|fuel IH]; intros s Hfuel.
  - rewrite elimination_loop_0.
    destruct (Nat.ltb_spec 1 (length (fst s))); [lia|discriminate].
  - rewrite elimination_loop_S.
    destruct (Nat.ltb_spec 1 (length (fst s))) as [Hlen|Hlen];
      [|discriminate].
    rewrite mbind_run.
    destruct (elimination_round_moves_one week s) as [Hterm Hmove].
    destruct (elimination_round week s) as [[[]|e|] s']; simpl in Hterm, Hmove;
      [|discriminate|done].
    destruct (Hmove eq_refl) as (x & Hperm & _).
    apply IH. apply Permutation_length in Hperm. simpl in Hperm. lia.
Qed.

Lemma elimination_loop_outcome (week : Week) (fuel : nat) :
  week_ready week ->
  forall pool ranked : list EntryRef,
    Forall pooled pool ->
    (length pool - 1 <= fuel)%nat ->
    exists pool' ranked' : list EntryRef,
      elimination_loop week fuel (pool, ranked) = (Ok tt, (pool', ranked'))
      /\ length pool' = Nat.min 1 (length pool)
      /\ length ranked' = (length ranked + (length pool - 1))%nat
      /\ pool' ++ ranked' ≡ₚ pool ++ ranked.
Proof.
  intros Hweek. induction fuel as [|fuel IH]; intros pool ranked Hpool Hfuel.
  - exists pool, ranked. rewrite elimination_loop_0. simpl fst.
    destruct (Nat.ltb_spec 1 (length pool)); [lia|].
    split; [done|]. split; [lia|]. split; [lia|done].
  - rewrite elimination_loop_S. simpl fst.
    destruct (Nat.ltb_spec 1 (length pool)) as [Hlen|Hlen].
    + destruct (elimination_round_outcome week pool ranked Hweek Hpool)
        as (entryA & entryB & rest & pa & pb & ua & ub & vs
            & Hsorted & _ & _ & _ & _ & _ & Hround); [lia|].
      pose proof (sorted_pool_perm pool) as Hperm. rewrite Hsorted in Hperm.
      assert (Hall : Forall pooled (entryA :: entryB :: rest))
        by (by rewrite Hperm).
      apply Forall_cons in Hall as [HA Hall].
      apply Forall_cons in Hall as [HB Hrest].
      pose proof (Permutation_length Hperm) as Hlen'. simpl in Hlen'.
      erewrite mbind_Ok by exact Hround.
      destruct (pa >=? pb).
      * destruct (IH (entryB :: rest) (ranked ++ [entryA]))
          as (pool' & ranked' & -> & H1 & H2 & H3);
          [by constructor|simpl; lia|].
        exists pool', ranked'. split; [done|].
        split; [simpl in H1; lia|].
        split; [rewrite length_app in H2; simpl in *; lia|].
        rewrite H3, <- Hperm.
        rewrite app_assoc, <- Permutation_cons_append. done.
      * destruct (IH (entryA :: rest) (ranked ++ [entryB]))
          as (pool' & ranked' & -> & H1 & H2 & H3);
          [by constructor|simpl; lia|].
        exists pool', ranked'. split; [done|].
        split; [simpl in H1; lia|].
        split; [rewrite length_app in H2; simpl in *; lia|].
        rewrite H3, <- Hperm.
        rewrite app_assoc, <- Permutation_cons_append. simpl.
        apply Permutation_swap.
    + exists pool, ranked. split; [done|]. split; [lia|]. split; [lia|done].
Qed.

Lemma elimination_loop_more_fuel (week : Week) (n : nat) :
  forall (m : nat) (s : list EntryRef * list EntryRef),
    fst (elimination_loop week n s) <> OutOfFuel -> (n <= m)%nat ->
    elimination_loop week m s = elimination_loop week n s.
Proof.
  induction n as [|n IH]; intros m s Hn Hle.
  - rewrite elimination_loop_0 in *.
    destruct m; [by rewrite elimination_loop_0|].
    rewrite elimination_loop_S.
    destruct (1 <? length (fst s))%nat; [done|reflexivity].
  - destruct m as [|m]; [lia|]. rewrite !elimination_loop_S in *.
    destruct (1 <? length (fst s))%nat; [|reflexivity].
    rewrite !mbind_run in *.
    destruct (elimination_round week s) as [[[]|e|] s']; try reflexivity.
    apply IH; [exact Hn|lia].
Qed.

(** C10: the elimination loop terminates.  A round never exhausts a step
    bound and, when it returns, has moved exactly one entry from the pool to
    the accumulator.  So for a pool of n entries the loop makes at most
    n - 1 rounds whatever the week holds: a bound of n - 1 rounds is never
    used up and a larger bound changes nothing.  When the pool entries are
    scored and the ballots carry their keys, the loop returns normally after
    exactly n - 1 rounds, with at most one entry left in the pool and the
    others in the accumulator. *)
Theorem elimination_loop_terminates
    (week : Week) (pool ranked : list EntryRef) (fuel : nat) :
  (length pool - 1 <= fuel)%nat ->
  fst (elimination_loop week fuel (pool, ranked)) <> OutOfFuel
  /\ elimination_loop week fuel (pool, ranked)
     = elimination_loop week (length pool - 1) (pool, ranked)
  /\ (forall s : list EntryRef * list EntryRef,
        fst (elimination_round week s) <> OutOfFuel
        /\ (fst (elimination_round week s) = Ok tt ->
            exists x,
              fst s ≡ₚ x :: fst (snd (elimination_round week s))
              /\ snd (snd (elimination_round week s)) = snd s ++ [x]))
  /\ (week_ready week -> Forall pooled pool ->
      exists pool' ranked' : list EntryRef,
        elimination_loop week fuel (pool, ranked) = (Ok tt, (pool', ranked'))
        /\ length pool' = Nat.min 1 (length pool)
        /\ length ranked' = (length ranked + (length pool - 1))%nat
        /\ pool' ++ ranked' ≡ₚ pool ++ ranked).
Proof.
  intros Hfuel. split; [by apply elimination_loop_within_bound|].
  split.
  { apply elimination_loop_more_fuel; [|done].
    by apply elimination_loop_within_bound. }
  split; [apply elimination_round_moves_one|].
  intros Hweek Hpool.
  by apply elimination_loop_outcome.
Qed.

Lemma elimination_loop_terminates_witness :
  fst (elimination_loop rated_week 1
         ([scored 0 "e1" one; scored 1 "e2" five], [])) <> OutOfFuel
  /\ elimination_loop rated_week 1
       ([scored 0 "e1" one; scored 1 "e2" five], [])
     = (Ok tt, ([scored 0 "e1" one], [scored 1 "e2" five])).
Proof.
  destruct (elimination_loop_terminates rated_week
              [scored 0 "e1" one; scored 1 "e2" five] [] 1)
    as (H1 & _ & _ & _).
  - simpl. lia.
  - split; [exact H1|]. vm_compute. reflexivity.
Defined.

(** ** Placements *)

Lemma assign_placements_outcome (l : list EntryRef) :
  forall (place : Z) (w : Week),
    exists (res : list Entry) (w' : Week),
      assign_placements place l w = (Ok res, w')
      /\ votes w' = votes w
      /\ uuid <$> res = (fun e => uuid (snd e)) <$> l
      /\ votePlacement <$> res
         = (fun k => Some (place + Z.of_nat k)) <$> seq 1 (length l).
Proof.
  induction l as [|[i e] l IH]; intros place w.
  - exists [], w. done.
  - simpl assign_placements. erewrite mbind_Ok by reflexivity.
    destruct (IH (place + 1) (place_entry i place w))
      as (res & w' & Hrest & Hvotes & Huuid & Hplace).
    erewrite mbind_Ok by exact Hrest.
    exists (set_votePlacement e (place + 1) :: res), w'.
    split; [reflexivity|]. split.
    { rewrite Hvotes. unfold place_entry. by destruct (entries w). }
    split; [by rewrite !fmap_cons, Huuid|].
    change (seq 1 (length ((i, e) :: l))) with (1%nat :: seq 2 (length l)).
    rewrite !fmap_cons, Hplace. f_equal.
    rewrite <- (fmap_S_seq 1), <- list_fmap_compose.
    apply list_fmap_ext. intros _ k _. simpl. f_equal. lia.
Qed.

(** From a non-empty pool of scored entries the rest of the routine returns
    every pooled entry once, with the placements 1, 2, ..., n in this
    order. *)
Lemma rank_pool_places_all (week : Week) (pool : list EntryRef) :
  week_ready week -> Forall pooled pool -> pool <> [] ->
  exists (res : list Entry) (week' : Week),
    rank_pool pool week = (Ok res, week')
    /\ length res = length pool
    /\ uuid <$> res ≡ₚ (fun e => uuid (snd e)) <$> pool
    /\ votePlacement <$> res
       = (fun k => Some (Z.of_nat k)) <$> seq 1 (length pool).
Proof.
  intros Hweek Hpool Hne.
  destruct (elimination_loop_outcome week (length pool) Hweek pool [] Hpool)
    as (pool' & ranked' & Hloop & Hlen1 & Hlen2 & Hperm); [lia|].
  assert (Hn : (1 <= length pool)%nat) by (destruct pool; [done|simpl; lia]).
  rewrite Nat.min_l in Hlen1 by lia.
  destruct pool' as [|x [|y pool']]; [done| |done].
  destruct (assign_placements_outcome (rev (x :: ranked')) 0 week)
    as (res & week' & Hassign & _ & Huuid & Hplace).
  exists res, week'.
  assert (Hrun : rank_pool pool week = (Ok res, week')).
  { unfold rank_pool. erewrite mbind_Ok by reflexivity.
    erewrite mbind_Ok.
    2: { unfold with_local, on_snd. simpl. rewrite Hloop. reflexivity. }
    simpl. erewrite mbind_Ok by reflexivity. exact Hassign. }
  assert (Hlen : length (rev (x :: ranked')) = length pool).
  { rewrite length_rev. simpl in *. lia. }
  split; [exact Hrun|]. split.
  { rewrite <- (length_fmap uuid), Huuid, length_fmap. exact Hlen. }
  split.
  { rewrite Huuid. apply fmap_Permutation.
    rewrite <- Permutation_rev. rewrite app_nil_r in Hperm.
    by rewrite <- Hperm. }
  rewrite Hplace, Hlen.
  apply list_fmap_ext. intros _ k _. f_equal.
Qed.

(** The step bound that [rank_pool] gives the loop, the length of the pool,
    is never used up. *)
Lemma rank_pool_terminates (pool : list EntryRef) (week : Week) :
  fst (rank_pool pool week) <> OutOfFuel.
Proof.
  unfold rank_pool. rewrite mbind_run. simpl.
  rewrite mbind_run. unfold with_local, on_snd. simpl.
  assert (Hloop : fst (elimination_loop week (length pool) (pool, []))
                  <> OutOfFuel)
    by (apply elimination_loop_within_bound; simpl; lia).
  destruct (elimination_loop week (length pool) (pool, []))
    as [[[]|e|] [pool' ranked']]; simpl in *; [|discriminate|done].
  rewrite mbind_run. unfold list_pop.
  destruct (pool' !! 0%nat) as [x|]; simpl; [|discriminate].
  destruct (assign_placements_outcome (rev ranked' ++ [x]) 0 week)
    as (res & w' & -> & _). discriminate.
Qed.

(** * Properties of the rest of the module *)

(** ** Loading, saving and rolling over *)


(** X2: what [save_weeks] writes is what a new process reads back.  After
    any [get_week], [save_weeks], and a restart that forgets the globals,
    [get_week] returns the same two weeks; the save leaves the globals, the
    archive and the warning log alone and logs one info record.  With a
    global still unloaded [save_weeks] does nothing at all, so the files on
    disk survive a save made right after a restart. *)
Theorem save_weeks_round_trip (b b' : bool) (h : Host) :
  let h1 := save_weeks (with_world h (snd (get_week b (world h)))) in
  fst (get_week b' (restart (world h1))) = fst (get_week b' (world h))
  /\ current_week (world h1) = current_week (snd (get_week b (world h)))
  /\ next_week (world h1) = next_week (snd (get_week b (world h)))
  /\ archive h1 = archive h
  /\ log (world h1) = log (world h)
  /\ info_log h1
     = info_log h
         ++ ["COMPO: current-week.pickle and next-week.pickle overwritten"]
  /\ save_weeks (with_world h (restart (world h)))
     = with_world h (restart (world h)).
Proof.
  destruct h as [[cw nw cp np lg] arch il]. unfold get_week. simpl.
  split_and!; try reflexivity; destruct b'; reflexivity.
Qed.

(** X3: a rollover with both weeks loaded.  The week that was next becomes
    the current week, also for a new process; the next week is a blank week
    open for submissions, without entries and without a ["votes"] key; the
    old current week is in the archive under the name built from the date,
    and no other archive file changes. *)
Theorem move_to_next_week_rolls_over
    (today : string) (h : Host) (cw nw : Week) :
  current_week (world h) = Some cw -> next_week (world h) = Some nw ->
  let h' := move_to_next_week today h in
  fst (get_week false (world h')) = nw
  /\ fst (get_week true (world h')) = blank_week true
  /\ fst (get_week false (restart (world h'))) = nw
  /\ fst (get_week true (restart (world h'))) = blank_week true
  /\ entries (blank_week true) = Some []
  /\ votes (blank_week true) = None
  /\ submissionsOpen (blank_week true) = Some true
  /\ archive h' !! archive_filename today = Some (Some cw)
  /\ (forall f, f <> archive_filename today ->
      archive h' !! f = archive h !! f)
  /\ log (world h') = log (world h).
Proof.
  intros Hcw Hnw. destruct h as [[c n cp np lg] arch il].
  simpl in Hcw, Hnw. subst c n.
  unfold move_to_next_week, save_weeks, get_week. simpl.
  split_and!; try reflexivity.
  - apply lookup_insert_eq.
  - intros f Hf. by apply lookup_insert_ne.
Qed.

Lemma move_to_next_week_rolls_over_witness :
  fst (get_week false
         (world (move_to_next_week "01-08-21"
                   (mkHost (loaded rated_week) ∅ []))))
  = blank_week true.
Proof.
  destruct (move_to_next_week_rolls_over "01-08-21"
              (mkHost (loaded rated_week) ∅ []) rated_week (blank_week true))
    as (H & _).
  - reflexivity.
  - reflexivity.
  - exact H.
Defined.

Lemma string_app_length (a b : string) :
  String.length (a ++ b)%string
  = (String.length a + String.length b)%nat.
Proof. induction a as [|c a IH]; simpl; [done|]. by rewrite IH. Qed.

Lemma string_app_inv_tail (a b s : string) :
  (a ++ s)%string = (b ++ s)%string -> a = b.
Proof.
  revert b. induction a as [|c a IH]; intros [|d b] H.
  - done.
  - apply (f_equal String.length) in H.
    rewrite !string_app_length in H. simpl in H. lia.
  - apply (f_equal String.length) in H.
    rewrite !string_app_length in H. simpl in H. lia.
  - change (String c (a ++ s)%string = String d (b ++ s)%string) in H.
    injection H as -> H. f_equal. by apply IH.
Qed.

Lemma archive_filename_inj (d1 d2 : string) :
  archive_filename d1 = archive_filename d2 -> d1 = d2.
Proof.
  unfold archive_filename. simpl. intros H.
  injection H as H. apply (string_app_inv_tail d1 d2 ".pickle"). exact H.
Qed.

(** X4: the archive keeps one file per date.  After two rollovers the file
    of the second date holds the week that was next at the start; the week
    that was current at the start is still archived exactly when the two
    dates differ, and on the same date it has been overwritten.  Either
    way the archive differs from the original one in these files only. *)
Theorem move_to_next_week_twice (d1 d2 : string) (h : Host) :
  let h2 := move_to_next_week d2 (move_to_next_week d1 h) in
  archive h2 !! archive_filename d2 = Some (next_week (world h))
  /\ (d1 <> d2 ->
      archive h2 !! archive_filename d1 = Some (current_week (world h)))
  /\ (d1 = d2 ->
      archive h2 = <[archive_filename d1 := next_week (world h)]> (archive h))
  /\ (forall f, f <> archive_filename d1 -> f <> archive_filename d2 ->
      archive h2 !! f = archive h !! f).
Proof.
  destruct h as [[cw nw cp np lg] arch il].
  assert (Harch : archive (move_to_next_week d2
                    (move_to_next_week d1 (mkHost (mkWorld cw nw cp np lg) arch il)))
                  = <[archive_filename d2 := nw]>
                      (<[archive_filename d1 := cw]> arch)).
  { unfold move_to_next_week, save_weeks. simpl. destruct nw; reflexivity. }
  cbv zeta. rewrite Harch. simpl. split_and!.
  - apply lookup_insert_eq.
  - intros Hne. rewrite lookup_insert_ne.
    + apply lookup_insert_eq.
    + intros Heq. apply Hne. symmetry. by apply archive_filename_inj.
  - intros ->. apply insert_insert_eq.
  - intros f H1 H2. by rewrite !lookup_insert_ne.
Qed.

(** X5: a rollover in a process that has not loaded the weeks yet.  It
    archives [None], writes no week file and no info record, and leaves the
    current week unloaded: the next [get_week(False)] reads the same current
    week from its file as before the rollover, while [get_week(True)] now
    returns a blank week instead of the week in the next-week file. *)
Theorem move_to_next_week_before_loading
    (today : string) (arch : gmap string (option Week)) (il : list string)
    (σ : World) :
  let h' := move_to_next_week today (mkHost (restart σ) arch il) in
  archive h' !! archive_filename today = Some None
  /\ current_week (world h') = None
  /\ current_week_pickle (world h') = current_week_pickle σ
  /\ next_week_pickle (world h') = next_week_pickle σ
  /\ info_log h' = il
  /\ fst (get_week false (world h')) = fst (get_week false (restart σ))
  /\ fst (get_week true (world h')) = blank_week true.
Proof.
  destruct σ as [cw nw cp np lg].
  unfold move_to_next_week, save_weeks, restart, get_week. simpl.
  split_and!; try reflexivity. apply lookup_insert_eq.
Qed.

(** ** Creating and finding entries *)

Lemma get_week_store_week (b b' : bool) (w : Week) (σ : World) :
  get_week b' (store_week b w (snd (get_week b σ)))
  = (if Bool.eqb b b' then w else fst (get_week b' σ),
     store_week b w (snd (get_week b σ))).
Proof.
  destruct σ as [cw nw cp np lg].
  destruct b, b'; unfold get_week, store_week; simpl; reflexivity.
Qed.

Lemma get_week_get_week (b b' : bool) (σ : World) :
  get_week b' (snd (get_week b σ))
  = (fst (get_week b' σ), snd (get_week b σ)).
Proof.
  destruct σ as [cw nw cp np lg].
  destruct b, b'; unfold get_week; simpl; reflexivity.
Qed.

Lemma find_in_entries_cases {St} (wanted : string) (es : list Entry) :
  forall (i : nat) (s : St),
    snd (find_in_entries wanted i es s) = s
    /\ match fst (find_in_entries wanted i es s) with
       | Ok None => Forall (other_uuid wanted) es
       | Ok (Some (j, e)) =>
           exists k : nat,
             j = (i + k)%nat /\ es !! k = Some e /\ uuid e = Some wanted
             /\ Forall (other_uuid wanted) (take k es)
       | Raise ex => ex = KeyError
       | OutOfFuel => False
       end.
Proof.
  induction es as [|e es IH]; intros i s.
  - split; [reflexivity|]. simpl. constructor.
  - simpl find_in_entries. rewrite mbind_run. unfold getitem.
    destruct (uuid e) as [u|] eqn:Hu; simpl; [|done].
    destruct (String.eqb_spec u wanted) as [->|Hne].
    + split; [reflexivity|]. simpl. exists 0%nat.
      split; [lia|]. split; [done|]. split; [done|]. constructor.
    + destruct (IH (S i) s) as [Hs Hr]. split; [exact Hs|].
      destruct (fst (find_in_entries wanted (S i) es s))
        as [[[j e']|]|ex|]; try done.
      * destruct Hr as (k & -> & Hk & Hw & Hbefore).
        exists (S k). split; [lia|]. split; [done|]. split; [done|].
        simpl. constructor; [by exists u|done].
      * constructor; [by exists u|done].
Qed.

Lemma find_in_entries_miss {St} (wanted : string) (es : list Entry)
    (i : nat) (s : St) :
  Forall (other_uuid wanted) es ->
  find_in_entries wanted i es s = (Ok None, s).
Proof.
  revert i. induction es as [|e es IH]; intros i Hall; [reflexivity|].
  apply Forall_cons in Hall as [(u & Hu & Hne) Hall].
  simpl. rewrite mbind_run. unfold getitem. rewrite Hu. simpl.
  destruct (String.eqb_spec u wanted); [done|]. by apply IH.
Qed.

Lemma find_in_entries_hit {St} (wanted : string) (es rest : list Entry)
    (e : Entry) (i : nat) (s : St) :
  Forall (other_uuid wanted) es -> uuid e = Some wanted ->
  find_in_entries wanted i (es ++ e :: rest) s
  = (Ok (Some ((length es + i)%nat, e)), s).
Proof.
  revert i. induction es as [|e0 es IH]; intros i Hall He.
  - simpl. rewrite mbind_run. unfold getitem. rewrite He. simpl.
    rewrite String.eqb_refl. reflexivity.
  - apply Forall_cons in Hall as [(u & Hu & Hne) Hall].
    simpl. rewrite mbind_run. unfold getitem. rewrite Hu. simpl.
    destruct (String.eqb_spec u wanted); [done|].
    rewrite IH by done. rewrite Nat.add_succ_r. reflexivity.
Qed.

Lemma find_in_week_run (wanted : string) (b : bool) (σ : World) :
  find_in_week wanted b σ
  = (match entries_of b σ with
     | Some es =>
         match fst (find_in_entries wanted 0 es (snd (get_week b σ))) with
         | Ok found => Ok ((fun e => (b, e)) <$> found)
         | Raise ex => Raise ex
         | OutOfFuel => OutOfFuel
         end
     | None => Raise KeyError
     end, snd (get_week b σ)).
Proof.
  unfold find_in_week, entries_of.
  destruct (get_week b σ) as [week σ1]. simpl.
  rewrite mbind_run. unfold getitem.
  destruct (entries week) as [es|]; simpl; [|reflexivity].
  rewrite mbind_run.
  destruct (find_in_entries_cases wanted es 0 σ1) as [Hs _].
  destruct (find_in_entries wanted 0 es σ1) as [[found|ex|] s'];
    simpl in *; subst; reflexivity.
Qed.

Lemma find_entry_by_uuid_cases (wanted : string) (σ : World) :
  snd (find_entry_by_uuid wanted σ) = snd (get_week true σ)
  /\ match fst (find_entry_by_uuid wanted σ) with
     | Ok (Some (b, (i, e))) =>
         exists es,
           entries_of b σ = Some es /\ es !! i = Some e
           /\ uuid e = Some wanted
           /\ Forall (other_uuid wanted) (take i es)
           /\ (b = false ->
               exists esn, entries_of true σ = Some esn
                           /\ Forall (other_uuid wanted) esn)
     | Ok None =>
         exists esn esc,
           entries_of true σ = Some esn /\ entries_of false σ = Some esc
           /\ Forall (other_uuid wanted) esn
           /\ Forall (other_uuid wanted) esc
     | Raise ex => ex = KeyError
     | OutOfFuel => False
     end.
Proof.
  unfold find_entry_by_uuid. rewrite mbind_run, find_in_week_run.
  destruct (entries_of true σ) as [esn|] eqn:Hn; [|done].
  destruct (find_in_entries_cases wanted esn 0 (snd (get_week true σ)))
    as [_ Hfound].
  destruct (fst (find_in_entries wanted 0 esn (snd (get_week true σ))))
    as [[[j e]|]|ex|]; cbn [fst snd fmap option_fmap option_map];
    try done.
  - split; [reflexivity|]. destruct Hfound as (k & -> & Hk & Hw & Hbefore).
    exists esn. split; [done|]. split; [done|]. split; [done|].
    split; [done|]. discriminate.
  - rewrite find_in_week_run. unfold entries_of in *.
    rewrite !get_week_get_week. cbn [fst snd].
    split; [reflexivity|].
    destruct (entries (fst (get_week false σ))) as [esc|] eqn:Hc; [|done].
    destruct (find_in_entries_cases wanted esc 0 (snd (get_week true σ)))
      as [_ Hfound'].
    destruct (fst (find_in_entries wanted 0 esc (snd (get_week true σ))))
      as [[[j e]|]|ex|]; cbn [fst snd fmap option_fmap option_map];
      try done.
    + destruct Hfound' as (k & -> & Hk & Hw & Hbefore).
      exists esc. split; [done|]. split; [done|]. split; [done|].
      split; [done|]. intros _. by exists esn.
    + by exists esn, esc.
Qed.


Lemma create_blank_entry_outcome
    (fresh_uuid entrant_name : string) (discord_id : option Z)
    (get_next_week : bool) (σ : World) (esn esc : list Entry) :
  entries_of true σ = Some esn -> entries_of false σ = Some esc ->
  Forall (other_uuid fresh_uuid) esn -> Forall (other_uuid fresh_uuid) esc ->
  let entry := blank_entry fresh_uuid entrant_name discord_id in
  let es := if get_next_week then esn else esc in
  exists σ',
    create_blank_entry fresh_uuid entrant_name discord_id get_next_week σ
    = (Ok fresh_uuid, σ')
    /\ entries_of get_next_week σ' = Some (es ++ [entry])
    /\ entries_of (negb get_next_week) σ'
       = entries_of (negb get_next_week) σ
    /\ find_entry_by_uuid fresh_uuid σ'
       = (Ok (Some (get_next_week, (length es, entry))), σ').
Proof.
  intros Hn Hc Hfn Hfc entry es.
  unfold create_blank_entry. fold entry.
  assert (Hes : entries_of get_next_week σ = Some es)
    by (subst es; by destruct get_next_week).
  unfold entries_of in Hes.
  destruct (get_week get_next_week σ) as [week σ1] eqn:Hgw.
  simpl in Hes. rewrite Hes.
  assert (Hσ1 : σ1 = snd (get_week get_next_week σ)) by (by rewrite Hgw).
  subst σ1.
  set (σ' := store_week get_next_week (set_entries week (es ++ [entry]))
               (snd (get_week get_next_week σ))).
  assert (Hown : entries_of get_next_week σ' = Some (es ++ [entry])).
  { unfold entries_of, σ'. rewrite get_week_store_week.
    by destruct get_next_week. }
  assert (Hother : entries_of (negb get_next_week) σ'
                   = entries_of (negb get_next_week) σ).
  { unfold entries_of, σ'. rewrite get_week_store_week.
    by destruct get_next_week. }
  assert (Hstable : forall b, snd (get_week b σ') = σ').
  { intros b. unfold σ'. by rewrite get_week_store_week. }
  exists σ'. split; [reflexivity|]. split; [exact Hown|].
  split; [exact Hother|].
  assert (He : uuid entry = Some fresh_uuid) by reflexivity.
  unfold find_entry_by_uuid. rewrite mbind_run, find_in_week_run, Hstable.
  clearbody σ'. subst es.
  destruct get_next_week; cbn [negb] in *; cbv iota in *.
  - rewrite Hown.
    rewrite (find_in_entries_hit fresh_uuid esn [] entry 0 σ' Hfn He).
    cbn [fst snd fmap option_fmap option_map]. rewrite Nat.add_0_r.
    reflexivity.
  - rewrite Hother, Hn.
    rewrite (find_in_entries_miss fresh_uuid esn 0 σ' Hfn).
    cbn [fst snd fmap option_fmap option_map].
    rewrite find_in_week_run, Hstable, Hown.
    rewrite (find_in_entries_hit fresh_uuid esc [] entry 0 σ' Hfc He).
    cbn [fst snd fmap option_fmap option_map]. rewrite Nat.add_0_r.
    reflexivity.
Qed.

(** X7: an entry made by [create_blank_entry] can be found again.  When
    both weeks have their ["entries"] and no entry carries the new uuid yet,
    the call returns the uuid, appends the blank entry to the chosen week
    and leaves the other week as it is; [find_entry_by_uuid] then returns
    this entry, at the end of the chosen week. *)
Theorem create_blank_entry_then_find
    (fresh_uuid entrant_name : string) (discord_id : option Z)
    (get_next_week : bool) (σ : World) (esn esc : list Entry) :
  entries_of true σ = Some esn -> entries_of false σ = Some esc ->
  Forall (other_uuid fresh_uuid) esn -> Forall (other_uuid fresh_uuid) esc ->
  let entry := blank_entry fresh_uuid entrant_name discord_id in
  let es := if get_next_week then esn else esc in
  exists σ',
    create_blank_entry fresh_uuid entrant_name discord_id get_next_week σ
    = (Ok fresh_uuid, σ')
    /\ entries_of get_next_week σ' = Some (es ++ [entry])
    /\ entries_of (negb get_next_week) σ'
       = entries_of (negb get_next_week) σ
    /\ find_entry_by_uuid fresh_uuid σ'
       = (Ok (Some (get_next_week, (length es, entry))), σ').
Proof. apply create_blank_entry_outcome. Qed.

Lemma create_blank_entry_then_find_witness :
  exists σ',
    create_blank_entry "u9" "Ada" (Some 42) true (loaded rated_week)
    = (Ok "u9", σ')
    /\ find_entry_by_uuid "u9" σ'
       = (Ok (Some (true, (0%nat, blank_entry "u9" "Ada" (Some 42)))), σ').
Proof.
  destruct (create_blank_entry_then_find "u9" "Ada" (Some 42) true
              (loaded rated_week) []
              [complete_entry "e1"; complete_entry "e2"])
    as (σ' & H1 & _ & _ & H2).
  - reflexivity.
  - reflexivity.
  - constructor.
  - apply Forall_cons_2; [eexists; split; [reflexivity|discriminate]|].
    apply Forall_cons_2; [eexists; split; [reflexivity|discriminate]|].
    constructor.
  - exists σ'. split; assumption.
Defined.

(** X8: a blank entry is never a valid entry, so [create_blank_entry] does
    not change what [count_valid_entries] returns, for either week, whether
    the creation succeeds or raises. *)
Theorem create_blank_entry_keeps_count
    (fresh_uuid entrant_name : string) (discord_id : option Z)
    (get_next_week which_week : bool) (σ : World) :
  ~ valid (blank_entry fresh_uuid entrant_name discord_id)
  /\ fst (count_valid_entries which_week
            (snd (create_blank_entry fresh_uuid entrant_name discord_id
                    get_next_week σ)))
     = fst (count_valid_entries which_week σ).
Proof.
  assert (Hblank : ~ valid (blank_entry fresh_uuid entrant_name discord_id)).
  { intros (_ & [x Hx] & _). discriminate. }
  split; [exact Hblank|].
  unfold create_blank_entry.
  destruct (get_week get_next_week σ) as [week σ1] eqn:Hgw.
  assert (Hσ1 : σ1 = snd (get_week get_next_week σ)) by (by rewrite Hgw).
  assert (Hweek : week = fst (get_week get_next_week σ)) by (by rewrite Hgw).
  unfold count_valid_entries.
  destruct (entries week) as [es|] eqn:Hes.
  - simpl snd. subst σ1. rewrite get_week_store_week.
    destruct (get_week which_week σ) as [week' σ2] eqn:Hgw'.
    rewrite !mbind_run. unfold getitem.
    destruct (Bool.eqb get_next_week which_week) eqn:Hb.
    + apply Bool.eqb_prop in Hb. subst which_week.
      rewrite Hgw in Hgw'. injection Hgw' as <- <-.
      simpl. rewrite Hes. simpl.
      rewrite !count_valid_loop_counts. simpl.
      rewrite filter_app, filter_cons_False by done.
      by rewrite filter_nil, app_nil_r.
    + simpl. destruct (entries week'); simpl; [|reflexivity].
      by rewrite !count_valid_loop_counts.
  - simpl snd. subst σ1. rewrite get_week_get_week.
    destruct (get_week which_week σ) as [week' σ2]. simpl.
    rewrite !mbind_run. unfold getitem.
    destruct (entries week'); simpl; [|reflexivity].
    by rewrite !count_valid_loop_counts.
Qed.

(** ** Serving files *)

Lemma names_file_true (field : option string) (filename : string) :
  names_file field filename = true <-> field = Some filename.
Proof.
  destruct field as [f|]; simpl; [|split; discriminate].
  destruct (String.eqb_spec f filename) as [->|Hne]; split; try done.
  intros [= ->]. done.
Qed.

Lemma get_entry_file_run (wanted filename : string) (σ : World) :
  get_entry_file wanted filename σ
  = (match fst (find_entry_by_uuid wanted σ) with
     | Ok None => Ok (None, None)
     | Ok (Some (_, (_, entry))) =>
         if names_file (mp3Filename entry) filename then
           match mp3 entry with
           | Some payload => Ok (payload, Some "audio/mpeg")
           | None => Raise KeyError
           end
         else if names_file (pdfFilename entry) filename then
           match pdf entry with
           | Some payload => Ok (payload, Some "application/pdf")
           | None => Raise KeyError
           end
         else Ok (None, None)
     | Raise ex => Raise ex
     | OutOfFuel => OutOfFuel
     end, snd (get_week true σ)).
Proof.
  unfold get_entry_file. rewrite mbind_run.
  destruct (find_entry_by_uuid_cases wanted σ) as [Hs _].
  destruct (find_entry_by_uuid wanted σ) as [[[[b [i e]]|]|ex|] s'];
    simpl in Hs; subst s'; cbn [fst]; try reflexivity.
  destruct (names_file (mp3Filename e) filename).
  - rewrite mbind_run. unfold getitem. by destruct (mp3 e).
  - destruct (names_file (pdfFilename e) filename); [|reflexivity].
    rewrite mbind_run. unfold getitem. by destruct (pdf e).
Qed.

(** X9: [get_entry_file] only serves the named file of the wanted entry.
    A result with a content type is the audio payload of an entry with the
    wanted uuid whose audio filename is the requested name, typed
    audio/mpeg, or the document payload of such an entry whose document
    filename is the requested name and whose audio filename is not, typed
    application/pdf.  A result without content type has no payload.  The
    only exception is [KeyError], and the state is left as [get_week]
    leaves it. *)
Theorem get_entry_file_serves_named_file (wanted filename : string)
    (σ : World) :
  snd (get_entry_file wanted filename σ) = snd (get_week true σ)
  /\ match fst (get_entry_file wanted filename σ) with
     | Ok (payload, Some content_type) =>
         exists (b : bool) (i : nat) (e : Entry) (es : list Entry),
           entries_of b σ = Some es /\ es !! i = Some e
           /\ uuid e = Some wanted
           /\ ((content_type = "audio/mpeg"
                /\ mp3Filename e = Some filename /\ mp3 e = Some payload)
               \/ (content_type = "application/pdf"
                   /\ pdfFilename e = Some filename
                   /\ mp3Filename e <> Some filename
                   /\ pdf e = Some payload))
     | Ok (payload, None) => payload = None
     | Raise ex => ex = KeyError
     | OutOfFuel => False
     end.
Proof.
  rewrite get_entry_file_run. split; [reflexivity|]. cbn [fst].
  destruct (find_entry_by_uuid_cases wanted σ) as [_ Hfound].
  destruct (fst (find_entry_by_uuid wanted σ)) as [[[b [i e]]|]|ex|];
    try done.
  destruct Hfound as (es & Hes & Hi & Hu & _).
  destruct (names_file (mp3Filename e) filename) eqn:Hmp3.
  - apply names_file_true in Hmp3.
    destruct (mp3 e) as [payload|] eqn:Hp; [|done].
    exists b, i, e, es. do 3 (split; [done|]). by left.
  - assert (Hnot : mp3Filename e <> Some filename).
    { intros H. apply names_file_true in H. congruence. }
    destruct (names_file (pdfFilename e) filename) eqn:Hpdf; [|done].
    apply names_file_true in Hpdf.
    destruct (pdf e) as [payload|] eqn:Hp; [|done].
    exists b, i, e, es. do 3 (split; [done|]). by right.
Qed.

(** X10: there is no file to serve for an unknown uuid or for a blank
    entry.  When both weeks have their ["entries"] and no entry carries the
    uuid, [get_entry_file] returns [(None, None)] for every filename, and it
    still does after [create_blank_entry] has made an entry with this
    uuid. *)
Theorem get_entry_file_nothing_to_serve
    (wanted filename : string) (σ : World) (esn esc : list Entry) :
  entries_of true σ = Some esn -> entries_of false σ = Some esc ->
  Forall (other_uuid wanted) esn -> Forall (other_uuid wanted) esc ->
  fst (get_entry_file wanted filename σ) = Ok (None, None)
  /\ forall (entrant_name : string) (discord_id : option Z)
        (get_next_week : bool),
      fst (get_entry_file wanted filename
             (snd (create_blank_entry wanted entrant_name discord_id
                     get_next_week σ)))
      = Ok (None, None).
Proof.
  intros Hn Hc Hfn Hfc. split.
  - rewrite get_entry_file_run. cbn [fst].
    unfold find_entry_by_uuid. rewrite mbind_run, find_in_week_run, Hn.
    rewrite (find_in_entries_miss wanted esn 0 _ Hfn).
    cbn [fst snd fmap option_fmap option_map].
    rewrite find_in_week_run. unfold entries_of in *.
    rewrite !get_week_get_week. cbn [fst snd]. rewrite Hc.
    rewrite (find_in_entries_miss wanted esc 0 _ Hfc). reflexivity.
  - intros entrant_name discord_id get_next_week.
    destruct (create_blank_entry_outcome wanted entrant_name discord_id
                get_next_week σ esn esc Hn Hc Hfn Hfc)
      as (σ' & -> & _ & _ & Hfind).
    rewrite get_entry_file_run. cbn [fst snd]. rewrite Hfind. reflexivity.
Qed.

Lemma get_entry_file_nothing_to_serve_witness :
  fst (get_entry_file "u9" "take.mp3" (loaded rated_week)) = Ok (None, None).
Proof.
  destruct (get_entry_file_nothing_to_serve "u9" "take.mp3"
              (loaded rated_week) []
              [complete_entry "e1"; complete_entry "e2"]) as [H _].
  - reflexivity.
  - reflexivity.
  - constructor.
  - apply Forall_cons_2; [eexists; split; [reflexivity|discriminate]|].
    apply Forall_cons_2; [eexists; split; [reflexivity|discriminate]|].
    constructor.
  - exact H.
Defined.

(** X11: the audio file takes precedence.  When the first entry with the
    wanted uuid, in next week's entries, names its audio file as requested
    and has an audio payload, [get_entry_file] returns that payload as
    audio/mpeg, also when the entry's document has the same filename. *)
Theorem get_entry_file_prefers_audio
    (wanted filename : string) (σ : World)
    (before after : list Entry) (e : Entry) (payload : option bytes) :
  entries_of true σ = Some (before ++ e :: after) ->
  Forall (other_uuid wanted) before -> uuid e = Some wanted ->
  mp3Filename e = Some filename -> mp3 e = Some payload ->
  get_entry_file wanted filename σ
  = (Ok (payload, Some "audio/mpeg"), snd (get_week true σ)).
Proof.
  intros Hn Hbefore Hu Hname Hp.
  rewrite get_entry_file_run. f_equal.
  unfold find_entry_by_uuid. rewrite mbind_run, find_in_week_run, Hn.
  rewrite (find_in_entries_hit wanted before after e 0 _ Hbefore Hu).
  cbn [fst snd fmap option_fmap option_map].
  apply names_file_true in Hname. unfold ret. cbn [fst].
  rewrite Hname, Hp. reflexivity.
Qed.

Lemma get_entry_file_prefers_audio_witness :
  get_entry_file "e1" "take.mp3"
    (mkWorld (Some (blank_week false))
       (Some (week_of [entry_with "e1" (Some [Byte.x25])] [])) None None [])
  = (Ok (Some [Byte.x25], Some "audio/mpeg"),
     mkWorld (Some (blank_week false))
       (Some (week_of [entry_with "e1" (Some [Byte.x25])] [])) None None []).
Proof.
  exact (get_entry_file_prefers_audio "e1" "take.mp3"
           (mkWorld (Some (blank_week false))
              (Some (week_of [entry_with "e1" (Some [Byte.x25])] []))
              None None [])
           [] [] (entry_with "e1" (Some [Byte.x25])) (Some [Byte.x25])
           eq_refl (List.Forall_nil _) eq_refl eq_refl eq_refl).
Defined.

(** * Properties of the sanitizer and the ranking loops *)

(** ** The sanitizer on any week *)

Lemma check_rating_cases (v_userID : option Z) (r : Rating) (l : list Rating)
    (uv : UserVotes) (lg : list log_record) :
  r ∈ l ->
  check_rating v_userID r (l, (uv, lg)) = (Raise KeyError, (l, (uv, lg)))
  \/ (exists uv',
        check_rating v_userID r (l, (uv, lg)) = (Ok tt, (l, (uv', lg))))
  \/ (exists l', list_remove r l = Some l'
        /\ check_rating v_userID r (l, (uv, lg))
           = (Ok tt, (l', (uv, lg ++ [fraud; sus r])))).
Proof.
  intros Hin.
  destruct (list_remove_elem r l Hin) as (l' & Hrem & _ & _).
  destruct v_userID as [uid|]; [|by left].
  destruct r as [[eu|] [vp|] [x|]]; try (by left).
  - unfold check_rating, mbind, M_bind, bind, getitem, ret, get; simpl.
    destruct (bool_decide (is_Some (uv !! (uid, eu, vp)))); simpl.
    + right. right. exists l'. split; [done|].
      unfold raise, put. rewrite Hrem. rewrite <- app_assoc. reflexivity.
    + destruct (x <=? 5); simpl.
      * destruct (x >=? 0); simpl.
        -- right. left. destruct (x =? 0); simpl; eauto.
        -- right. right. exists l'. split; [done|].
           unfold raise, put. rewrite Hrem. rewrite <- app_assoc.
           reflexivity.
      * right. right. exists l'. split; [done|].
        unfold raise, put. rewrite Hrem. rewrite <- app_assoc. reflexivity.
  - unfold check_rating, mbind, M_bind, bind, getitem, ret, get; simpl.
    destruct (bool_decide (is_Some (uv !! (uid, eu, vp)))); simpl.
    + right. right. exists l'. split; [done|].
      unfold raise, put. rewrite Hrem. rewrite <- app_assoc. reflexivity.
    + by left.
Qed.

Lemma ratings_loop_cases (v_userID : option Z) (fuel : nat) :
  forall (i : nat) (l : list Rating) (uv : UserVotes) (lg : list log_record),
    (length l - i <= fuel)%nat ->
    exists res l' uv' removed,
      for_in_mutable fst (check_rating v_userID) fuel i (l, (uv, lg))
      = (res, (l', (uv', lg ++ rejection_records removed)))
      /\ (res = Ok tt \/ res = Raise KeyError)
      /\ sublist l' l
      /\ length l = (length l' + length removed)%nat.
Proof.
  induction fuel as [|fuel IH]; intros i l uv lg Hfuel.
  - simpl. destruct (l !! i) as [r|] eqn:Hi.
    + apply lookup_lt_Some in Hi. lia.
    + exists (Ok tt), l, uv, []. rewrite app_nil_r.
      split; [done|]. split; [by left|]. split; [done|]. simpl. lia.
  - simpl. destruct (l !! i) as [r|] eqn:Hi.
    + assert (Hin : r ∈ l) by (eapply list_elem_of_lookup_2; eauto).
      pose proof (lookup_lt_Some _ _ _ Hi) as Hlt.
      unfold mbind, M_bind, bind.
      destruct (check_rating_cases v_userID r l uv lg Hin)
        as [->|[[uv' ->]|(l1 & Hrem & ->)]].
      * exists (Raise KeyError), l, uv, []. rewrite app_nil_r.
        split; [done|]. split; [by right|]. split; [done|]. simpl. lia.
      * destruct (IH (S i) l uv' lg)
          as (res & l' & uv'' & removed & -> & ? & ? & ?); [lia|].
        by exists res, l', uv'', removed.
      * destruct (list_remove_elem r l Hin) as (l1' & Hrem' & Hlen & Hsub).
        rewrite Hrem in Hrem'. injection Hrem' as <-.
        destruct (IH (S i) l1 uv (lg ++ [fraud; sus r]))
          as (res & l' & uv'' & removed & -> & Hres & Hsub' & Hlen'); [lia|].
        exists res, l', uv'', (r :: removed).
        rewrite rejection_records_cons, app_assoc.
        split; [done|]. split; [done|]. split; [by etrans|]. simpl. lia.
    + exists (Ok tt), l, uv, []. rewrite app_nil_r.
      split; [done|]. split; [by left|]. split; [done|]. simpl. lia.
Qed.

Lemma verify_vote_cases (v : Vote) (uv : UserVotes) (lg : list log_record) :
  exists res v' uv' removed,
    verify_vote (v, (uv, lg))
    = (res, (v', (uv', lg ++ rejection_records removed)))
    /\ (res = Ok tt \/ res = Raise KeyError)
    /\ userID v' = userID v
    /\ sublist (ballot_ratings v') (ballot_ratings v)
    /\ length (ballot_ratings v)
       = (length (ballot_ratings v') + length removed)%nat.
Proof.
  unfold verify_vote. simpl.
  destruct (ratings v) as [rs|] eqn:Hrs.
  - destruct (ratings_loop_cases (userID v) (length rs) 0 rs uv lg)
      as (res & l' & uv' & removed & Hloop & Hres & Hsub & Hlen); [lia|].
    simpl in Hloop. rewrite Hloop.
    exists res, (set_ratings v l'), uv', removed.
    unfold ballot_ratings. rewrite Hrs. simpl. done.
  - exists (Raise KeyError), v, uv, []. rewrite app_nil_r.
    split; [done|]. split; [by right|]. split; [done|]. split; [done|].
    simpl. lia.
Qed.

Lemma verify_votes_loop_cases (vs : list Vote) :
  forall (i : nat) (uv : UserVotes) (lg : list log_record),
    exists res vs' uv' removed,
      foreach_mut (fun _ => verify_vote) i vs (uv, lg)
      = (res, (vs', (uv', lg ++ rejection_records removed)))
      /\ (res = Ok tt \/ res = Raise KeyError)
      /\ Forall2 (fun v v' => userID v' = userID v
                    /\ sublist (ballot_ratings v') (ballot_ratings v)) vs vs'
      /\ length (vs ≫= ballot_ratings)
         = (length (vs' ≫= ballot_ratings) + length removed)%nat.
Proof.
  induction vs as [|v vs IH]; intros i uv lg.
  - exists (Ok tt), [], uv, []. simpl. rewrite app_nil_r.
    split; [done|]. split; [by left|]. split; [constructor|done].
  - destruct (verify_vote_cases v uv lg)
      as (res & v' & uv1 & rem1 & Hbody & Hres & Hid & Hsub & Hlen).
    destruct Hres as [-> | ->].
    + destruct (IH (S i) uv1 (lg ++ rejection_records rem1))
        as (res & vs' & uv2 & rem2 & Hrest & Hres & Hall & Hlen').
      exists res, (v' :: vs'), uv2, (rem1 ++ rem2).
      split; [|split; [done|split]].
      * simpl. rewrite Hbody, Hrest.
        rewrite rejection_records_app, app_assoc. done.
      * by constructor.
      * rewrite !bind_cons, !length_app. lia.
    + exists (Raise KeyError), (v' :: vs), uv1, rem1.
      split; [|split; [by right|split]].
      * simpl. rewrite Hbody. done.
      * constructor; [done|]. apply Forall_Forall2_diag.
        apply Forall_forall. done.
      * rewrite !bind_cons, !length_app. lia.
Qed.

(** X12: whatever the week dictionary holds, [verify_votes] finishes with
    no exception or with [KeyError] (a ballot or rating without one of its
    keys); [list.remove] never fails.  Also when it raises, ["votes"] is
    present afterwards, every ballot keeps its voter and a sublist of its
    ratings, and the log has grown by exactly the two warning records of
    each rating removed so far.  A bool in place of the week gives
    [TypeError] and changes nothing. *)
Theorem verify_votes_raises_only_KeyError (w : Week) (lg : list log_record) :
  (exists (res : outcome unit) (w' : Week) (removed : list Rating),
      verify_votes (PyWeek w, lg)
      = (res, (PyWeek w', lg ++ rejection_records removed))
      /\ (res = Ok tt \/ res = Raise KeyError)
      /\ is_Some (votes w')
      /\ Forall2 (fun v v' => userID v' = userID v
                    /\ sublist (ballot_ratings v') (ballot_ratings v))
           (week_votes w) (week_votes w')
      /\ length (all_ratings w)
         = (length (all_ratings w') + length removed)%nat)
  /\ forall b : bool,
       verify_votes (PyBool b, lg) = (Raise TypeError, (PyBool b, lg)).
Proof.
  split; [|reflexivity].
  unfold verify_votes, verify_votes_dict, for_votes_mut. simpl.
  destruct (votes w) as [vs|] eqn:Hvotes; simpl.
  - rewrite Hvotes.
    destruct (verify_votes_loop_cases vs 0 ∅ lg)
      as (res & vs' & uv' & removed & -> & Hres & Hall & Hlen).
    exists res, (set_votes w vs'), removed.
    unfold all_ratings, week_votes. rewrite Hvotes. simpl.
    repeat split; eauto; done.
  - exists (Ok tt), (set_votes w []), [].
    unfold rejection_records, all_ratings, week_votes.
    rewrite Hvotes. simpl. rewrite app_nil_r.
    repeat split; eauto; constructor.
Qed.

(** ** The sanitizer on a clean week *)

Lemma check_rating_accepts (uid : Z) (r : Rating) (l : list Rating)
    (uv : UserVotes) (lg : list log_record) (t : Z * string * string) :
  triple_of uid r = Some t -> in_range r -> uv !! t = None ->
  exists b : bool,
    check_rating (Some uid) r (l, (uv, lg)) = (Ok tt, (l, (<[t:=b]> uv, lg))).
Proof.
  intros Ht (x & Hx & Hrange) Hnew.
  destruct r as [[eu|] [vp|] rx]; try discriminate.
  simpl in *. injection Ht as <-. subst rx.
  unfold check_rating, mbind, M_bind, bind, getitem, ret, get; simpl.
  rewrite bool_decide_eq_false_2 by (rewrite Hnew; by intros [? ?]).
  simpl.
  destruct (Z.leb_spec x 5); [|lia]. simpl.
  destruct (Z.geb_spec x 0); [|lia]. simpl.
  destruct (x =? 0); simpl; eauto.
Qed.

Lemma ratings_loop_clean (uid : Z) (fuel : nat) :
  forall (i : nat) (l : list Rating) (uv : UserVotes) (lg : list log_record),
    Forall rating_has_keys (drop i l) -> Forall in_range (drop i l) ->
    NoDup (omap (triple_of uid) (drop i l)) ->
    (forall t, t ∈ omap (triple_of uid) (drop i l) -> uv !! t = None) ->
    (length l - i <= fuel)%nat ->
    exists uv',
      for_in_mutable fst (check_rating (Some uid)) fuel i (l, (uv, lg))
      = (Ok tt, (l, (uv', lg)))
      /\ forall t, is_Some (uv' !! t)
                   <-> is_Some (uv !! t)
                       \/ t ∈ omap (triple_of uid) (drop i l).
Proof.
  induction fuel as [|fuel IH]; intros i l uv lg Hkeys Hrange Hnodup Hnew Hfuel.
  - simpl. destruct (l !! i) as [r|] eqn:Hi.
    + apply lookup_lt_Some in Hi. lia.
    + exists uv. split; [done|]. intros t.
      rewrite drop_ge by (apply lookup_ge_None; done).
      simpl. split; [by left|]. intros [?|H]; [done|]. inversion H.
  - simpl. destruct (l !! i) as [r|] eqn:Hi.
    + rewrite (drop_S l r i Hi) in *.
      apply Forall_cons in Hkeys as [(Heu & Hvp & _) Hkeys].
      apply Forall_cons in Hrange as [Hr Hrange].
      destruct Heu as [eu Heu], Hvp as [vp Hvp].
      assert (Ht : triple_of uid r = Some (uid, eu, vp)).
      { unfold triple_of. rewrite Heu, Hvp. reflexivity. }
      simpl in Hnodup, Hnew. rewrite Ht in Hnodup, Hnew.
      apply NoDup_cons in Hnodup as [Hfresh Hnodup].
      destruct (check_rating_accepts uid r l uv lg (uid, eu, vp) Ht Hr)
        as [b Hcheck]; [apply Hnew; left|].
      unfold mbind, M_bind, bind. rewrite Hcheck.
      destruct (IH (S i) l (<[(uid, eu, vp):=b]> uv) lg Hkeys Hrange Hnodup)
        as (uv' & Hloop & Hdom); [|lia|].
      { intros t Hin. rewrite lookup_insert_ne; [apply Hnew; by right|].
        intros <-. contradiction. }
      exists uv'. split; [exact Hloop|]. intros t. rewrite Hdom.
      simpl. rewrite Ht. rewrite elem_of_cons.
      destruct (decide (t = (uid, eu, vp))) as [->|Hne].
      * rewrite lookup_insert_eq. split; [right; by left|]. intros _.
        left. by eexists.
      * rewrite lookup_insert_ne by done. tauto.
    + exists uv. split; [done|]. intros t.
      rewrite drop_ge by (apply lookup_ge_None; done).
      simpl. split; [by left|]. intros [?|H]; [done|]. inversion H.
Qed.

Lemma verify_vote_clean (v : Vote) (uv : UserVotes) (lg : list log_record) :
  vote_has_keys v -> Forall in_range (ballot_ratings v) ->
  NoDup (ballot_triples v) ->
  (forall t, t ∈ ballot_triples v -> uv !! t = None) ->
  exists uv',
    verify_vote (v, (uv, lg)) = (Ok tt, (v, (uv', lg)))
    /\ forall t, is_Some (uv' !! t)
                 <-> is_Some (uv !! t) \/ t ∈ ballot_triples v.
Proof.
  intros ([uid Huid] & rs & Hrs & Hkeys) Hrange Hnodup Hnew.
  unfold ballot_triples, ballot_ratings in *. rewrite Huid, Hrs in *.
  simpl in *.
  destruct (ratings_loop_clean uid (length rs) 0 rs uv lg)
    as (uv' & Hloop & Hdom); try done; [lia|].
  unfold verify_vote. simpl. rewrite Hrs, Huid. simpl in Hloop.
  rewrite Hloop. exists uv'. split; [|exact Hdom].
  destruct v; simpl in *; subst; reflexivity.
Qed.

Lemma verify_votes_loop_clean (vs : list Vote) :
  forall (i : nat) (uv : UserVotes) (lg : list log_record),
    Forall vote_has_keys vs -> Forall in_range (vs ≫= ballot_ratings) ->
    NoDup (vs ≫= ballot_triples) ->
    (forall t, t ∈ vs ≫= ballot_triples -> uv !! t = None) ->
    exists uv',
      foreach_mut (fun _ => verify_vote) i vs (uv, lg)
      = (Ok tt, (vs, (uv', lg))).
Proof.
  induction vs as [|v vs IH]; intros i uv lg Hkeys Hrange Hnodup Hnew.
  - by exists uv.
  - apply Forall_cons in Hkeys as [Hv Hkeys].
    rewrite bind_cons in Hrange. rewrite bind_cons in Hnodup.
    setoid_rewrite bind_cons in Hnew.
    apply Forall_app in Hrange as [Hr Hrange].
    apply NoDup_app in Hnodup as (Hnd & Hdisj & Hnodup).
    destruct (verify_vote_clean v uv lg Hv Hr Hnd) as (uv1 & Hbody & Hdom).
    { intros t Hin. apply Hnew. apply elem_of_app. by left. }
    destruct (IH (S i) uv1 lg Hkeys Hrange Hnodup) as (uv2 & Hrest).
    { intros t Hin.
      destruct (uv1 !! t) as [b|] eqn:Hb; [|done].
      assert (Hsome : is_Some (uv1 !! t)) by (by eexists).
      apply Hdom in Hsome as [[b' Hsome]|Hsome].
      - rewrite Hnew in Hsome; [done|]. apply elem_of_app. by right.
      - by destruct (Hdisj t Hsome). }
    exists uv2. simpl. rewrite Hbody, Hrest. done.
Qed.

(** X13: a clean week passes the sanitizer untouched.  When ["votes"] is
    present, the ballots carry their keys, every rating is within 0..5 and
    no two ratings of the week share voter, entry and parameter,
    [verify_votes] returns normally, removes nothing and logs nothing. *)
Theorem verify_votes_keeps_clean_week (w : Week) (lg : list log_record) :
  clean w -> verify_votes (PyWeek w, lg) = (Ok tt, (PyWeek w, lg)).
Proof.
  intros ([vs Hvs] & Hkeys & Hrange & Hnodup).
  unfold week_triples, all_ratings, week_votes in *. rewrite Hvs in *.
  simpl in *.
  destruct (verify_votes_loop_clean vs 0 ∅ lg Hkeys Hrange Hnodup)
    as (uv' & Hloop); [intros t _; apply lookup_empty|].
  unfold verify_votes, verify_votes_dict, for_votes_mut. simpl.
  rewrite Hvs. simpl. rewrite Hvs, Hloop.
  destruct w; simpl in *; subst; reflexivity.
Qed.

Lemma verify_votes_keeps_clean_week_witness :
  verify_votes (PyWeek majority_week, [])
  = (Ok tt, (PyWeek majority_week, [])).
Proof.
  apply verify_votes_keeps_clean_week.
  split; [by eexists|]. split; [|split].
  - repeat (apply Forall_cons_2;
            [apply ballot_has_keys;
             repeat (apply Forall_cons_2; [apply rt_has_keys|]);
             constructor|]).
    constructor.
  - repeat (apply Forall_cons_2; [eexists; split; [reflexivity|lia]|]).
    constructor.
  - apply (bool_decide_unpack _). vm_compute. reflexivity.
Defined.

(** ** The extent scan on any ballot *)

(** X14: the extent scan starts afresh from minimum 5 and maximum 1,
    whatever the ballot held under these keys.  On a ballot whose ratings
    have their ["rating"], it leaves the voter and the ratings alone, stores
    the smallest of 5 and the non-zero ratings as ["minimum"] and the largest
    of 1 and the non-zero ratings as ["maximum"] (5 and 1 when every rating
    is 0), so with a non-zero rating the divisor maximum - (minimum - 1) is
    at least 1, also for ratings outside 0..5; a second scan changes
    nothing. *)
Theorem rating_extents_start_afresh (v : Vote) (rs : list Rating) :
  ratings v = Some rs -> Forall (fun r => is_Some (rating r)) rs ->
  exists (v' : Vote) (mn mx : Z),
    rating_extents v = (Ok tt, v')
    /\ userID v' = userID v /\ ratings v' = Some rs
    /\ minimum v' = Some mn /\ maximum v' = Some mx
    /\ mn <= 5 /\ 1 <= mx
    /\ Forall (fun x => mn <= x <= mx) (active_ratings rs)
    /\ (mn = 5 \/ mn ∈ active_ratings rs)
    /\ (mx = 1 \/ mx ∈ active_ratings rs)
    /\ (active_ratings rs = [] -> mn = 5 /\ mx = 1)
    /\ (active_ratings rs <> [] -> 1 <= mx - (mn - 1))
    /\ rating_extents v' = (Ok tt, v').
Proof.
  intros Hrs Hkeys.
  set (mn := foldl Z.min 5 (active_ratings rs)).
  set (mx := foldl Z.max 1 (active_ratings rs)).
  exists (mkVote (userID v) (Some rs) (Some mn) (Some mx)), mn, mx.
  destruct (foldl_min_le (active_ratings rs) 5) as [Hmn Hmin].
  destruct (foldl_max_ge (active_ratings rs) 1) as [Hmx Hmax].
  fold mn in Hmn, Hmin. fold mx in Hmx, Hmax.
  assert (Hband : Forall (fun x => mn <= x <= mx) (active_ratings rs)).
  { apply Forall_forall. intros x Hx.
    eapply Forall_forall in Hmin; [|exact Hx].
    eapply Forall_forall in Hmax; [|exact Hx]. lia. }
  split; [by apply rating_extents_folds|].
  do 6 (split; [done|]). split; [exact Hband|].
  split; [apply foldl_min_elem|]. split; [apply foldl_max_elem|].
  split.
  { intros Hnone. unfold mn, mx. rewrite Hnone. done. }
  split.
  { intros Hsome. destruct (active_ratings rs) as [|x xs]; [done|].
    apply Forall_cons in Hband as [Hx _]. lia. }
  by rewrite (rating_extents_folds _ rs).
Qed.

Lemma rating_extents_start_afresh_witness :
  exists (v' : Vote),
    rating_extents
      (mkVote (Some 7) (Some [rt "e1" "melody" 7; rt "e2" "melody" 0])
         (Some 0) (Some 9))
    = (Ok tt, v')
    /\ minimum v' = Some 5 /\ maximum v' = Some 7.
Proof.
  destruct (rating_extents_start_afresh
              (mkVote (Some 7) (Some [rt "e1" "melody" 7; rt "e2" "melody" 0])
                 (Some 0) (Some 9))
              [rt "e1" "melody" 7; rt "e2" "melody" 0])
    as (v' & mn & mx & Hrun & _).
  - reflexivity.
  - apply Forall_cons_2; [by eexists|].
    apply Forall_cons_2; [by eexists|]. constructor.
  - exists v'. split; [exact Hrun|].
    vm_compute in Hrun. injection Hrun as <-. split; reflexivity.
Defined.

(** ** The mean of finite scores *)

Lemma shr_1_nonneg (mrs : shr_record) :
  0 <= shr_m mrs -> 0 <= shr_m (shr_1 mrs).
Proof. destruct mrs as [[|[p|p|]|p] r s]; simpl; lia. Qed.

Lemma iter_pos_invariant {A} (P : A -> Prop) (f : A -> A) :
  (forall x, P x -> P (f x)) ->
  forall (n : positive) (x : A), P x -> P (SpecFloat.iter_pos f n x).
Proof. intros Hf. induction n; simpl; auto. Qed.

Lemma shr_fexp_nonneg (m e : Z) (l : location) :
  0 <= m -> 0 <= shr_m (fst (shr_fexp prec emax m e l)).
Proof.
  intros Hm. unfold shr_fexp, shr.
  assert (H0 : 0 <= shr_m (shr_record_of_loc m l))
    by (destruct l as [|[]]; exact Hm).
  destruct (fexp prec emax (Zdigits2 m + e) - e); simpl; try exact H0.
  apply (iter_pos_invariant (fun mrs => 0 <= shr_m mrs));
    [apply shr_1_nonneg|exact H0].
Qed.

Lemma round_nearest_even_nonneg (m : Z) (l : location) :
  0 <= m -> 0 <= round_nearest_even m l.
Proof.
  intros Hm. destruct l as [|[]]; simpl; try lia.
  destruct (Z.even m); lia.
Qed.

Lemma binary_round_aux_not_nan (s : bool) (m e : Z) (l : location) :
  0 <= m -> binary_round_aux prec emax s m e l <> S754_nan.
Proof.
  intros Hm. unfold binary_round_aux.
  pose proof (shr_fexp_nonneg m e l Hm) as H1.
  destruct (shr_fexp prec emax m e l) as [mrs' e']. simpl in H1.
  pose proof (shr_fexp_nonneg
                (round_nearest_even (shr_m mrs') (loc_of_shr_record mrs'))
                e' loc_Exact (round_nearest_even_nonneg _ _ H1)) as H2.
  destruct (shr_fexp prec emax _ e' loc_Exact) as [mrs'' e'']. simpl in H2.
  destruct (shr_m mrs'') as [|p|p]; [done| |lia].
  by destruct (e'' <=? emax - prec).
Qed.

Lemma SFdiv_finite_not_nan (sx sy : bool) (mx my : positive) (ex ey : Z) :
  SFdiv prec emax (S754_finite sx mx ex) (S754_finite sy my ey) <> S754_nan.
Proof.
  unfold SFdiv, SFdiv_core_binary.
  set (m' := match _ - _ - _ with
             | 0 => Z.pos mx | Z.pos _ => _ | Z.neg _ => 0 end).
  assert (Hm' : 0 <= m').
  { unfold m'. destruct (_ - _ - _); [lia| |lia].
    apply Z.shiftl_nonneg. lia. }
  pose proof (Z.div_pos m' (Z.pos my) Hm' ltac:(lia)) as Hq.
  unfold Z.div in Hq. destruct (Z.div_eucl m' (Z.pos my)) as [q r].
  by apply binary_round_aux_not_nan.
Qed.

Lemma int_truediv_not_nan (p q : Z) : 0 < q -> int_truediv p q <> S754_nan.
Proof.
  intros Hq. destruct q as [|mq|mq]; [lia| |lia].
  destruct p as [|mp|mp]; unfold int_truediv;
    [done|apply SFdiv_finite_not_nan..].
Qed.

Lemma filter_not_finite_nil (data : list float) :
  Forall (fun x => is_finite x = true) data ->
  filter (fun x => is_finite x = false) data = [].
Proof.
  induction 1 as [|x data Hx _ IH]; [done|].
  rewrite filter_cons_False by congruence. exact IH.
Qed.

(** [statistics.mean] of non-empty finite data returns a number. *)
Lemma mean_of_finite (data : list float) :
  data <> [] -> Forall (fun x => is_finite x = true) data ->
  exists m : float,
    m <> S754_nan /\ forall St (s : St), mean data s = (Ok m, s).
Proof.
  intros Hne Hfin. destruct data as [|x data]; [done|].
  unfold mean. rewrite (filter_not_finite_nil _ Hfin).
  destruct (foldl exact_add (0, 0) (exact_ratio <$> x :: data)) as [m e].
  assert (Hn : 0 < Z.of_nat (length (x :: data))) by (simpl; lia).
  destruct (Z.leb_spec 0 e).
  - eexists. split; [|reflexivity]. by apply int_truediv_not_nan.
  - eexists. split; [|reflexivity]. apply int_truediv_not_nan.
    apply Z.mul_pos_pos; [done|]. apply Z.pow_pos_nonneg; lia.
Qed.

Lemma formula_binary64_finite (x mn mx : Z) :
  1 <= mn -> mn <= x -> x <= mx -> mx <= 5 ->
  is_finite (formula_binary64 x mn mx) = true.
Proof.
  intros H1 H2 H3 H4.
  destruct (small_cases mn) as [->|[->|[->|[->| ->]]]]; [lia|..];
    destruct (small_cases mx) as [->|[->|[->|[->| ->]]]]; try lia;
    destruct (small_cases x) as [->|[->|[->|[->| ->]]]]; try lia;
    vm_compute; reflexivity.
Qed.

(** ** The scoring loops *)

Lemma scan_loop_outcome (vs : list Vote) (i : nat) :
  Forall vote_has_keys vs ->
  foreach_mut (fun _ => on_fst rating_extents) i vs tt
  = (Ok tt, (scanned <$> vs, tt)).
Proof.
  revert i. induction vs as [|v vs IH]; intros i Hkeys; [done|].
  apply Forall_cons in Hkeys as [(_ & rs & Hrs & Hr) Hkeys].
  simpl. unfold on_fst at 1. simpl.
  rewrite (rating_extents_folds v rs Hrs).
  2: { eapply Forall_impl; [exact Hr|]. by intros r (_ & _ & H). }
  rewrite IH by done. unfold scanned, ballot_ratings. rewrite Hrs. done.
Qed.

Lemma scanned_has_keys (v : Vote) : vote_has_keys v -> vote_has_keys (scanned v).
Proof. intros H. exact H. Qed.

Lemma scanned_normalizable (v : Vote) :
  vote_has_keys v -> Forall in_range (ballot_ratings v) ->
  normalizable (scanned v).
Proof.
  intros (_ & rs & Hrs & Hkeys) Hrange.
  unfold ballot_ratings in Hrange. rewrite Hrs in Hrange. simpl in Hrange.
  exists rs, (foldl Z.min 5 (active_ratings rs)),
    (foldl Z.max 1 (active_ratings rs)).
  unfold scanned, ballot_ratings. rewrite Hrs. simpl.
  do 3 (split; [done|]).
  assert (Hact : Forall (fun x => 1 <= x <= 5) (active_ratings rs)).
  { apply Forall_forall. intros x Hx. unfold active_ratings in Hx.
    apply list_elem_of_filter in Hx as [Hx0 Hx].
    apply list_elem_of_omap in Hx as (r & Hr & Hrx).
    eapply Forall_forall in Hrange; [|exact Hr].
    destruct Hrange as (x' & Hx' & Hb). rewrite Hx' in Hrx.
    injection Hrx as ->. lia. }
  destruct (foldl_min_le (active_ratings rs) 5) as [Hmn Hmin].
  destruct (foldl_max_ge (active_ratings rs) 1) as [Hmx Hmax].
  assert (Hmn1 : 1 <= foldl Z.min 5 (active_ratings rs)).
  { destruct (foldl_min_elem (active_ratings rs) 5) as [->|Hin]; [lia|].
    eapply Forall_forall in Hact; [|exact Hin]. lia. }
  assert (Hmx5 : foldl Z.max 1 (active_ratings rs) <= 5).
  { destruct (foldl_max_elem (active_ratings rs) 1) as [->|Hin]; [lia|].
    eapply Forall_forall in Hact; [|exact Hin]. lia. }
  apply Forall_forall. intros r Hr.
  eapply Forall_forall in Hkeys as (Heu & _ & _); [|exact Hr].
  split; [exact Heu|].
  eapply Forall_forall in Hrange as (x & Hx & Hb); [|exact Hr].
  exists x. split; [exact Hx|]. intros Hx0.
  assert (Hin : x ∈ active_ratings rs).
  { unfold active_ratings. apply list_elem_of_filter. split; [done|].
    apply list_elem_of_omap. by exists r. }
  eapply Forall_forall in Hmin; [|exact Hin].
  eapply Forall_forall in Hmax; [|exact Hin]. lia.
Qed.

Lemma score_rating_outcome (v : Vote) (r : Rating) (sc : Scores)
    (eu : string) (x mn mx : Z) :
  entryUUID r = Some eu -> rating r = Some x ->
  minimum v = Some mn -> maximum v = Some mx ->
  (x <> 0 -> 1 <= mn /\ mn <= x /\ x <= mx /\ mx <= 5) ->
  score_rating v r sc
  = (Ok tt, <[eu := default [] (sc !! eu)
                    ++ (if decide (x = 0) then []
                        else [formula_binary64 x mn mx])]> sc).
Proof.
  intros Heu Hx Hmn Hmx Hband.
  unfold score_rating. rewrite Heu, Hx.
  erewrite mbind_Ok by reflexivity. erewrite mbind_Ok by reflexivity.
  destruct (sc !! eu) as [l|] eqn:Hl.
  - rewrite bool_decide_eq_true_2 by (by eexists).
    erewrite mbind_Ok by reflexivity. erewrite mbind_Ok by reflexivity.
    destruct (Z.eqb_spec x 0) as [->|Hx0].
    + rewrite decide_True by done. simpl. rewrite app_nil_r.
      rewrite insert_id by done. reflexivity.
    + rewrite decide_False by done.
      destruct (Hband Hx0) as (H1 & H2 & H3 & H4).
      erewrite mbind_Ok
        by (apply (normalize_formula v r x mn mx); done).
      erewrite mbind_Ok by reflexivity. erewrite mbind_Ok by reflexivity.
      unfold getitem. rewrite Hl.
      erewrite mbind_Ok by reflexivity. reflexivity.
  - rewrite bool_decide_eq_false_2 by (by intros [? ?]).
    erewrite mbind_Ok.
    2: { erewrite mbind_Ok by reflexivity. reflexivity. }
    erewrite mbind_Ok by reflexivity.
    destruct (Z.eqb_spec x 0) as [->|Hx0].
    + rewrite decide_True by done. reflexivity.
    + rewrite decide_False by done.
      destruct (Hband Hx0) as (H1 & H2 & H3 & H4).
      erewrite mbind_Ok
        by (apply (normalize_formula v r x mn mx); done).
      erewrite mbind_Ok by reflexivity. erewrite mbind_Ok by reflexivity.
      unfold getitem. rewrite lookup_insert_eq.
      erewrite mbind_Ok by reflexivity. unfold put.
      rewrite insert_insert_eq. reflexivity.
Qed.

Lemma active_ratings_cons (r : Rating) (rs : list Rating) (x : Z) :
  rating r = Some x ->
  active_ratings (r :: rs)
  = (if decide (x = 0) then [] else [x]) ++ active_ratings rs.
Proof.
  intros Hx. unfold active_ratings. simpl. rewrite Hx. simpl.
  rewrite filter_cons. destruct (decide (x = 0)) as [->|Hx0].
  - by rewrite decide_False by (intros H; by apply H).
  - by rewrite decide_True by done.
Qed.

Lemma active_ratings_app (rs1 rs2 : list Rating) :
  active_ratings (rs1 ++ rs2) = active_ratings rs1 ++ active_ratings rs2.
Proof. unfold active_ratings. by rewrite omap_app, filter_app. Qed.

Lemma ratings_for_app (u : string) (rs1 rs2 : list Rating) :
  ratings_for u (rs1 ++ rs2) = ratings_for u rs1 ++ ratings_for u rs2.
Proof. apply filter_app. Qed.

Lemma ballot_scores_loop (v : Vote) (mn mx : Z) (rs : list Rating) :
  minimum v = Some mn -> maximum v = Some mx ->
  Forall (fun r => is_Some (entryUUID r)
            /\ exists x, rating r = Some x
               /\ (x <> 0 -> 1 <= mn /\ mn <= x /\ x <= mx /\ mx <= 5)) rs ->
  forall sc : Scores,
    exists sc' : Scores,
      foreach rs (score_rating v) sc = (Ok tt, sc')
      /\ forall u,
           (is_Some (sc' !! u)
            <-> is_Some (sc !! u) \/ ratings_for u rs <> [])
           /\ default [] (sc' !! u)
              = default [] (sc !! u)
                ++ ((fun x => formula_binary64 x mn mx)
                      <$> active_ratings (ratings_for u rs)).
Proof.
  intros Hmn Hmx. induction 1 as [|r rs Hr _ IH]; intros sc.
  - exists sc. split; [done|]. intros u. split; [|by rewrite app_nil_r].
    split; [by left|]. by intros [?|?].
  - destruct Hr as ([eu Heu] & x & Hx & Hband).
    destruct (IH (<[eu := default [] (sc !! eu)
                          ++ (if decide (x = 0) then []
                              else [formula_binary64 x mn mx])]> sc))
      as (sc' & Hloop & Hspec).
    exists sc'. split.
    { simpl.
      erewrite mbind_Ok
        by (apply (score_rating_outcome v r sc eu x mn mx); done).
      exact Hloop. }
    intros u. destruct (Hspec u) as [Hdom Hval]. unfold ratings_for in *.
    destruct (decide (u = eu)) as [->|Hne].
    + rewrite lookup_insert_eq in Hdom, Hval.
      rewrite filter_cons_True by done. split.
      * split; [by right|]. intros _. apply Hdom. left. by eexists.
      * rewrite Hval. simpl default.
        rewrite (active_ratings_cons r _ x Hx), fmap_app, <- !app_assoc.
        by destruct (decide (x = 0)).
    + rewrite lookup_insert_ne in Hdom, Hval by done.
      rewrite filter_cons_False by congruence. done.
Qed.

Lemma evaluate_scores_outcome (vs : list Vote) :
  Forall normalizable vs ->
  forall sc : Scores,
    exists sc' : Scores,
      evaluate_scores vs sc = (Ok tt, sc')
      /\ forall u,
           (is_Some (sc' !! u) <-> is_Some (sc !! u) \/ rated u vs)
           /\ default [] (sc' !! u)
              = default [] (sc !! u) ++ vs ≫= ballot_scores u.
Proof.
  induction 1 as [|v vs Hv _ IH]; intros sc.
  - exists sc. split; [done|]. intros u. split; [|by rewrite app_nil_r].
    split; [by left|]. by intros [?|?].
  - destruct Hv as (rs & mn & mx & Hrs & Hmn & Hmx & Hr).
    destruct (ballot_scores_loop v mn mx rs Hmn Hmx Hr sc)
      as (sc1 & Hbody & Hspec1).
    destruct (IH sc1) as (sc' & Hrest & Hspec).
    exists sc'. split.
    { unfold evaluate_scores in *. simpl.
      erewrite mbind_Ok; [exact Hrest|].
      unfold getitem. rewrite Hrs.
      erewrite mbind_Ok by reflexivity. exact Hbody. }
    intros u. destruct (Hspec1 u) as [Hdom1 Hval1].
    destruct (Hspec u) as [Hdom Hval].
    unfold rated in *. rewrite bind_cons, ratings_for_app.
    assert (Hb : ballot_ratings v = rs)
      by (unfold ballot_ratings; by rewrite Hrs).
    assert (Hbs : ballot_scores u v
                  = (fun x => formula_binary64 x mn mx)
                      <$> active_ratings (ratings_for u rs)).
    { unfold ballot_scores. by rewrite Hmn, Hmx, Hb. }
    split.
    + rewrite Hdom, Hdom1, Hb.
      destruct (ratings_for u rs), (ratings_for u (vs ≫= ballot_ratings));
        simpl; intuition congruence.
    + rewrite Hval, Hval1, bind_cons, Hbs, <- app_assoc. done.
Qed.

Lemma scanned_ratings (vs : list Vote) :
  (scanned <$> vs) ≫= ballot_ratings = vs ≫= ballot_ratings.
Proof.
  induction vs as [|v vs IH]; [done|].
  rewrite fmap_cons, !bind_cons, IH. done.
Qed.

Lemma scanned_all_normalizable (vs : list Vote) :
  Forall vote_has_keys vs -> Forall in_range (vs ≫= ballot_ratings) ->
  Forall normalizable (scanned <$> vs).
Proof.
  induction 1 as [|v vs Hv _ IH]; intros Hrange; [constructor|].
  rewrite bind_cons in Hrange. apply Forall_app in Hrange as [Hr Hrange].
  rewrite fmap_cons. apply Forall_cons_2; [|by apply IH].
  by apply scanned_normalizable.
Qed.

Lemma ballot_scores_length (u : string) (v : Vote) :
  normalizable v ->
  length (ballot_scores u v)
  = length (active_ratings (ratings_for u (ballot_ratings v)))
  /\ Forall (fun x => is_finite x = true) (ballot_scores u v).
Proof.
  intros (rs & mn & mx & Hrs & Hmn & Hmx & Hr).
  unfold ballot_scores. rewrite Hmn, Hmx. split; [by rewrite length_fmap|].
  unfold ballot_ratings. rewrite Hrs. simpl.
  apply Forall_fmap, Forall_forall. intros x Hx. simpl.
  unfold active_ratings in Hx. apply list_elem_of_filter in Hx as [Hx0 Hx].
  apply list_elem_of_omap in Hx as (r & Hin & Hrx).
  apply list_elem_of_filter in Hin as [_ Hin].
  eapply Forall_forall in Hr as (_ & x' & Hx' & Hband); [|exact Hin].
  rewrite Hx' in Hrx. injection Hrx as ->.
  destruct (Hband Hx0) as (? & ? & ? & ?).
  by apply formula_binary64_finite.
Qed.

Lemma week_scores_length (u : string) (vs : list Vote) :
  Forall normalizable vs ->
  length (vs ≫= ballot_scores u) = length (votes_above_zero u vs)
  /\ Forall (fun x => is_finite x = true) (vs ≫= ballot_scores u).
Proof.
  unfold votes_above_zero.
  induction 1 as [|v vs Hv _ [IHlen IHfin]]; [split; [done|constructor]|].
  destruct (ballot_scores_length u v Hv) as [Hlen Hfin].
  rewrite !bind_cons, ratings_for_app, active_ratings_app, !length_app.
  split; [lia|]. by apply Forall_app.
Qed.

(** X15: the second loop collects, for each entry, the normalized values of
    the non-zero ratings that name it.  On ballots that carry their keys,
    with ratings within 0..5, taken as the extent scan leaves them,
    [evaluate_scores] returns normally; [scores] gets a key for exactly the
    uuids named by some rating, a rating 0 included; and the list under a
    uuid grows by the normalized values of its non-zero ratings, ballot by
    ballot in order, each of them finite. *)
Theorem evaluate_scores_collects (vs : list Vote) (sc : Scores) :
  Forall vote_has_keys vs -> Forall in_range (vs ≫= ballot_ratings) ->
  exists sc' : Scores,
    evaluate_scores (scanned <$> vs) sc = (Ok tt, sc')
    /\ forall u,
         (is_Some (sc' !! u) <-> is_Some (sc !! u) \/ rated u vs)
         /\ default [] (sc' !! u)
            = default [] (sc !! u) ++ (scanned <$> vs) ≫= ballot_scores u
         /\ length ((scanned <$> vs) ≫= ballot_scores u)
            = length (votes_above_zero u vs)
         /\ Forall (fun x => is_finite x = true)
              ((scanned <$> vs) ≫= ballot_scores u).
Proof.
  intros Hkeys Hrange.
  pose proof (scanned_all_normalizable vs Hkeys Hrange) as Hnorm.
  destruct (evaluate_scores_outcome (scanned <$> vs) Hnorm sc)
    as (sc' & Hrun & Hspec).
  exists sc'. split; [exact Hrun|]. intros u.
  destruct (Hspec u) as [Hdom Hval].
  destruct (week_scores_length u (scanned <$> vs) Hnorm) as [Hlen Hfin].
  unfold rated, votes_above_zero in *. rewrite scanned_ratings in *.
  done.
Qed.

Lemma evaluate_scores_collects_witness :
  exists sc' : Scores,
    evaluate_scores
      (scanned <$> [ballot 7 [rt "e1" "melody" 1; rt "e2" "melody" 0]]) ∅
    = (Ok tt, sc')
    /\ default [] (sc' !! "e1") = [five] /\ sc' !! "e2" = Some [].
Proof.
  destruct (evaluate_scores_collects
              [ballot 7 [rt "e1" "melody" 1; rt "e2" "melody" 0]] ∅)
    as (sc' & Hrun & _).
  - apply Forall_cons_2; [|constructor]. apply ballot_has_keys.
    apply Forall_cons_2; [apply rt_has_keys|].
    apply Forall_cons_2; [apply rt_has_keys|constructor].
  - apply Forall_cons_2; [eexists; split; [reflexivity|lia]|].
    apply Forall_cons_2; [eexists; split; [reflexivity|lia]|]. constructor.
  - exists sc'. split; [exact Hrun|].
    vm_compute in Hrun. injection Hrun as <-. split; reflexivity.
Defined.

(** ** Final scores and the entry pool *)

Lemma valid_set_voteScore (e : Entry) (m : float) :
  valid (set_voteScore e m) <-> valid e.
Proof. done. Qed.

Lemma write_score_invalid (scores : Scores) (i : nat) (e : Entry)
    (pool : list EntryRef) :
  ~ valid e -> write_score scores i (e, pool) = (Ok tt, (e, pool)).
Proof.
  intros Hv. unfold write_score.
  erewrite mbind_Ok by reflexivity.
  erewrite mbind_Ok by apply entry_valid_decides.
  by rewrite bool_decide_eq_false_2.
Qed.

Lemma write_score_valid (scores : Scores) (i : nat) (e : Entry)
    (pool : list EntryRef) (u : string) (m : float) :
  valid e -> uuid e = Some u -> score_written scores u m ->
  write_score scores i (e, pool)
  = (Ok tt, (set_voteScore e m, pool ++ [(i, set_voteScore e m)])).
Proof.
  intros Hv Hu Hm. unfold write_score.
  erewrite mbind_Ok by reflexivity.
  erewrite mbind_Ok by apply entry_valid_decides.
  rewrite bool_decide_eq_true_2 by done.
  unfold score_written in Hm. simpl fst. rewrite Hu.
  erewrite mbind_Ok by reflexivity.
  destruct (scores !! u) as [l|] eqn:Hl.
  - rewrite bool_decide_eq_true_2 by (by eexists).
    erewrite mbind_Ok.
    2: { erewrite mbind_Ok by reflexivity. unfold getitem. rewrite Hl.
         erewrite mbind_Ok by reflexivity.
         erewrite mbind_Ok by apply Hm. reflexivity. }
    reflexivity.
  - rewrite bool_decide_eq_false_2 by (by intros [? ?]). subst m.
    reflexivity.
Qed.

Lemma write_score_empty (scores : Scores) (i : nat) (e : Entry)
    (pool : list EntryRef) (u : string) :
  valid e -> uuid e = Some u -> scores !! u = Some [] ->
  write_score scores i (e, pool) = (Raise StatisticsError, (e, pool)).
Proof.
  intros Hv Hu Hl. unfold write_score.
  erewrite mbind_Ok by reflexivity.
  erewrite mbind_Ok by apply entry_valid_decides.
  rewrite bool_decide_eq_true_2 by done.
  simpl fst. rewrite Hu.
  erewrite mbind_Ok by reflexivity.
  rewrite bool_decide_eq_true_2 by (by eexists).
  unfold mbind, M_bind, bind, getitem, ret. rewrite Hl. reflexivity.
Qed.

(** The relation between an entry and what the third loop makes of it. *)
Lemma scorable_score (scores : Scores) (e : Entry) (u : string) :
  uuid e = Some u -> scorable scores e ->
  exists m, m <> S754_nan /\ score_written scores u m.
Proof.
  intros Hu Hsc. unfold score_written.
  destruct (scores !! u) as [l|] eqn:Hl; [|by exists zero].
  destruct (Hsc u l Hu Hl) as [Hne Hfin].
  destruct (mean_of_finite l Hne Hfin) as (m & Hm & Hmean). by exists m.
Qed.

Lemma imap_shift {A} (i : nat) (l : list A) :
  imap ((fun j x => ((i + j)%nat, x)) ∘ S) l
  = imap (fun j x => ((S i + j)%nat, x)) l.
Proof. apply imap_ext. intros j x _. simpl. f_equal. lia. Qed.

Lemma write_scores_loop (scores : Scores) (es : list Entry) :
  Forall (fun e => valid e -> scorable scores e) es ->
  forall (i : nat) (pool : list EntryRef),
    exists es' : list Entry,
      foreach_mut (write_score scores) i es pool
      = (Ok tt,
         (es', pool ++ filter (fun p => valid (snd p))
                         (imap (fun j e' => ((i + j)%nat, e')) es')))
      /\ Forall2 (fun e e' =>
                    if decide (valid e)
                    then exists u m, uuid e = Some u /\ m <> S754_nan
                           /\ score_written scores u m
                           /\ e' = set_voteScore e m
                    else e' = e) es es'.
Proof.
  induction 1 as [|e es He _ IH]; intros i pool.
  - exists []. simpl. rewrite app_nil_r. split; [done|constructor].
  - destruct (decide (valid e)) as [Hv|Hv].
    + destruct Hv as (Hu & Hrest). destruct Hu as [u Hu].
      assert (Hv : valid e) by (split; [by eexists|exact Hrest]).
      destruct (scorable_score scores e u Hu (He Hv)) as (m & Hm & Hw).
      destruct (IH (S i) (pool ++ [(i, set_voteScore e m)]))
        as (es' & Hloop & Hall).
      exists (set_voteScore e m :: es'). split.
      * simpl foreach_mut.
        rewrite (write_score_valid scores i e pool u m Hv Hu Hw).
        rewrite Hloop. rewrite imap_cons, imap_shift.
        rewrite filter_cons_True by done.
        by rewrite Nat.add_0_r, <- app_assoc.
      * constructor; [|exact Hall]. rewrite decide_True by done.
        by exists u, m.
    + destruct (IH (S i) pool) as (es' & Hloop & Hall).
      exists (e :: es'). split.
      * simpl foreach_mut. rewrite (write_score_invalid scores i e pool Hv).
        rewrite Hloop. rewrite imap_cons, imap_shift.
        by rewrite filter_cons_False by done.
      * constructor; [|exact Hall]. by rewrite decide_False by done.
Qed.

Lemma write_scores_loop_fails (scores : Scores) (before after : list Entry)
    (e : Entry) (u : string) :
  Forall (fun e => valid e -> scorable scores e) before ->
  valid e -> uuid e = Some u -> scores !! u = Some [] ->
  forall (i : nat) (pool : list EntryRef),
    fst (foreach_mut (write_score scores) i (before ++ e :: after) pool)
    = Raise StatisticsError.
Proof.
  intros Hbefore Hv Hu Hl.
  induction Hbefore as [|e0 before He0 _ IH]; intros i pool.
  - simpl. by rewrite (write_score_empty scores i e pool u).
  - destruct (decide (valid e0)) as [Hv0|Hv0].
    + destruct (write_scores_loop scores [e0]
                  ltac:(by apply Forall_cons_2; [|constructor]) i pool)
        as (es' & Hloop & Hall).
      simpl in Hloop. simpl.
      destruct (write_score scores i (e0, pool)) as [[[]|ex|] [x' s']];
        try discriminate.
      specialize (IH (S i) s').
      destruct (foreach_mut (write_score scores) (S i)
                  (before ++ e :: after) s') as [r [l'' s'']].
      exact IH.
    + simpl. rewrite (write_score_invalid scores i e0 pool Hv0).
      specialize (IH (S i) pool).
      destruct (foreach_mut (write_score scores) (S i)
                  (before ++ e :: after) pool) as [r [l'' s'']].
      exact IH.
Qed.

Lemma written_pool (scores : Scores) (es es' : list Entry) :
  Forall2 (fun e e' =>
             if decide (valid e)
             then exists u m, uuid e = Some u /\ m <> S754_nan
                    /\ score_written scores u m
                    /\ e' = set_voteScore e m
             else e' = e) es es' ->
  forall i : nat,
    Forall pooled
      (filter (fun p => valid (snd p))
         (imap (fun j e' => ((i + j)%nat, e')) es'))
    /\ (fun p : EntryRef => uuid (snd p))
         <$> filter (fun p => valid (snd p))
               (imap (fun j e' => ((i + j)%nat, e')) es')
       = uuid <$> filter valid es.
Proof.
  induction 1 as [|e e' es es' He _ IH]; intros i.
  - split; [constructor|done].
  - destruct (IH (S i)) as [IHp IHu].
    rewrite imap_cons, imap_shift, (filter_cons _ e).
    destruct (decide (valid e)) as [Hv|Hv].
    + destruct He as (u & m & Hu & Hm & _ & ->).
      rewrite filter_cons_True by done. split.
      * apply Forall_cons_2; [|exact IHp].
        split; [by eexists|]. by exists m.
      * rewrite !fmap_cons, IHu. done.
    + subst e'. rewrite filter_cons_False by done. done.
Qed.

(** X16: the third loop scores and pools exactly the valid entries.  When
    the week has its ["entries"] and the scores of every valid entry that
    has any are non-empty and finite, [write_scores] returns normally;
    every valid entry gets as ["voteScore"] the mean of its scores, or 0
    when [scores] has no key for it, a number in both cases; an invalid
    entry is left as it is; and [entry_pool] grows by the valid entries in
    the order of the week, each one the dictionary at its position with the
    score just written. *)
Theorem write_scores_pools_valid_entries (scores : Scores) (w : Week)
    (es : list Entry) (pool : list EntryRef) :
  entries w = Some es ->
  Forall (fun e => valid e -> scorable scores e) es ->
  exists es' : list Entry,
    write_scores scores (w, pool)
    = (Ok tt, (set_entries w es',
               pool ++ filter (fun p => valid (snd p)) (imap pair es')))
    /\ Forall2 (fun e e' =>
                  if decide (valid e)
                  then exists u m, uuid e = Some u /\ m <> S754_nan
                         /\ score_written scores u m
                         /\ e' = set_voteScore e m
                  else e' = e) es es'
    /\ (fun p : EntryRef => uuid (snd p))
         <$> filter (fun p => valid (snd p)) (imap pair es')
       = uuid <$> filter valid es.
Proof.
  intros Hes Hsc.
  destruct (write_scores_loop scores es Hsc 0 pool) as (es' & Hloop & Hall).
  exists es'. unfold write_scores. simpl. rewrite Hes, Hloop.
  split; [done|]. split; [exact Hall|].
  apply (written_pool scores es es' Hall 0).
Qed.

Lemma write_scores_pools_valid_entries_witness :
  exists es' : list Entry,
    write_scores {["e1" := [one; five]]}
      (week_of [complete_entry "e1"; blank_entry "u9" "Ada" None;
                complete_entry "e2"] [], [])
    = (Ok tt,
       (set_entries
          (week_of [complete_entry "e1"; blank_entry "u9" "Ada" None;
                    complete_entry "e2"] []) es',
        [] ++ filter (fun p => valid (snd p)) (imap pair es')))
    /\ (fun p : EntryRef => uuid (snd p))
         <$> filter (fun p => valid (snd p)) (imap pair es')
       = [Some "e1"; Some "e2"].
Proof.
  destruct (write_scores_pools_valid_entries {["e1" := [one; five]]}
              (week_of [complete_entry "e1"; blank_entry "u9" "Ada" None;
                        complete_entry "e2"] [])
              [complete_entry "e1"; blank_entry "u9" "Ada" None;
               complete_entry "e2"] [])
    as (es' & Hrun & _ & Hpool).
  - reflexivity.
  - apply Forall_cons_2.
    { intros _ u l Hu Hl. injection Hu as <-.
      rewrite lookup_singleton_eq in Hl. injection Hl as <-.
      split; [done|]. repeat constructor. }
    apply Forall_cons_2.
    { intros (_ & [x Hx] & _). discriminate. }
    apply Forall_cons_2; [|constructor].
    intros _ u l Hu Hl. injection Hu as <-. discriminate.
  - exists es'. split; [exact Hrun|exact Hpool].
Defined.

(** ** The code after the sanitizer call, on a well-formed week *)

Lemma first_such {A} (P : A -> Prop) `{!forall x, Decision (P x)}
    (l : list A) :
  Exists P l ->
  exists before x after,
    l = before ++ x :: after /\ Forall (fun y => ~ P y) before /\ P x.
Proof.
  induction l as [|y l IH]; intros Hex; [by inversion Hex|].
  destruct (decide (P y)) as [Hy|Hy].
  - exists [], y, l. split; [done|]. split; [constructor|done].
  - apply Exists_cons in Hex as [?|Hex]; [done|].
    destruct (IH Hex) as (before & x & after & -> & Hb & Hx).
    exists (y :: before), x, after. split; [done|].
    split; [by apply Forall_cons_2|done].
Qed.

Lemma scan_votes_outcome (w : Week) (vs : list Vote) :
  votes w = Some vs -> Forall vote_has_keys vs ->
  with_local tt (for_votes_mut (on_fst rating_extents)) w
  = (Ok (tt, tt), set_votes w (scanned <$> vs)).
Proof.
  intros Hvs Hkeys. unfold with_local, for_votes_mut. simpl.
  rewrite Hvs. by rewrite (scan_loop_outcome vs 0 Hkeys).
Qed.

(** The scores that the second loop computes from the ballots of a
    well-formed week. *)
Lemma week_scores (vs : list Vote) :
  Forall vote_has_keys vs -> Forall in_range (vs ≫= ballot_ratings) ->
  exists sc : Scores,
    evaluate_scores (scanned <$> vs) ∅ = (Ok tt, sc)
    /\ forall u,
         (is_Some (sc !! u) <-> rated u vs)
         /\ (forall l, sc !! u = Some l ->
             length l = length (votes_above_zero u vs)
             /\ Forall (fun x => is_finite x = true) l).
Proof.
  intros Hkeys Hrange.
  pose proof (scanned_all_normalizable vs Hkeys Hrange) as Hnorm.
  destruct (evaluate_scores_outcome (scanned <$> vs) Hnorm ∅)
    as (sc & Hrun & Hspec).
  exists sc. split; [exact Hrun|]. intros u.
  destruct (Hspec u) as [Hdom Hval].
  destruct (week_scores_length u (scanned <$> vs) Hnorm) as [Hlen Hfin].
  unfold rated, votes_above_zero in *. rewrite scanned_ratings in *.
  rewrite lookup_empty in Hdom, Hval. simpl in Hval. split.
  - rewrite Hdom. split; [intros [[? ?]|?]; done|by right].
  - intros l Hl. rewrite Hl in Hval. simpl in Hval. by subst l.
Qed.

Lemma score_entries_run (w : Week) (vs : list Vote) (sc : Scores) :
  votes w = Some vs -> Forall vote_has_keys vs ->
  evaluate_scores (scanned <$> vs) ∅ = (Ok tt, sc) ->
  score_entries w
  = (let '(r, (w', pool)) :=
       write_scores sc (set_votes w (scanned <$> vs), []) in
     (match r with
      | Ok _ => Ok pool
      | Raise ex => Raise ex
      | OutOfFuel => OutOfFuel
      end, w')).
Proof.
  intros Hvs Hkeys Hsc. unfold score_entries.
  erewrite mbind_Ok by (by apply scan_votes_outcome).
  erewrite mbind_Ok by reflexivity.
  erewrite mbind_Ok by reflexivity.
  erewrite mbind_Ok.
  2: { unfold with_local, on_snd. simpl. rewrite Hsc. reflexivity. }
  rewrite mbind_run. unfold with_local. simpl snd.
  destruct (write_scores sc (set_votes w (scanned <$> vs), []))
    as [[[]|ex|] [w' pool]]; reflexivity.
Qed.

Lemma not_abstained_scorable (vs : list Vote) (sc : Scores) (e : Entry) :
  (forall u,
      (is_Some (sc !! u) <-> rated u vs)
      /\ (forall l, sc !! u = Some l ->
          length l = length (votes_above_zero u vs)
          /\ Forall (fun x => is_finite x = true) l)) ->
  ~ only_abstained vs e -> valid e -> scorable sc e.
Proof.
  intros Hspec Hnot Hv u l Hu Hl.
  destruct (Hspec u) as [Hdom Hval].
  destruct (Hval l Hl) as [Hlen Hfin]. split; [|exact Hfin].
  intros ->. apply Hnot. split; [exact Hv|]. rewrite Hu. split.
  - apply Hdom. by eexists.
  - simpl in Hlen. by destruct (votes_above_zero u vs).
Qed.

Lemma score_entries_outcome (w : Week) (es : list Entry) (vs : list Vote) :
  entries w = Some es -> votes w = Some vs ->
  Forall vote_has_keys vs -> Forall in_range (vs ≫= ballot_ratings) ->
  Forall (fun e => ~ only_abstained vs e) es ->
  exists (es' : list Entry) (pool : list EntryRef),
    score_entries w
    = (Ok pool, set_entries (set_votes w (scanned <$> vs)) es')
    /\ Forall pooled pool
    /\ (fun p : EntryRef => uuid (snd p)) <$> pool = uuid <$> filter valid es.
Proof.
  intros Hes Hvs Hkeys Hrange Hnot.
  destruct (week_scores vs Hkeys Hrange) as (sc & Hsc & Hspec).
  assert (Hscorable : Forall (fun e => valid e -> scorable sc e) es).
  { eapply Forall_impl; [exact Hnot|]. intros e He.
    by apply (not_abstained_scorable vs). }
  destruct (write_scores_loop sc es Hscorable 0 []) as (es' & Hloop & Hall).
  destruct (written_pool sc es es' Hall 0) as [Hpooled Huuid].
  exists es', (filter (fun p => valid (snd p)) (imap pair es')).
  split; [|split; [exact Hpooled|exact Huuid]].
  rewrite (score_entries_run w vs sc Hvs Hkeys Hsc).
  unfold write_scores. simpl. rewrite Hes, Hloop. reflexivity.
Qed.

Lemma score_entries_fails (w : Week) (es : list Entry) (vs : list Vote) :
  entries w = Some es -> votes w = Some vs ->
  Forall vote_has_keys vs -> Forall in_range (vs ≫= ballot_ratings) ->
  Exists (only_abstained vs) es ->
  fst (score_entries w) = Raise StatisticsError.
Proof.
  intros Hes Hvs Hkeys Hrange Hex.
  destruct (week_scores vs Hkeys Hrange) as (sc & Hsc & Hspec).
  destruct (first_such _ es Hex)
    as (before & e & after & -> & Hbefore & Hv & He).
  destruct (uuid e) as [u|] eqn:Hu; [|done]. destruct He as [Hrated Hzero].
  assert (Hempty : sc !! u = Some []).
  { destruct (Hspec u) as [Hdom Hval].
    apply Hdom in Hrated as [l Hl]. destruct (Hval l Hl) as [Hlen _].
    rewrite Hzero in Hlen. destruct l; [done|discriminate]. }
  assert (Hscorable : Forall (fun e => valid e -> scorable sc e) before).
  { eapply Forall_impl; [exact Hbefore|]. intros e0 He0.
    by apply (not_abstained_scorable vs). }
  pose proof (write_scores_loop_fails sc before after e u Hscorable Hv Hu
                Hempty 0 []) as Hfail.
  rewrite (score_entries_run w vs sc Hvs Hkeys Hsc).
  unfold write_scores. cbn [fst snd set_votes entries]. rewrite Hes.
  destruct (foreach_mut (write_score sc) 0 (before ++ e :: after) [])
    as [r [es' pool]]. simpl in Hfail. subst r. reflexivity.
Qed.

Lemma rank_pool_nothing (week : Week) :
  rank_pool [] week = (Raise IndexError, week).
Proof. reflexivity. Qed.

Lemma scanned_week_ready (w : Week) (vs : list Vote) (es' : list Entry) :
  Forall vote_has_keys vs ->
  week_ready (set_entries (set_votes w (scanned <$> vs)) es').
Proof.
  intros Hkeys. exists (scanned <$> vs). split; [done|].
  apply Forall_fmap. eapply Forall_impl; [exact Hkeys|].
  intros v Hv. by apply scanned_has_keys.
Qed.

(** X17: on a well-formed week the code after the sanitizer call places
    every valid entry.  When the week has its ["entries"] and ["votes"], the
    ballots carry their keys, every rating is within 0..5, no valid entry is
    rated with zeros only and there is a valid entry, [score_and_rank]
    returns one dictionary for each valid entry (the same uuids, up to
    order) and their placements are 1, 2, ..., n in the order of the
    list. *)
Theorem score_and_rank_places_valid_entries
    (w : Week) (es : list Entry) (vs : list Vote) :
  entries w = Some es -> votes w = Some vs ->
  Forall vote_has_keys vs -> Forall in_range (vs ≫= ballot_ratings) ->
  Forall (fun e => ~ only_abstained vs e) es ->
  filter valid es <> [] ->
  exists (res : list Entry) (w' : Week),
    score_and_rank w = (Ok res, w')
    /\ length res = length (filter valid es)
    /\ uuid <$> res ≡ₚ uuid <$> filter valid es
    /\ votePlacement <$> res
       = (fun k => Some (Z.of_nat k)) <$> seq 1 (length (filter valid es)).
Proof.
  intros Hes Hvs Hkeys Hrange Hnot Hne.
  destruct (score_entries_outcome w es vs Hes Hvs Hkeys Hrange Hnot)
    as (es' & pool & Hscore & Hpooled & Huuid).
  assert (Hlen : length pool = length (filter valid es)).
  { rewrite <- (length_fmap (fun p : EntryRef => uuid (snd p))), Huuid.
    by rewrite length_fmap. }
  assert (Hpool : pool <> []).
  { intros ->. destruct (filter valid es); [done|discriminate]. }
  destruct (rank_pool_places_all
              (set_entries (set_votes w (scanned <$> vs)) es') pool
              (scanned_week_ready w vs es' Hkeys) Hpooled Hpool)
    as (res & w' & Hrank & Hn & Hperm & Hplace).
  exists res, w'. unfold score_and_rank.
  erewrite mbind_Ok by exact Hscore.
  split; [exact Hrank|]. split; [by rewrite Hn|].
  split; [by rewrite Hperm, <- Huuid|]. by rewrite Hplace, Hlen.
Qed.

Lemma score_and_rank_places_valid_entries_witness :
  exists (res : list Entry) (w' : Week),
    score_and_rank rated_week = (Ok res, w')
    /\ length res = 2%nat
    /\ votePlacement <$> res = [Some 1; Some 2].
Proof.
  destruct (score_and_rank_places_valid_entries rated_week
              [complete_entry "e1"; complete_entry "e2"]
              [ballot 7 [rt "e1" "melody" 1; rt "e2" "melody" 5]])
    as (res & w' & Hrun & Hlen & _ & Hplace).
  - reflexivity.
  - reflexivity.
  - apply Forall_cons_2; [|constructor]. apply ballot_has_keys.
    apply Forall_cons_2; [apply rt_has_keys|].
    apply Forall_cons_2; [apply rt_has_keys|constructor].
  - apply Forall_cons_2; [eexists; split; [reflexivity|lia]|].
    apply Forall_cons_2; [eexists; split; [reflexivity|lia]|]. constructor.
  - apply Forall_cons_2; [intros (_ & _ & H); discriminate H|].
    apply Forall_cons_2; [intros (_ & _ & H); discriminate H|]. constructor.
  - discriminate.
  - exists res, w'. split; [exact Hrun|]. split; [exact Hlen|exact Hplace].
Defined.

(** X18: a valid entry rated with zeros only stops the scoring.  On a week
    with its ["entries"] and ["votes"], ballots that carry their keys and
    ratings within 0..5, if some valid entry is named by ratings that are
    all 0, the code after the sanitizer call raises [StatisticsError]:
    [scores] has the empty list for this entry and [statistics.mean] is
    called on it. *)
Theorem score_and_rank_raises_StatisticsError
    (w : Week) (es : list Entry) (vs : list Vote) :
  entries w = Some es -> votes w = Some vs ->
  Forall vote_has_keys vs -> Forall in_range (vs ≫= ballot_ratings) ->
  Exists (only_abstained vs) es ->
  fst (score_and_rank w) = Raise StatisticsError.
Proof.
  intros Hes Hvs Hkeys Hrange Hex.
  pose proof (score_entries_fails w es vs Hes Hvs Hkeys Hrange Hex) as Hfail.
  unfold score_and_rank. rewrite mbind_run.
  destruct (score_entries w) as [r w']. simpl in Hfail. by subst r.
Qed.

Lemma score_and_rank_raises_StatisticsError_witness :
  fst (score_and_rank abstained_week) = Raise StatisticsError.
Proof.
  apply (score_and_rank_raises_StatisticsError abstained_week
           [complete_entry "e1"] [ballot 7 [rt "e1" "melody" 0]]).
  - reflexivity.
  - reflexivity.
  - apply Forall_cons_2; [|constructor]. apply ballot_has_keys.
    apply Forall_cons_2; [apply rt_has_keys|constructor].
  - apply Forall_cons_2; [eexists; split; [reflexivity|lia]|]. constructor.
  - apply Exists_cons_hd. split.
    + apply (bool_decide_unpack _). reflexivity.
    + split; [discriminate|reflexivity].
Defined.

(** X19: a week without a valid entry has nothing to rank.  On a week with
    its ["entries"] and ["votes"], ballots that carry their keys and ratings
    within 0..5, if no entry is valid, the code after the sanitizer call
    raises [IndexError], at [entry_pool.pop(0)] on the empty pool. *)
Theorem score_and_rank_raises_IndexError
    (w : Week) (es : list Entry) (vs : list Vote) :
  entries w = Some es -> votes w = Some vs ->
  Forall vote_has_keys vs -> Forall in_range (vs ≫= ballot_ratings) ->
  filter valid es = [] ->
  fst (score_and_rank w) = Raise IndexError.
Proof.
  intros Hes Hvs Hkeys Hrange Hnone.
  assert (Hnot : Forall (fun e => ~ only_abstained vs e) es).
  { apply Forall_forall. intros e He [Hv _].
    assert (Hin : e ∈ filter valid es) by (by apply list_elem_of_filter).
    rewrite Hnone in Hin. inversion Hin. }
  destruct (score_entries_outcome w es vs Hes Hvs Hkeys Hrange Hnot)
    as (es' & pool & Hscore & _ & Huuid).
  rewrite Hnone in Huuid. destruct pool; [|discriminate].
  unfold score_and_rank. erewrite mbind_Ok by exact Hscore.
  by rewrite rank_pool_nothing.
Qed.

Lemma score_and_rank_raises_IndexError_witness :
  fst (score_and_rank
         (week_of [blank_entry "u9" "Ada" None]
            [ballot 7 [rt "u9" "melody" 3]]))
  = Raise IndexError.
Proof.
  apply (score_and_rank_raises_IndexError _
           [blank_entry "u9" "Ada" None] [ballot 7 [rt "u9" "melody" 3]]).
  - reflexivity.
  - reflexivity.
  - apply Forall_cons_2; [|constructor]. apply ballot_has_keys.
    apply Forall_cons_2; [apply rt_has_keys|constructor].
  - apply Forall_cons_2; [eexists; split; [reflexivity|lia]|]. constructor.
  - reflexivity.
Defined.

(** ** Ties and the order of the returned list *)

Lemma ballots_preferring_bounds (u1 u2 : string) (vs : list Vote) :
  0 <= ballots_preferring u1 u2 vs
  /\ ballots_preferring u1 u2 vs + ballots_preferring u2 u1 vs
     <= Z.of_nat (length vs).
Proof.
  unfold ballots_preferring. split; [lia|].
  induction vs as [|v vs IH]; [simpl; lia|].
  rewrite !filter_cons.
  destruct (decide (raw_sum u2 (ballot_ratings v)
                    < raw_sum u1 (ballot_ratings v)));
    destruct (decide (raw_sum u1 (ballot_ratings v)
                      < raw_sum u2 (ballot_ratings v)));
    simpl length; lia.
Qed.

Lemma raw_sum_unrated (u : string) (rs : list Rating) :
  ratings_for u rs = [] -> raw_sum u rs = 0.
Proof. unfold raw_sum, ratings_for. by intros ->. Qed.

Lemma ballots_preferring_unrated (u1 u2 : string) (vs : list Vote) :
  ~ rated u1 vs -> ~ rated u2 vs -> ballots_preferring u1 u2 vs = 0.
Proof.
  unfold rated, ballots_preferring. intros Hnot1 Hnot2.
  assert (Hnone1 : ratings_for u1 (vs ≫= ballot_ratings) = [])
    by (by destruct (decide (ratings_for u1 (vs ≫= ballot_ratings) = []))).
  assert (Hnone2 : ratings_for u2 (vs ≫= ballot_ratings) = [])
    by (by destruct (decide (ratings_for u2 (vs ≫= ballot_ratings) = []))).
  clear Hnot1 Hnot2. induction vs as [|v vs IH]; [done|].
  rewrite bind_cons, ratings_for_app in Hnone1, Hnone2.
  apply app_eq_nil in Hnone1 as [Hv1 Hvs1].
  apply app_eq_nil in Hnone2 as [Hv2 Hvs2].
  rewrite filter_cons, (raw_sum_unrated u1 _ Hv1), (raw_sum_unrated u2 _ Hv2).
  rewrite decide_False by lia. by apply IH.
Qed.

(** X20: in a head-to-head count every ballot counts at most once, and
    swapping the two entries swaps the counts.  For entries with different
    uuids, on ballots that carry their keys, [head_to_head] returns the
    number of ballots whose raw sum is strictly higher for A and the number
    of those for which it is strictly higher for B; both are at least 0 and
    together at most the number of ballots. *)
Theorem head_to_head_counts_each_ballot_once
    (week : Week) (entryA entryB : Entry) (ua ub : string) (vs : list Vote) :
  uuid entryA = Some ua -> uuid entryB = Some ub -> ua <> ub ->
  votes week = Some vs -> Forall vote_has_keys vs ->
  exists preferA preferB : Z,
    head_to_head week entryA entryB tt = (Ok (preferA, preferB), tt)
    /\ head_to_head week entryB entryA tt = (Ok (preferB, preferA), tt)
    /\ preferA = ballots_preferring ua ub vs
    /\ preferB = ballots_preferring ub ua vs
    /\ 0 <= preferA /\ 0 <= preferB
    /\ preferA + preferB <= Z.of_nat (length vs).
Proof.
  intros Ha Hb Hne Hvs Hkeys.
  destruct (head_to_head_outcome week entryA entryB ua ub vs Ha Hb Hvs Hkeys)
    as (pa & pb & Hrun & Hcount).
  destruct (head_to_head_outcome week entryB entryA ub ua vs Hb Ha Hvs Hkeys)
    as (pb' & pa' & Hrun' & Hcount').
  destruct (Hcount Hne) as [-> ->].
  destruct (Hcount' (not_eq_sym Hne)) as [-> ->].
  exists (ballots_preferring ua ub vs), (ballots_preferring ub ua vs).
  destruct (ballots_preferring_bounds ua ub vs) as [H1 H2].
  destruct (ballots_preferring_bounds ub ua vs) as [H3 _].
  split; [apply Hrun|]. split; [apply Hrun'|]. done.
Qed.

Lemma head_to_head_counts_each_ballot_once_witness :
  head_to_head majority_week (complete_entry "e1") (complete_entry "e2") tt
  = (Ok (1, 0), tt)
  /\ head_to_head majority_week (complete_entry "e2") (complete_entry "e1") tt
     = (Ok (0, 1), tt).
Proof.
  destruct (head_to_head_counts_each_ballot_once majority_week
              (complete_entry "e1") (complete_entry "e2") "e1" "e2"
              [ballot 7 [rt "e1" "melody" 2; rt "e2" "melody" 1;
                         rt "e3" "melody" 5];
               ballot 8 [rt "e1" "melody" 2; rt "e1" "harmony" 3;
                         rt "e2" "melody" 5]])
    as (pa & pb & H1 & H2 & -> & -> & _).
  - reflexivity.
  - reflexivity.
  - discriminate.
  - reflexivity.
  - repeat (apply Forall_cons_2;
            [apply ballot_has_keys;
             repeat (apply Forall_cons_2; [apply rt_has_keys|]);
             constructor|]).
    constructor.
  - split; [exact H1|exact H2].
Defined.

(** X21: a head-to-head tie moves A, the first entry of the pool sorted
    ascending by voteScore.  In a round on a pool of at least two scored
    entries, with ballots that carry their keys, equal counts make the round
    remove A from the pool and append it to the accumulator; and the counts
    are equal, both 0, when the two entries have different uuids and no
    rating of the week names either of them. *)
Theorem elimination_round_tie_moves_A
    (week : Week) (pool ranked : list EntryRef) :
  week_ready week -> Forall pooled pool -> (2 <= length pool)%nat ->
  exists (entryA entryB : EntryRef) (rest : list EntryRef)
         (preferA preferB : Z) (ua ub : string) (vs : list Vote),
    sorted_pool pool = entryA :: entryB :: rest
    /\ uuid (snd entryA) = Some ua /\ uuid (snd entryB) = Some ub
    /\ votes week = Some vs
    /\ head_to_head week (snd entryA) (snd entryB) tt
       = (Ok (preferA, preferB), tt)
    /\ (preferA = preferB ->
        elimination_round week (pool, ranked)
        = (Ok tt, (entryB :: rest, ranked ++ [entryA])))
    /\ (ua <> ub -> ~ rated ua vs -> ~ rated ub vs ->
        preferA = 0 /\ preferB = 0).
Proof.
  intros Hweek Hpool Hlen.
  destruct (elimination_round_outcome week pool ranked Hweek Hpool Hlen)
    as (entryA & entryB & rest & pa & pb & ua & ub & vs
        & Hsorted & Hua & Hub & Hvs & Hh2h & Hcount & Hround).
  exists entryA, entryB, rest, pa, pb, ua, ub, vs.
  do 5 (split; [done|]). split.
  - intros ->. rewrite Hround. by rewrite Z.geb_leb, Z.leb_refl.
  - intros Hne Hna Hnb. destruct (Hcount Hne) as [-> ->].
    split; by apply ballots_preferring_unrated.
Qed.

Lemma elimination_round_tie_moves_A_witness :
  exists (entryA entryB : EntryRef) (rest : list EntryRef),
    sorted_pool [scored 0 "e1" zero; scored 1 "e2" zero]
    = entryA :: entryB :: rest
    /\ elimination_round unrated_week
         ([scored 0 "e1" zero; scored 1 "e2" zero], [])
       = (Ok tt, (entryB :: rest, [] ++ [entryA])).
Proof.
  destruct (elimination_round_tie_moves_A unrated_week
              [scored 0 "e1" zero; scored 1 "e2" zero] [])
    as (entryA & entryB & rest & pa & pb & ua & ub & vs
        & Hsorted & _ & _ & _ & Hh2h & Htie & _).
  - exists []. split; [reflexivity|constructor].
  - apply Forall_cons_2; [by apply scored_pooled|].
    apply Forall_cons_2; [by apply scored_pooled|constructor].
  - simpl. lia.
  - exists entryA, entryB, rest. split; [exact Hsorted|]. apply Htie.
    vm_compute in Hsorted. injection Hsorted as <- <- <-.
    vm_compute in Hh2h. by injection Hh2h as <- <-.
Defined.

Lemma assign_placements_content (l : list EntryRef) :
  forall (place : Z) (w : Week),
    exists w' : Week,
      assign_placements place l w
      = (Ok (imap (fun k p => set_votePlacement (snd p)
                                (place + Z.of_nat k + 1)) l), w').
Proof.
  induction l as [|[i e] l IH]; intros place w.
  - by exists w.
  - simpl assign_placements. erewrite mbind_Ok by reflexivity.
    destruct (IH (place + 1) (place_entry i place w)) as (w' & Hrest).
    erewrite mbind_Ok by exact Hrest. exists w'.
    unfold mret, M_ret, ret. rewrite imap_cons. do 2 f_equal. f_equal.
    + simpl. f_equal. lia.
    + apply imap_ext. intros k p _. simpl. f_equal. lia.
Qed.

Lemma rank_pool_run (week : Week) (pool : list EntryRef) :
  week_ready week -> Forall pooled pool -> pool <> [] ->
  exists (x : EntryRef) (ranked : list EntryRef),
    elimination_loop week (length pool) (pool, []) = (Ok tt, ([x], ranked))
    /\ x :: ranked ≡ₚ pool
    /\ rank_pool pool week = assign_placements 0 (rev ranked ++ [x]) week.
Proof.
  intros Hweek Hpool Hne.
  destruct (elimination_loop_outcome week (length pool) Hweek pool [] Hpool)
    as (pool' & ranked & Hloop & Hlen1 & Hlen2 & Hperm); [lia|].
  assert (Hn : (1 <= length pool)%nat) by (destruct pool; [done|simpl; lia]).
  rewrite Nat.min_l in Hlen1 by lia.
  destruct pool' as [|x [|y pool']]; [done| |done].
  exists x, ranked. rewrite app_nil_r in Hperm.
  split; [exact Hloop|]. split; [exact Hperm|].
  unfold rank_pool. erewrite mbind_Ok by reflexivity.
  erewrite mbind_Ok.
  2: { unfold with_local, on_snd. simpl. rewrite Hloop. reflexivity. }
  simpl. erewrite mbind_Ok by reflexivity. reflexivity.
Qed.

(** X22: the entry left in the pool comes last.  From a non-empty pool of
    scored entries, with ballots that carry their keys, the loop ends with
    one entry in the pool and the others in the accumulator, and the
    routine returns the accumulator in reverse order, the entry moved in
    the last round first, followed by the entry left in the pool, with the
    placements 1, 2, ..., n in this order: the entry that no round removed
    gets the placement n. *)
Theorem rank_pool_survivor_comes_last (week : Week) (pool : list EntryRef) :
  week_ready week -> Forall pooled pool -> pool <> [] ->
  exists (x : EntryRef) (ranked : list EntryRef) (week' : Week),
    elimination_loop week (length pool) (pool, []) = (Ok tt, ([x], ranked))
    /\ x :: ranked ≡ₚ pool
    /\ rank_pool pool week
       = (Ok (imap (fun k p => set_votePlacement (snd p) (Z.of_nat k + 1))
                (rev ranked ++ [x])), week')
    /\ last (imap (fun k p => set_votePlacement (snd p) (Z.of_nat k + 1))
               (rev ranked ++ [x]))
       = Some (set_votePlacement (snd x) (Z.of_nat (length pool))).
Proof.
  intros Hweek Hpool Hne.
  destruct (rank_pool_run week pool Hweek Hpool Hne)
    as (x & ranked & Hloop & Hperm & Hrun).
  destruct (assign_placements_content (rev ranked ++ [x]) 0 week)
    as (week' & Hassign).
  exists x, ranked, week'.
  split; [exact Hloop|]. split; [exact Hperm|]. split.
  - by rewrite Hrun, Hassign.
  - rewrite imap_app. cbn [imap]. rewrite last_snoc. simpl. do 2 f_equal.
    rewrite length_rev. apply Permutation_length in Hperm.
    simpl in Hperm. lia.
Qed.

Lemma rank_pool_survivor_comes_last_witness :
  exists week' : Week,
    rank_pool [scored 0 "e1" one; scored 1 "e2" five] rated_week
    = (Ok [set_votePlacement (set_voteScore (complete_entry "e2") five) 1;
           set_votePlacement (set_voteScore (complete_entry "e1") one) 2],
       week').
Proof.
  destruct (rank_pool_survivor_comes_last rated_week
              [scored 0 "e1" one; scored 1 "e2" five])
    as (x & ranked & week' & Hloop & _ & Hrun & _).
  - exact rated_week_ready.
  - apply Forall_cons_2; [by apply scored_pooled|].
    apply Forall_cons_2; [by apply scored_pooled|constructor].
  - discriminate.
  - exists week'. rewrite Hrun.
    vm_compute in Hloop. injection Hloop as <- <-. reflexivity.
Defined.

(** ** A week without ballots *)

Lemma sort_by_key_equal_keys {A} (k : float) (l : list A) :
  float_lt k k = false ->
  sort_by_key ((fun x => (k, x)) <$> l) = (fun x => (k, x)) <$> l.
Proof.
  intros Hk. induction l as [|x l IH]; [done|].
  rewrite fmap_cons. cbn [sort_by_key]. rewrite IH.
  destruct l as [|y l]; [done|].
  rewrite fmap_cons. cbn [insert_by_key]. by rewrite Hk.
Qed.

Lemma sorted_pool_equal_scores (k : float) (pool : list EntryRef) :
  float_lt k k = false -> Forall (fun p => score_of p = k) pool ->
  sorted_pool pool = pool.
Proof.
  intros Hk Hall. unfold sorted_pool.
  assert (Hkeys : (fun e => (score_of e, e)) <$> pool
                  = (fun e => (k, e)) <$> pool).
  { apply list_fmap_ext. intros i e He.
    eapply Forall_forall in Hall; [|by eapply list_elem_of_lookup_2].
    by rewrite Hall. }
  rewrite Hkeys, (sort_by_key_equal_keys k pool Hk).
  rewrite <- list_fmap_compose. apply list_fmap_id.
Qed.

(** A pooled entry that no ballot rated. *)
Lemma unrated_pooled (p : EntryRef) :
  is_Some (uuid (snd p)) -> voteScore (snd p) = Some zero ->
  pooled p /\ score_of p = zero.
Proof.
  intros Hu Hs. split; [|by unfold score_of; rewrite Hs].
  split; [exact Hu|]. by exists zero.
Qed.

Lemma elimination_loop_without_ballots (week : Week) (init : list EntryRef) :
  votes week = Some [] ->
  forall (x : EntryRef) (ranked : list EntryRef) (fuel : nat),
    Forall (fun p => is_Some (uuid (snd p)) /\ voteScore (snd p) = Some zero)
      (init ++ [x]) ->
    (length init <= fuel)%nat ->
    elimination_loop week fuel (init ++ [x], ranked)
    = (Ok tt, ([x], ranked ++ init)).
Proof.
  intros Hvs. induction init as [|p init IH]; intros x ranked fuel Hall Hfuel.
  - rewrite app_nil_r. by destruct fuel.
  - destruct fuel as [|fuel]; [simpl in Hfuel; lia|].
    assert (Hlt : (1 <? length ((p :: init) ++ [x]))%nat = true).
    { apply Nat.ltb_lt. rewrite length_app. simpl. lia. }
    rewrite elimination_loop_S. cbn [fst]. rewrite Hlt.
    assert (Hweek : week_ready week) by (exists []; split; [done|constructor]).
    assert (Hpooled : Forall pooled ((p :: init) ++ [x])).
    { eapply Forall_impl; [exact Hall|].
      intros q [Hu Hs]. by apply unrated_pooled. }
    assert (Hscores : Forall (fun q => score_of q = zero)
                        ((p :: init) ++ [x])).
    { eapply Forall_impl; [exact Hall|].
      intros q [Hu Hs]. by apply unrated_pooled. }
    destruct (elimination_round_outcome week ((p :: init) ++ [x]) ranked
                Hweek Hpooled)
      as (entryA & entryB & rest & pa & pb & ua & ub & vs
          & Hsorted & _ & _ & _ & Hh2h & _ & Hround).
    { rewrite length_app. simpl. lia. }
    rewrite (sorted_pool_equal_scores zero) in Hsorted by done.
    unfold head_to_head in Hh2h. rewrite Hvs in Hh2h.
    vm_compute in Hh2h. injection Hh2h as <- <-.
    simpl in Hround.
    assert (Hrest : entryB :: rest = init ++ [x] /\ entryA = p).
    { simpl in Hsorted. injection Hsorted as <- Hrest. done. }
    destruct Hrest as [Hrest ->]. rewrite Hrest in Hround.
    erewrite mbind_Ok by exact Hround.
    simpl in Hall. apply Forall_cons in Hall as [_ Hall].
    rewrite (IH x (ranked ++ [p]) fuel Hall) by (simpl in Hfuel; lia).
    by rewrite <- app_assoc.
Qed.

Lemma rank_pool_without_ballots (week : Week) (init : list EntryRef)
    (x : EntryRef) :
  votes week = Some [] ->
  Forall (fun p => is_Some (uuid (snd p)) /\ voteScore (snd p) = Some zero)
    (init ++ [x]) ->
  rank_pool (init ++ [x]) week = assign_placements 0 (rev init ++ [x]) week.
Proof.
  intros Hvs Hall. unfold rank_pool. erewrite mbind_Ok by reflexivity.
  erewrite mbind_Ok.
  2: { unfold with_local, on_snd. simpl.
       rewrite (elimination_loop_without_ballots week init Hvs x [] _ Hall).
       - reflexivity.
       - rewrite length_app. simpl. lia. }
  simpl. erewrite mbind_Ok by reflexivity. reflexivity.
Qed.

Lemma fmap_rev {A B} (f : A -> B) (l : list A) :
  f <$> rev l = rev (f <$> l).
Proof.
  induction l as [|x l IH]; [done|]. simpl. by rewrite fmap_app, IH.
Qed.

Lemma snoc_case {A} (l : list A) :
  l = [] \/ exists init x, l = init ++ [x].
Proof.
  induction l as [|x l _] using rev_ind; [by left|right]. by exists l, x.
Qed.

Lemma pool_content (es' : list Entry) :
  forall i : nat,
    snd <$> filter (fun p : EntryRef => valid (snd p))
              (imap (fun j e' => ((i + j)%nat, e')) es')
    = filter valid es'.
Proof.
  induction es' as [|e es' IH]; intros i; [done|].
  rewrite imap_cons, imap_shift, (filter_cons _ e).
  destruct (decide (valid e)) as [Hv|Hv].
  - rewrite filter_cons_True by done. rewrite fmap_cons, IH. done.
  - rewrite filter_cons_False by done. apply IH.
Qed.

Lemma unrated_scores (es es' : list Entry) :
  Forall2 (fun e e' =>
             if decide (valid e)
             then exists u m, uuid e = Some u /\ m <> S754_nan
                    /\ score_written ∅ u m /\ e' = set_voteScore e m
             else e' = e) es es' ->
  filter valid es' = (fun e => set_voteScore e zero) <$> filter valid es.
Proof.
  induction 1 as [|e e' es es' He _ IH]; [done|].
  rewrite (filter_cons _ e). destruct (decide (valid e)) as [Hv|Hv].
  - destruct He as (u & m & _ & _ & Hm & ->).
    unfold score_written in Hm. rewrite lookup_empty in Hm. subst m.
    rewrite filter_cons_True by done. by rewrite fmap_cons, IH.
  - subst e'. by rewrite filter_cons_False by done.
Qed.

(** X23: the ranking of a week without ballots.  When ["votes"] is the
    empty list and the valid entries of the week are e1, ..., e(n-1), en in
    this order, the code after the sanitizer call gives every valid entry
    the score 0 and returns e(n-1), ..., e1, en with the placements
    1, ..., n: every round is a tie that moves the first entry of the pool,
    so the valid entry submitted last is left over and comes last. *)
Theorem score_and_rank_without_ballots
    (w : Week) (es init : list Entry) (final : Entry) :
  entries w = Some es -> votes w = Some [] ->
  filter valid es = init ++ [final] ->
  exists w' : Week,
    score_and_rank w
    = (Ok (imap (fun k e => set_votePlacement (set_voteScore e zero)
                              (Z.of_nat k + 1))
             (rev init ++ [final])), w').
Proof.
  intros Hes Hvs Hvalid.
  assert (Hsc : evaluate_scores (scanned <$> []) ∅ = (Ok tt, ∅))
    by reflexivity.
  assert (Hscorable : Forall (fun e => valid e -> scorable ∅ e) es).
  { apply Forall_forall. intros e _ _ u l _ Hl.
    by rewrite lookup_empty in Hl. }
  destruct (write_scores_loop ∅ es Hscorable 0 []) as (es' & Hloop & Hall).
  pose proof (pool_content es' 0) as Hcontent.
  rewrite (unrated_scores es es' Hall), Hvalid in Hcontent.
  destruct (written_pool ∅ es es' Hall 0) as [Hpooled' _].
  remember (filter (fun p : EntryRef => valid (snd p))
              (imap (fun j e' => ((0 + j)%nat, e')) es')) as pool eqn:Hpool.
  assert (Hpooled : Forall pooled pool) by (subst pool; exact Hpooled').
  assert (Hscore : score_entries w
                   = (Ok pool, set_entries (set_votes w []) es')).
  { rewrite (score_entries_run w [] ∅ Hvs ltac:(constructor) Hsc).
    unfold write_scores. simpl. rewrite Hes, Hloop. by subst pool. }
  assert (Hzero : Forall (fun p : EntryRef =>
                            is_Some (uuid (snd p))
                            /\ voteScore (snd p) = Some zero) pool).
  { apply Forall_forall. intros p Hp. split.
    - eapply Forall_forall in Hpooled as [Hu _]; [exact Hu|exact Hp].
    - assert (Hin : snd p ∈ snd <$> pool) by (by apply list_elem_of_fmap_2).
      rewrite Hcontent in Hin.
      apply list_elem_of_fmap in Hin as (e & -> & _). done. }
  destruct (snoc_case pool) as [Hnil|(pinit & px & Hsplit)].
  { rewrite Hnil in Hcontent. by destruct init. }
  rewrite Hsplit in Hcontent, Hzero.
  rewrite !fmap_app in Hcontent. simpl in Hcontent.
  apply app_inj_tail in Hcontent as [Hinit Hfinal].
  destruct (assign_placements_content (rev pinit ++ [px]) 0
              (set_entries (set_votes w []) es')) as (w' & Hassign).
  exists w'. unfold score_and_rank.
  erewrite mbind_Ok by exact Hscore. rewrite Hsplit.
  etrans; [exact (rank_pool_without_ballots
                    (set_entries (set_votes w []) es') pinit px eq_refl
                    Hzero)|].
  etrans; [exact Hassign|].
  do 2 f_equal.
  trans (imap (fun k e => set_votePlacement e (0 + Z.of_nat k + 1))
           (snd <$> (rev pinit ++ [px]))).
  { rewrite imap_fmap. by apply imap_ext. }
  rewrite fmap_app, fmap_rev, Hinit. simpl. rewrite Hfinal, <- fmap_rev.
  change [set_voteScore final zero]
    with ((fun e => set_voteScore e zero) <$> [final]).
  rewrite <- fmap_app, imap_fmap. by apply imap_ext.
Qed.

Lemma score_and_rank_without_ballots_witness :
  exists w' : Week,
    score_and_rank
      (week_of [complete_entry "e1"; complete_entry "e2";
                complete_entry "e3"] [])
    = (Ok [set_votePlacement (set_voteScore (complete_entry "e2") zero) 1;
           set_votePlacement (set_voteScore (complete_entry "e1") zero) 2;
           set_votePlacement (set_voteScore (complete_entry "e3") zero) 3],
       w').
Proof.
  exact (score_and_rank_without_ballots
           (week_of [complete_entry "e1"; complete_entry "e2";
                     complete_entry "e3"] [])
           [complete_entry "e1"; complete_entry "e2"; complete_entry "e3"]
           [complete_entry "e1"; complete_entry "e2"] (complete_entry "e3")
           eq_refl eq_refl eq_refl).
Defined.

(** ** The week after the ranking *)

Lemma pool_refs_elem (es' : list Entry) (i : nat) (p : EntryRef) :
  p ∈ filter (fun p : EntryRef => valid (snd p))
        (imap (fun j e' => ((i + j)%nat, e')) es')
  <-> exists j, fst p = (i + j)%nat
                /\ es' !! j = Some (snd p) /\ valid (snd p).
Proof.
  rewrite list_elem_of_filter, elem_of_lookup_imap. split.
  - intros (Hv & j & e' & -> & Hj). by exists j.
  - intros (j & Hfst & Hj & Hv). split; [exact Hv|].
    exists j, (snd p). split; [|exact Hj]. destruct p; simpl in *; by subst.
Qed.

Lemma pool_refs_NoDup (es' : list Entry) :
  forall i : nat,
    NoDup (fst <$> filter (fun p : EntryRef => valid (snd p))
                     (imap (fun j e' => ((i + j)%nat, e')) es')).
Proof.
  induction es' as [|e es' IH]; intros i; [constructor|].
  rewrite imap_cons, imap_shift.
  destruct (decide (valid e)) as [Hv|Hv].
  - rewrite filter_cons_True by done. rewrite fmap_cons.
    apply NoDup_cons. split; [|apply IH].
    intros Hin. apply list_elem_of_fmap in Hin as (p & Hp & Hin).
    apply pool_refs_elem in Hin as (j & Hfst & _). simpl in Hp.
    rewrite Hfst in Hp. lia.
  - rewrite filter_cons_False by done. apply IH.
Qed.

Lemma assign_placements_entries (l : list EntryRef) :
  forall (place : Z) (w : Week) (es' : list Entry),
    entries w = Some es' -> NoDup (fst <$> l) ->
    exists (w' : Week) (es'' : list Entry),
      assign_placements place l w
      = (Ok (imap (fun k p => set_votePlacement (snd p)
                                (place + Z.of_nat k + 1)) l), w')
      /\ entries w' = Some es'' /\ votes w' = votes w
      /\ length es'' = length es'
      /\ (forall j, j ∉ fst <$> l -> es'' !! j = es' !! j)
      /\ (forall k j e, l !! k = Some (j, e) ->
          es'' !! j
          = (fun e0 => set_votePlacement e0 (place + Z.of_nat k + 1))
              <$> es' !! j).
Proof.
  induction l as [|[i e] l IH]; intros place w es' Hes Hnodup.
  - exists w, es'. split; [done|]. do 3 (split; [done|]).
    split; [done|]. intros k j e Hk. by rewrite lookup_nil in Hk.
  - rewrite fmap_cons in Hnodup. apply NoDup_cons in Hnodup as [Hi Hnodup].
    simpl in Hi.
    set (f := fun e0 => set_votePlacement e0 (place + 1)).
    assert (Hes1 : entries (place_entry i place w) = Some (alter f i es')).
    { unfold place_entry. by rewrite Hes. }
    destruct (IH (place + 1) (place_entry i place w) (alter f i es')
                Hes1 Hnodup)
      as (w' & es'' & Hrest & Hes'' & Hvotes & Hlen & Hother & Hplaced).
    exists w', es''. split; [|split; [exact Hes''|split; [|split; [|split]]]].
    + simpl assign_placements. erewrite mbind_Ok by reflexivity.
      erewrite mbind_Ok by exact Hrest.
      unfold mret, M_ret, ret. rewrite imap_cons. do 2 f_equal. f_equal.
      * simpl. f_equal. lia.
      * apply imap_ext. intros k p _. simpl. f_equal. lia.
    + rewrite Hvotes. unfold place_entry. by rewrite Hes.
    + by rewrite Hlen, length_alter.
    + intros j Hj. rewrite fmap_cons, not_elem_of_cons in Hj.
      destruct Hj as [Hji Hj]. simpl in Hji.
      rewrite (Hother j Hj). by apply list_lookup_alter_ne.
    + intros [|k] j e0 Hk.
      * simpl in Hk. injection Hk as <- <-.
        rewrite (Hother i Hi), list_lookup_alter_eq.
        destruct (es' !! i); simpl; [|done]. unfold f. do 2 f_equal. lia.
      * simpl in Hk. rewrite (Hplaced k j e0 Hk).
        assert (Hji : i <> j).
        { intros <-. apply Hi. apply list_elem_of_fmap.
          exists (i, e0). split; [done|].
          by eapply list_elem_of_lookup_2. }
        rewrite list_lookup_alter_ne by done.
        destruct (es' !! j); simpl; [|done]. do 2 f_equal. lia.
Qed.

(** X24: the dictionaries that the ranking returns are the week's own
    entries.  On a week with its ["entries"] and ["votes"], ballots that
    carry their keys, ratings within 0..5, no valid entry rated with zeros
    only and at least one valid entry, the code after the sanitizer call
    leaves the ballots as the extent scan made them, leaves every invalid
    entry of the week as it was, and gives every valid entry a voteScore and
    a votePlacement between 1 and n; the entry with the placement k + 1, as
    the week now holds it, is the element at index k of the returned
    list. *)
Theorem score_and_rank_updates_the_week
    (w : Week) (es : list Entry) (vs : list Vote) :
  entries w = Some es -> votes w = Some vs ->
  Forall vote_has_keys vs -> Forall in_range (vs ≫= ballot_ratings) ->
  Forall (fun e => ~ only_abstained vs e) es ->
  filter valid es <> [] ->
  exists (res : list Entry) (w' : Week) (es'' : list Entry),
    score_and_rank w = (Ok res, w')
    /\ entries w' = Some es''
    /\ votes w' = Some (scanned <$> vs)
    /\ Forall2 (fun e e'' =>
                  if decide (valid e)
                  then exists (m : float) (k : nat),
                         e'' = set_votePlacement (set_voteScore e m)
                                 (Z.of_nat k + 1)
                         /\ (k < length res)%nat
                         /\ res !! k = Some e''
                  else e'' = e) es es''.
Proof.
  intros Hes Hvs Hkeys Hrange Hnot Hne.
  destruct (week_scores vs Hkeys Hrange) as (sc & Hsc & Hspec).
  assert (Hscorable : Forall (fun e => valid e -> scorable sc e) es).
  { eapply Forall_impl; [exact Hnot|]. intros e He.
    by apply (not_abstained_scorable vs). }
  destruct (write_scores_loop sc es Hscorable 0 []) as (es' & Hloop & Hall).
  destruct (written_pool sc es es' Hall 0) as [Hpooled0 Huuid0].
  pose proof (pool_refs_NoDup es' 0) as Hnodup0.
  pose proof (pool_refs_elem es' 0) as Hrefs0.
  remember (filter (fun p : EntryRef => valid (snd p))
              (imap (fun j e' => ((0 + j)%nat, e')) es')) as pool eqn:Hpool.
  assert (Hpooled : Forall pooled pool) by (subst pool; exact Hpooled0).
  assert (Huuid : (fun p : EntryRef => uuid (snd p)) <$> pool
                  = uuid <$> filter valid es)
    by (subst pool; exact Huuid0).
  assert (Hnodup : NoDup (fst <$> pool)) by (subst pool; exact Hnodup0).
  assert (Hrefs : forall p : EntryRef,
             p ∈ pool
             <-> exists j, fst p = (0 + j)%nat
                           /\ es' !! j = Some (snd p) /\ valid (snd p))
    by (subst pool; exact Hrefs0).
  clear Hpooled0 Huuid0 Hnodup0 Hrefs0.
  set (w1 := set_entries (set_votes w (scanned <$> vs)) es').
  assert (Hscore : score_entries w = (Ok pool, w1)).
  { rewrite (score_entries_run w vs sc Hvs Hkeys Hsc).
    unfold write_scores. simpl. rewrite Hes, Hloop. by subst pool. }
  assert (Hnonempty : pool <> []).
  { intros ->. destruct (filter valid es); [done|discriminate]. }
  destruct (rank_pool_run w1 pool (scanned_week_ready w vs es' Hkeys)
              Hpooled Hnonempty)
    as (x & ranked & _ & Hperm & Hrun).
  assert (HL : rev ranked ++ [x] ≡ₚ pool).
  { rewrite <- Hperm, <- Permutation_rev. by rewrite Permutation_app_comm. }
  assert (HnodupL : NoDup (fst <$> rev ranked ++ [x])) by (by rewrite HL).
  destruct (assign_placements_entries (rev ranked ++ [x]) 0 w1 es' eq_refl
              HnodupL)
    as (w' & es'' & Hassign & Hes'' & Hvotes & Hlen & Hother & Hplaced).
  eexists _, w', es''. split.
  { unfold score_and_rank. erewrite mbind_Ok by exact Hscore.
    rewrite Hrun. exact Hassign. }
  split; [exact Hes''|]. split; [exact Hvotes|].
  apply Forall2_same_length_lookup_2.
  { by rewrite Hlen, (Forall2_length _ _ _ Hall). }
  intros j e e'' Hj Hj''.
  destruct (Forall2_lookup_l _ _ _ _ _ Hall Hj) as (e' & Hj' & He).
  destruct (decide (valid e)) as [Hv|Hv].
  - destruct He as (u & m & _ & _ & _ & ->).
    assert (Hin : (j, set_voteScore e m) ∈ rev ranked ++ [x]).
    { rewrite HL. apply Hrefs. exists j. done. }
    apply list_elem_of_lookup_1 in Hin as [k Hk].
    rewrite (Hplaced k j _ Hk), Hj' in Hj''. simpl in Hj''.
    injection Hj'' as <-. exists m, k.
    split; [f_equal; lia|]. rewrite length_imap, list_lookup_imap, Hk.
    split; [by eapply lookup_lt_Some|]. simpl. do 2 f_equal.
  - subst e'. rewrite Hother, Hj' in Hj''; [by injection Hj'' as <-|].
    intros Hin. apply list_elem_of_fmap in Hin as (p & -> & Hin).
    rewrite HL in Hin. apply Hrefs in Hin as (j' & Hfst & Hp & Hvp).
    simpl in Hfst. rewrite <- Hfst, Hj' in Hp. injection Hp as Hp.
    by rewrite <- Hp in Hvp.
Qed.

Lemma score_and_rank_updates_the_week_witness :
  exists (res : list Entry) (w' : Week),
    score_and_rank rated_week = (Ok res, w')
    /\ entries w' = Some (rev res).
Proof.
  destruct (score_and_rank_updates_the_week rated_week
              [complete_entry "e1"; complete_entry "e2"]
              [ballot 7 [rt "e1" "melody" 1; rt "e2" "melody" 5]])
    as (res & w' & es'' & Hrun & _).
  - reflexivity.
  - reflexivity.
  - apply Forall_cons_2; [|constructor]. apply ballot_has_keys.
    apply Forall_cons_2; [apply rt_has_keys|].
    apply Forall_cons_2; [apply rt_has_keys|constructor].
  - apply Forall_cons_2; [eexists; split; [reflexivity|lia]|].
    apply Forall_cons_2; [eexists; split; [reflexivity|lia]|]. constructor.
  - apply Forall_cons_2; [intros (_ & _ & H); discriminate H|].
    apply Forall_cons_2; [intros (_ & _ & H); discriminate H|]. constructor.
  - discriminate.
  - exists res, w'. split; [exact Hrun|].
    vm_compute in Hrun. injection Hrun as <- <-. reflexivity.
Defined.
